(** * Shuffle-ZKP: the aggregation-and-consistency protocol of
    [example/sum_cmp.go] and [vote/vote.go], embedded in Rocq.

    Field elements are [fr_bn254.Element], integers modulo the order [q] of
    the BN254 scalar field.  A Go panic (index out of range, nil
    dereference) is [None]; random draws ([randomFr], [rand.Shuffle]) are
    explicit arguments, so every statement quantifies over them. *)

From Stdlib Require Import ZArith Znumtheory Lia List Permutation Ring.
From Stdlib Require Import Zmod.
From Stdlib Require Import Floats.SpecFloat.
From stdpp Require Import base option list.
Import ListNotations.

(** ** Primality certificates (used once, for the field order) *)

Section Certificates.
Local Open Scope Z_scope.

(** [no_divisor_from n d fuel]: none of [d, d+1, ..., d+fuel-1] divides [n]. *)
Fixpoint no_divisor_from (n d : Z) (fuel : nat) : bool :=
  match fuel with
  | O => true
  | S f => negb (n mod d =? 0) && no_divisor_from n (d + 1) f
  end.

Definition trial_prime (n : Z) (bound : nat) : bool :=
  (1 <? n) && no_divisor_from n 2 bound
  && (n <? (2 + Z.of_nat bound) * (2 + Z.of_nat bound)).

(** Square-and-multiply exponentiation modulo [n]. *)
Fixpoint powmod_pos (a : Z) (e : positive) (n : Z) : Z :=
  match e with
  | xH => a mod n
  | xO e' => let x := powmod_pos a e' n in (x * x) mod n
  | xI e' => let x := powmod_pos a e' n in ((x * x) mod n * a) mod n
  end.

Definition powmod (a e n : Z) : Z :=
  match e with
  | Zpos p => powmod_pos a p n
  | _ => 1 mod n
  end.

(** One line [(p, e, a)] of a Pocklington certificate for [n]: [p ^ e]
    divides [n - 1], and [a] has order divisible by [p ^ e] modulo every
    prime factor of [n]. *)
Definition pock_item_ok (n : Z) (it : Z * Z * Z) : bool :=
  let '(p, e, a) := it in
  let x := powmod a ((n - 1) / p) n in
  (0 <? e) && ((n - 1) mod p ^ e =? 0)
  && (powmod x p n =? 1)
  && (Z.gcd (x - 1) n =? 1).

Definition pock_F (cert : list (Z * Z * Z)) : Z :=
  fold_right (fun it acc => let '(p, e, _) := it in Z.lcm (p ^ e) acc) 1 cert.

Definition pock_check (n : Z) (cert : list (Z * Z * Z)) : bool :=
  (1 <? n) && forallb (pock_item_ok n) cert && (n <? pock_F cert * pock_F cert).

End Certificates.

(** ** The scalar field of BN254 ([fr_bn254.Element]) *)

(** Order of the BN254 scalar field, the modulus of [fr_bn254.Element]. *)
Definition q : Z :=
  21888242871839275222246405745257275088548364400416034343698204186575808495617.

(** [fr_bn254.Element]: an integer modulo [q], in canonical form. *)
Definition Element : Type := Zmod q.

(** [fr_bn254.NewElement(v)] for [v : uint64]. *)
Definition NewElement (v : Z) : Element := Zmod.of_Z q (v mod 2 ^ 64).

(** [fr_bn254.One()] and the zero value of the type. *)
Definition One : Element := Zmod.one.
Definition Zero : Element := Zmod.zero.

(** [z.Add(&x, &y)], [z.Sub(&x, &y)], [z.Mul(&x, &y)], [x.Equal(&y)]; the
    receiver [z] is the returned value. *)
Definition Add (x y : Element) : Element := Zmod.add x y.
Definition Sub (x y : Element) : Element := Zmod.sub x y.
Definition Mul (x y : Element) : Element := Zmod.mul x y.
Definition Equal (x y : Element) : bool := Zmod.eqb x y.

(** [x.Uint64()]: the low 64 bits of the canonical representative. *)
Definition Uint64 (x : Element) : Z := (Zmod.to_Z x mod 2 ^ 64)%Z.

(** ** Go slices, loops and [rand.Shuffle] *)

(** [l[i] = x]; out of range is a panic. *)
Definition slice_set {A} (l : list A) (i : nat) (x : A) : option (list A) :=
  if decide (i < length l) then Some (<[i:=x]> l) else None.

(** [for i := lo; i < hi; i++ { body }], threading the state. *)
Definition for_range {S} (lo hi : nat) (body : nat → S → option S) (s : S)
  : option S :=
  fold_left (λ acc i, acc ≫= body i) (seq lo (hi - lo)) (Some s).

(** [l[i], l[j] = l[j], l[i]]. *)
Definition swapElems {A} (i j : nat) (l : list A) : option (list A) :=
  x ← l !! i; y ← l !! j; l' ← slice_set l i y; slice_set l' j x.

(** [rand.Shuffle(n, swap)] of Go's math/rand is a Fisher-Yates shuffle:
    for [i] from [n-1] down to [1] it draws [j] in [[0, i]] and calls
    [swap(i, j)].  The draws are [rnd i], reduced into range. *)
Definition Shuffle {S} (rnd : nat → nat) (n : nat)
    (swap : nat → nat → S → option S) (s : S) : option S :=
  fold_left (λ acc i, acc ≫= swap i (rnd i mod (i + 1)))
            (rev (seq 1 (n - 1))) (Some s).

(** [dst[cnt] = src[j]; cnt += 1] for every [j]: the copy loops that fill a
    preallocated slice. *)
Definition copy_into {A} (src : list A) (st : list A * nat)
  : option (list A * nat) :=
  fold_left (λ acc x, '(dst, cnt) ← acc;
                      dst' ← slice_set dst cnt x; Some (dst', S cnt))
            src (Some st).

(** ** [PolyEval] (the same function in sum_cmp.go, vote.go and
    addr_val_check.go)

    [prod := vec[0]] panics on an empty slice. *)
Definition PolyEval (vec : list Element) (r : Element) : option Element :=
  match vec with
  | [] => None
  | v0 :: rest =>
      Some (fold_left (λ prod tmp, Mul prod (Add tmp r)) rest (Add v0 r))
  end.

(** [PolyEvalInCircuit], evaluated on an assignment: [api.Add] and [api.Mul]
    are the field operations. *)
Definition PolyEvalInCircuit (vec : list Element) (publicR : Element)
  : option Element :=
  match vec with
  | [] => None
  | v0 :: rest =>
      Some (fold_left (λ prod v, Mul prod (Add v publicR)) rest (Add v0 publicR))
  end.

(** The mask loop: [mask = One(); for j { y[j] = randomFr(); mask.Mul(&mask, &y[j]) }]. *)
Definition maskOf (dummies : list Element) : Element :=
  fold_left Mul dummies One.

(** The server side of both variants: the product of the clients' public
    products, the product from the shuffler, and their comparison. *)
Definition prodFromClients (publicProds : list Element) : Element :=
  fold_left Mul publicProds (NewElement 1).

Definition prodFromShuffler (vals dummies : list Element) (r : Element)
  : option Element :=
  p ← PolyEval vals r; Some (fold_left Mul dummies p).

Definition ConsistencyCheck (vals dummies : list Element) (r : Element)
    (publicProds : list Element) : option bool :=
  p ← prodFromShuffler vals dummies r;
  Some (Equal p (prodFromClients publicProds)).

(** ** The threshold-sum variant, example/sum_cmp.go *)

Module SumCmp.

(** Lines 381-386: split [secretVal] into [PrivateVecLength] shares; the
    [j]-th call of [randomFr] returns [rnd j]. *)
Definition splitStep (rnd : nat → Element) (j : nat) (v : list Element)
  : option (list Element) :=
  v ← slice_set v j (rnd j);
  x0 ← v !! 0; xj ← v !! j;
  slice_set v 0 (Sub x0 xj).

Definition split (PrivateVecLength : nat) (secretVal : Z) (rnd : nat → Element)
  : option (list Element) :=
  v ← slice_set (replicate PrivateVecLength Zero) 0 (NewElement secretVal);
  for_range 1 (length v) (splitStep rnd) v.

(** Lines 388-393: the dummies of one client and their product. *)
Definition dummiesOf (DummyVecLength : nat) (rnd : nat → Element)
  : list Element :=
  map rnd (seq 0 DummyVecLength).

(** What one client holds after step 1. *)
Record Client := {
  splittedSecretVal : list Element;
  splittedSecretMask : list Element;
  secretMask : Element
}.

Definition newClient (PrivateVecLength DummyVecLength : nat) (secretVal : Z)
    (shareRnd maskRnd : nat → Element) : option Client :=
  v ← split PrivateVecLength secretVal shareRnd;
  let y := dummiesOf DummyVecLength maskRnd in
  Some {| splittedSecretVal := v; splittedSecretMask := y;
          secretMask := maskOf y |}.

(** [GenProofGroth16]: the public product sent to the server. *)
Definition publicProd (secretVal : list Element) (publicRFr mask : Element)
  : option Element :=
  privateProdFr ← PolyEval secretVal publicRFr;
  Some (Mul privateProdFr mask).

(** [sumAndCmpCircuit.Define], lines 83-91, on an assignment: the sum of the
    private vector and [api.AssertIsLessOrEqual(sum, PublicThreshold)],
    which compares canonical representatives. *)
Definition circuitSum (PrivateVec : list Element) : option Element :=
  match PrivateVec with
  | [] => None
  | v0 :: rest => Some (fold_left Add rest v0)
  end.

Definition thresholdClause (PrivateVec : list Element) (PublicThreshold : Element)
  : option bool :=
  sum ← circuitSum PrivateVec;
  Some (Zmod.to_Z sum <=? Zmod.to_Z PublicThreshold)%Z.

(** Lines 95-98: the product clause of the circuit. *)
Definition prodClause (PrivateVec : list Element)
    (PrivateMask PublicR PublicProd : Element) : option bool :=
  privateProd ← PolyEvalInCircuit PrivateVec PublicR;
  Some (Equal (Mul privateProd PrivateMask) PublicProd).

(** Lines 491-495: the sum the server computes and prints. *)
Definition computedSum (allSecretVal : list Element) : Z :=
  Uint64 (fold_left Add allSecretVal (NewElement 0)).

(** The assignment of [sumAndCmpCircuit]. *)
Module sumAndCmpCircuit.
Record t := {
  PrivateVec : list Element;
  PublicThreshold : Element;
  PrivateMask : Element;
  PublicR : Element;
  PublicProd : Element;
  PublicCommitment : Element;
  PrivateSalt : Element
}.
End sumAndCmpCircuit.

(** [sumAndCmpCircuit.Define] on an assignment: whether every assertion
    holds; reading [PrivateVec[0]] of an empty vector is a panic.  [mimc]
    is the MiMC of the circuit: the hash of the elements written to it. *)
Definition Define (mimc : list Element → Element) (circuit : sumAndCmpCircuit.t)
  : option bool :=
  sumOk ← thresholdClause (sumAndCmpCircuit.PrivateVec circuit)
                          (sumAndCmpCircuit.PublicThreshold circuit);
  prodOk ← prodClause (sumAndCmpCircuit.PrivateVec circuit)
                      (sumAndCmpCircuit.PrivateMask circuit)
                      (sumAndCmpCircuit.PublicR circuit)
                      (sumAndCmpCircuit.PublicProd circuit);
  let comOk := Equal (sumAndCmpCircuit.PublicCommitment circuit)
                     (mimc (sumAndCmpCircuit.PrivateVec circuit
                            ++ [sumAndCmpCircuit.PrivateMask circuit;
                                sumAndCmpCircuit.PrivateSalt circuit])) in
  Some (sumOk && prodOk && comOk).

(** [ClientSubmissionToServer]: [proof] is an interface value, [None] is
    nil; the public witness is the values of the public variables. *)
Module ClientSubmissionToServer.
Record t {Proof : Type} := {
  publicWitness : list Element;
  publicProd : Element;
  proof : option Proof
}.
Arguments t : clear implicits.
End ClientSubmissionToServer.

(** What the server prints: the clients whose proof is not verified,
    whether the two sets are found the same, and the sum. *)
Record Result := { verificationErrors : list nat; setsEqual : bool; sum : Z }.

Section Round.

(** The external collaborators: the hash [hash.MIMC_BN254] of the written
    elements; [groth16.Prove] on an assignment, whose error is [None] and
    comes with a nil proof; [groth16.Verify] on a proof and a public
    witness, whose error is [false]. *)
Context {Proof : Type}.
Variable goMimc : list Element → Element.
Variable Prove : sumAndCmpCircuit.t → option Proof.
Variable Verify : Proof → list Element → bool.

(** Lines 395-406: the commitment of a client. *)
Definition commitment (splittedSecretVal : list Element)
    (secretMask secretSalt : Element) : Element :=
  goMimc (splittedSecretVal ++ [secretMask; secretSalt]).

(** Lines 155-163 of [GenProofGroth16]: the assignment; [PublicThreshold]
    is the [uint64] constant of the package. *)
Definition assignment (PublicThreshold : Z) (secretVal : list Element)
    (publicRFr publicProdFr mask com salt : Element) : sumAndCmpCircuit.t :=
  {| sumAndCmpCircuit.PrivateVec := secretVal;
     sumAndCmpCircuit.PublicThreshold := NewElement PublicThreshold;
     sumAndCmpCircuit.PrivateMask := mask;
     sumAndCmpCircuit.PublicR := publicRFr;
     sumAndCmpCircuit.PublicProd := publicProdFr;
     sumAndCmpCircuit.PublicCommitment := com;
     sumAndCmpCircuit.PrivateSalt := salt |}.

(** [GenProofGroth16]: the error of [groth16.Prove] is discarded, and the
    submission then carries a nil proof. *)
Definition GenProofGroth16 (PublicThreshold : Z) (secretVal : list Element)
    (publicRFr mask com salt : Element)
  : option (ClientSubmissionToServer.t Proof) :=
  publicProdFr ← publicProd secretVal publicRFr mask;
  let a := assignment PublicThreshold secretVal publicRFr publicProdFr mask
                      com salt in
  Some {| ClientSubmissionToServer.publicWitness :=
            [sumAndCmpCircuit.PublicThreshold a; sumAndCmpCircuit.PublicR a;
             sumAndCmpCircuit.PublicProd a; sumAndCmpCircuit.PublicCommitment a];
          ClientSubmissionToServer.publicProd := publicProdFr;
          ClientSubmissionToServer.proof := Prove a |}.

(** Line 439: the submission of client [i], whose salt is [secretSalt i]. *)
Definition clientSubmission (PublicThreshold : Z) (publicRFr : Element)
    (secretSalt : nat → Element) (i : nat) (c : Client)
  : option (ClientSubmissionToServer.t Proof) :=
  GenProofGroth16 PublicThreshold (splittedSecretVal c) publicRFr (secretMask c)
    (commitment (splittedSecretVal c) (secretMask c) (secretSalt i))
    (secretSalt i).

(** Lines 466-473: the verification of client [i].  [groth16.Verify] panics
    on a nil proof; an error is printed and the loop goes on. *)
Definition verifyBody (allProof : list (ClientSubmissionToServer.t Proof))
    (i : nat) (errs : list nat) : option (list nat) :=
  s ← allProof !! i;
  p ← ClientSubmissionToServer.proof s;
  Some (if Verify p (ClientSubmissionToServer.publicWitness s) then errs
        else errs ++ [i]).

(** Steps 1 (submission to the shuffler) to 4 of [ShuffleZKGroth16], from the
    clients' shares and dummies on.  Line 445 writes the proof of client
    [0], which panics when it is nil. *)
Definition serverRound (PublicThreshold : Z) (clients : list Client)
    (secretSalt : nat → Element) (rndVal rndMask : nat → nat)
    (publicRFr : Element) : option Result :=
  let allSecretVal := concat (map splittedSecretVal clients) in
  let allMask := concat (map splittedSecretMask clients) in
  allSecretVal ← Shuffle rndVal (length allSecretVal) swapElems allSecretVal;
  allMask ← Shuffle rndMask (length allMask) swapElems allMask;
  allProof ← mapM id (imap (clientSubmission PublicThreshold publicRFr secretSalt)
                           clients);
  p0 ← allProof !! 0;
  _ ← ClientSubmissionToServer.proof p0;
  errs ← for_range 0 (length clients) (verifyBody allProof) [];
  ok ← ConsistencyCheck allSecretVal allMask publicRFr
         (map ClientSubmissionToServer.publicProd allProof);
  Some {| verificationErrors := errs; setsEqual := ok;
          sum := computedSum allSecretVal |}.

(** [ShuffleZKGroth16]: [secretVal i] is client [i]'s value ([999] in the
    source), [shareRnd i], [maskRnd i] and [secretSalt i] its draws of
    [randomFr]. *)
Definition ShuffleZKGroth16 (PublicThreshold : Z)
    (ClientNum PrivateVecLength DummyVecLength : nat)
    (secretVal : nat → Z) (shareRnd maskRnd : nat → nat → Element)
    (secretSalt : nat → Element) (rndVal rndMask : nat → nat)
    (publicRFr : Element) : option Result :=
  clients ← mapM (λ i, newClient PrivateVecLength DummyVecLength (secretVal i)
                                 (shareRnd i) (maskRnd i))
                 (seq 0 ClientNum);
  serverRound PublicThreshold clients secretSalt rndVal rndMask publicRFr.

End Round.

End SumCmp.

(** ** The voting variant, vote/vote.go *)

Module Vote.

(** The assignment of [VoteCircuit]. *)
Module VoteCircuit.
Record t := {
  SortedCandidate : list Element;
  PairFirstVar : list Element;
  PairSecondVar : list Element;
  PrivateMask : Element;
  PublicR : Element;
  PublicProd : Element;
  PublicCommitment : Element;
  PrivateSalt : Element
}.
End VoteCircuit.

Record ClientState := {
  SortedCandidate : list Element;
  PairFirst : list Element;
  PairSecond : list Element;
  PrivateX : list Element;
  PrivateY : list Element;
  PublicCom : Element;
  PrivateMask : Element;
  PrivateSalt : Element;
  PublicProd : Element;
  PublicR : Element
}.

(** [first * CandidateNum + second], as the client (lines 210-215) and the
    server (lines 465-471) compute it. *)
Definition pack (CandidateNum : nat) (first second : Element) : Element :=
  Add (Mul (NewElement (Z.of_nat CandidateNum)) first) second.

Definition packAll (CandidateNum n : nat) (first second : list Element)
  : option (list Element) :=
  mapM (λ i, p ← first !! i; s ← second !! i; Some (pack CandidateNum p s))
       (seq 0 n).

(** Lines 200-208 of [ClientState.Init]: the pair loops, writing
    [PairFirst[currentPair]] and [PairSecond[currentPair]]. *)
Definition pairBody (sorted : list Element) (i j : nat)
    (st : list Element * list Element * nat)
  : option (list Element * list Element * nat) :=
  let '(first, second, currentPair) := st in
  p ← sorted !! i; q ← sorted !! (i + j + 1);
  first ← slice_set first currentPair p;
  second ← slice_set second currentPair q;
  Some (first, second, currentPair + 1).

Definition genPairs (CandidateNum : nat) (sorted : list Element)
  : option (list Element * list Element) :=
  let n := CandidateNum * (CandidateNum - 1) / 2 in
  st ← for_range 0 CandidateNum
         (λ i, for_range 0 (CandidateNum - i - 1) (pairBody sorted i))
         (replicate n Zero, replicate n Zero, 0);
  Some (st.1.1, st.1.2).

(** Lines 112-126 of [VoteCircuit.Define] on an assignment: every
    [api.AssertIsEqual] of the pair loops holds; [base] is the number of
    pairs of the earlier rows. *)
Definition pairAsserts (sorted first second : list Element) (i j base : nat)
  : option bool :=
  f ← first !! (base + j); si ← sorted !! i;
  s ← second !! (base + j); sj ← sorted !! (i + j + 1);
  Some (Equal f si && Equal s sj).

Definition rowAsserts (CandidateNum : nat) (sorted first second : list Element)
    (i : nat) (st : bool * nat) : option (bool * nat) :=
  let '(ok, base) := st in
  ok ← for_range 0 (CandidateNum - i - 1)
         (λ j ok, b ← pairAsserts sorted first second i j base; Some (ok && b))
         ok;
  Some (ok, base + (CandidateNum - i - 1)).

Definition pairClause (CandidateNum : nat) (sorted first second : list Element)
  : option bool :=
  st ← for_range 0 CandidateNum (rowAsserts CandidateNum sorted first second)
         (true, 0);
  Some st.1.

Section Round.

(** The external collaborators: the MiMC hash of the written elements, the
    Groth16 prover (on an assignment) and verifier. *)
Context {Proof Witness : Type}.
Variable MiMC : list Element → Element.
Variable Prove : VoteCircuit.t → Proof * Witness.
Variable Verify : Proof → Witness → bool.

(** [ClientState.Init] once [rand.Shuffle] has ordered [SortedCandidate]:
    [sorted] is the ranking, [dummyRnd] and [salt] the draws of [randomFr]. *)
Definition initFrom (CandidateNum DummyVecLength : nat) (sorted : list Element)
    (dummyRnd : nat → Element) (salt : Element) : option ClientState :=
  let n := CandidateNum * (CandidateNum - 1) / 2 in
  '(first, second) ← genPairs CandidateNum sorted;
  x ← packAll CandidateNum n first second;
  let y := map dummyRnd (seq 0 DummyVecLength) in
  let mask := maskOf y in
  Some {| SortedCandidate := sorted; PairFirst := first; PairSecond := second;
          PrivateX := x; PrivateY := y;
          PublicCom := MiMC (x ++ [mask; salt]);
          PrivateMask := mask; PrivateSalt := salt;
          PublicProd := Zero; PublicR := Zero |}.

(** [ClientState.Init]: the candidates [0 .. CandidateNum-1] are shuffled by
    [rand.Shuffle] with the draws [rankRnd]. *)
Definition Init (CandidateNum DummyVecLength : nat) (rankRnd : nat → nat)
    (dummyRnd : nat → Element) (salt : Element) : option ClientState :=
  let candidates := map (λ i, NewElement (Z.of_nat i)) (seq 0 CandidateNum) in
  sorted ← Shuffle rankRnd (length candidates) swapElems candidates;
  initFrom CandidateNum DummyVecLength sorted dummyRnd salt.

(** [ClientState.ComputePolyEval]. *)
Definition ComputePolyEval (c : ClientState) (publicR : Element)
  : option ClientState :=
  prod ← PolyEval (PrivateX c) publicR;
  Some {| SortedCandidate := SortedCandidate c; PairFirst := PairFirst c;
          PairSecond := PairSecond c; PrivateX := PrivateX c;
          PrivateY := PrivateY c; PublicCom := PublicCom c;
          PrivateMask := PrivateMask c; PrivateSalt := PrivateSalt c;
          PublicProd := Mul prod (PrivateMask c); PublicR := PublicR c |}.

(** [ClientState.GenAssignment]: the updated client and the assignment. *)
Definition GenAssignment (CandidateNum : nat) (c : ClientState) (publicR : Element)
  : option (ClientState * VoteCircuit.t) :=
  let n := CandidateNum * (CandidateNum - 1) / 2 in
  sortedCandidate ← mapM (λ i, SortedCandidate c !! i) (seq 0 CandidateNum);
  pairFirstVar ← mapM (λ i, PairFirst c !! i) (seq 0 n);
  pairSecondVar ← mapM (λ i, PairSecond c !! i) (seq 0 n);
  c ← ComputePolyEval c publicR;
  Some (c, {| VoteCircuit.SortedCandidate := sortedCandidate;
              VoteCircuit.PairFirstVar := pairFirstVar;
              VoteCircuit.PairSecondVar := pairSecondVar;
              VoteCircuit.PrivateMask := PrivateMask c;
              VoteCircuit.PublicR := publicR;
              VoteCircuit.PublicProd := PublicProd c;
              VoteCircuit.PublicCommitment := PublicCom c;
              VoteCircuit.PrivateSalt := PrivateSalt c |}).

(** [ClientSubmissionToServer]: [proof] and [publicWitness] are pointers,
    [None] is [nil]. *)
Record ClientSubmissionToServer := {
  publicWitness : option Witness;
  publicProd : Element;
  proof : option Proof
}.

(** Lines 404-415: proofs are generated for the clients [i < MaxNumOfCheckProof]. *)
Definition submit (MaxNumOfCheckProof : nat) (i : nat)
    (ca : ClientState * VoteCircuit.t) : ClientSubmissionToServer :=
  if decide (i < MaxNumOfCheckProof) then
    let pw := Prove ca.2 in
    {| proof := Some pw.1; publicWitness := Some pw.2;
       publicProd := PublicProd ca.1 |}
  else
    {| proof := None; publicWitness := None; publicProd := PublicProd ca.1 |}.

(** What the server prints. *)
Inductive Output :=
| VerificationError (i : nat)
| ProductsNotEqual
| ComparisonNotCorrect
| SoleWinnerIs (i : nat) (votes : list Z)
| NoSoleWinner.

(** Lines 452-459: the verification loop; the state is the list of the
    verified clients and the output.  Dereferencing a nil proof panics. *)
Definition verifyBody (MaxNumOfCheckProof : nat)
    (allSubmission : list ClientSubmissionToServer) (i : nat)
    (st : list nat * list Output) : option (list nat * list Output) :=
  if decide (i < MaxNumOfCheckProof) then
    s ← allSubmission !! i;
    p ← proof s; w ← publicWitness s;
    Some (st.1 ++ [i],
          if Verify p w then st.2 else st.2 ++ [VerificationError i])
  else Some st.

Definition verifyAll (MaxNumOfCheckProof : nat)
    (allSubmission : list ClientSubmissionToServer)
  : option (list nat * list Output) :=
  for_range 0 (length allSubmission) (verifyBody MaxNumOfCheckProof allSubmission)
            ([], []).

(** Lines 480-483: the product of the public products of all clients. *)
Definition prodFromClient (nClients : nat)
    (allSubmission : list ClientSubmissionToServer) : option Element :=
  for_range 0 nClients
    (λ i prod, s ← allSubmission !! i; Some (Mul prod (publicProd s)))
    (NewElement 1).

End Round.

(** Lines 493-499: the tally [comparisonVoteCnt], a matrix of [uint64]. *)
Definition tallyStep (first second : list Element) (i : nat) (cnt : list (list Z))
  : option (list (list Z)) :=
  f ← first !! i; s ← second !! i;
  let a := Z.to_nat (Uint64 f) in
  let b := Z.to_nat (Uint64 s) in
  row ← cnt !! a; c ← row !! b;
  row ← slice_set row b ((c + 1) mod 2 ^ 64)%Z;
  slice_set cnt a row.

Definition tally (CandidateNum : nat) (first second : list Element)
  : option (list (list Z)) :=
  for_range 0 (length first) (tallyStep first second)
            (replicate CandidateNum (replicate CandidateNum 0%Z)).

(** Lines 504-512: the inner loop, with its [break]; [ok] and the output. *)
Fixpoint beatsAll (cnt : list (list Z)) (ClientNum : Z) (i : nat) (js : list nat)
    (out : list Output) : option (bool * list Output) :=
  match js with
  | [] => Some (true, out)
  | j :: js =>
      if decide (i = j) then beatsAll cnt ClientNum i js out
      else
        ri ← cnt !! i; cij ← ri !! j; rj ← cnt !! j; cji ← rj !! i;
        if (cij <=? cji)%Z then Some (false, out)
        else
          let out :=
            if ((cij + cji) mod 2 ^ 64 =? ClientNum)%Z then out
            else out ++ [ComparisonNotCorrect] in
          beatsAll cnt ClientNum i js out
  end.

(** Lines 501-524: [soleWinner], [-1] when there is none, and the output. *)
Definition winnerBody (CandidateNum : nat) (ClientNum : Z) (cnt : list (list Z))
    (i : nat) (st : Z * list Output) : option (Z * list Output) :=
  '(ok, out) ← beatsAll cnt ClientNum i (seq 0 CandidateNum) st.2;
  if ok : bool then
    row ← cnt !! i;
    votes ← mapM (λ j, row !! j) (seq 0 CandidateNum);
    Some (Z.of_nat i, out ++ [SoleWinnerIs i votes])
  else Some (st.1, out).

Definition findSoleWinner (CandidateNum : nat) (ClientNum : Z) (cnt : list (list Z))
  : option (Z * list Output) :=
  '(soleWinner, out) ← for_range 0 CandidateNum
                         (winnerBody CandidateNum ClientNum cnt) ((-1)%Z, []);
  Some (soleWinner,
        if (soleWinner =? -1)%Z then out ++ [NoSoleWinner] else out).

Section Server.

Context {Proof Witness : Type}.
Variable MiMC : list Element → Element.
Variable Prove : VoteCircuit.t → Proof * Witness.
Variable Verify : Proof → Witness → bool.

(** The swap of lines 385-388: both slices, the same permutation. *)
Definition swapPairs (i j : nat) (fs : list Element * list Element)
  : option (list Element * list Element) :=
  f ← swapElems i j fs.1; s ← swapElems i j fs.2; Some (f, s).

Record Result := {
  submissions : list (@ClientSubmissionToServer Proof Witness);
  verified : list nat;
  shufflerProd : Element;
  clientProd : Element;
  productsEqual : bool;
  comparisonVoteCnt : list (list Z);
  soleWinner : Z;
  output : list Output
}.

(** Lines 373-383: the votes of all clients are copied to the shuffler. *)
Definition copyVotes (c : ClientState) (st : list Element * list Element * nat)
  : option (list Element * list Element * nat) :=
  for_range 0 (length (PairFirst c))
    (λ j '(first, second, voteCnt),
       f ← PairFirst c !! j; s ← PairSecond c !! j;
       first ← slice_set first voteCnt f;
       second ← slice_set second voteCnt s;
       Some (first, second, voteCnt + 1))
    st.

(** [VoteGroth16] from step 1 on, for clients already initialised;
    [ClientNum] is [len(clients)]. *)
Definition round (CandidateNum MaxNumOfCheckProof DummyVecLength : nat)
    (clients : list ClientState) (rndPairs rndDummies : nat → nat)
    (publicR : Element) : option Result :=
  let ClientNum := length clients in
  let n := CandidateNum * (CandidateNum - 1) / 2 in
  (* the information of the 0-th client is printed *)
  _ ← clients !! 0;
  (* the votes go to the shuffler *)
  '(shuffledPairFirst, shuffledPairSecond, _) ←
     fold_left (λ acc c, acc ≫= copyVotes c) clients
               (Some (replicate (ClientNum * n) Zero,
                      replicate (ClientNum * n) Zero, 0));
  '(shuffledPairFirst, shuffledPairSecond) ←
     Shuffle rndPairs (length shuffledPairFirst) swapPairs
             (shuffledPairFirst, shuffledPairSecond);
  (* assignments and proofs *)
  allAssignment ← mapM (λ c, GenAssignment CandidateNum c publicR) clients;
  let allSubmission := imap (submit Prove MaxNumOfCheckProof) allAssignment in
  (* the dummies go to the shuffler *)
  '(allDummies, _) ←
     copy_into (concat (map PrivateY clients))
               (replicate (ClientNum * DummyVecLength) Zero, 0);
  allDummies ← Shuffle rndDummies (length allDummies) swapElems allDummies;
  (* the server verifies the proofs *)
  '(ver, out) ← verifyAll Verify MaxNumOfCheckProof allSubmission;
  (* and the polynomial evaluations *)
  processedVec ← packAll CandidateNum (length shuffledPairFirst)
                         shuffledPairFirst shuffledPairSecond;
  fromShuffler ← prodFromShuffler processedVec allDummies publicR;
  fromClient ← prodFromClient (length clients) allSubmission;
  let eq := Equal fromShuffler fromClient in
  let out := if eq then out else out ++ [ProductsNotEqual] in
  (* the tally and the sole winner *)
  cnt ← tally CandidateNum shuffledPairFirst shuffledPairSecond;
  '(w, out') ← findSoleWinner CandidateNum (Z.of_nat ClientNum) cnt;
  Some {| submissions := allSubmission; verified := ver;
          shufflerProd := fromShuffler; clientProd := fromClient;
          productsEqual := eq;
          comparisonVoteCnt := cnt; soleWinner := w; output := out ++ out' |}.

(** [VoteGroth16]: client [i] shuffles its ranking with the draws
    [rankRnd i]; [dummyRnd i] and [salt i] are its draws of [randomFr]. *)
Definition VoteGroth16 (CandidateNum ClientNum MaxNumOfCheckProof DummyVecLength : nat)
    (rankRnd : nat → nat → nat) (dummyRnd : nat → nat → Element)
    (salt : nat → Element) (rndPairs rndDummies : nat → nat)
    (publicR : Element) : option Result :=
  clients ← mapM (λ i, Init MiMC CandidateNum DummyVecLength (rankRnd i)
                            (dummyRnd i) (salt i))
                 (seq 0 ClientNum);
  round CandidateNum MaxNumOfCheckProof DummyVecLength clients
        rndPairs rndDummies publicR.

End Server.

End Vote.

(** ** The number of dummies: [ComputeDummyNum]

    [float64] values are the IEEE 754 binary64 numbers of the standard
    library's specification ([prec = 53], [emax = 1024]), with its
    round-to-nearest-even operations. *)

Section DummyNum.
Local Open Scope Z_scope.

Definition float64 : Type := spec_float.
Definition prec : Z := 53.
Definition emax : Z := 1024.

(** [float64(x)] for [x : uint64], and for the untyped constant [2]. *)
Definition float64_of_uint64 (x : Z) : float64 :=
  binary_normalize prec emax x 0 false.

(** The constant [e], rounded to [float64]: [0x1.5bf0a8b145769p+1]. *)
Definition float_e : float64 := S754_finite false 6121026514868073 (-51).

(** Neither an infinity nor a NaN. *)
Definition is_finite (x : float64) : bool :=
  match x with
  | S754_zero _ | S754_finite _ _ _ => true
  | _ => false
  end.

(** [math.Ceil]: the least integer not below [x]; zeros, infinities and NaN
    are returned unchanged, and a negative fraction above [-1] gives [-0]. *)
Definition Ceil (x : float64) : float64 :=
  match x with
  | S754_finite s m e =>
      if 0 <=? e then x
      else let d := 2 ^ (- e) in
           binary_normalize prec emax
             (if s then - (Zpos m / d) else (Zpos m + d - 1) / d) 0 s
  | _ => x
  end.

(** [uint64(x)] for [x : float64]: the fraction is discarded.  When the
    value does not fit (a negative integer, [2^64] or more, an infinity or
    a NaN) the conversion succeeds with a [uint64] that depends on the
    implementation: [convOverflow x], reduced to 64 bits. *)
Variable convOverflow : float64 → Z.

Definition uint64_of_float64 (x : float64) : Z :=
  match x with
  | S754_zero _ => 0
  | S754_finite s m e =>
      let a := if 0 <=? e then Zpos m * 2 ^ e else Zpos m / 2 ^ (- e) in
      let z := if s then - a else a in
      if (0 <=? z) && (z <? 2 ^ 64) then z else convOverflow x mod 2 ^ 64
  | _ => convOverflow x mod 2 ^ 64
  end.

(** [math.Log2] is a parameter; what is used of it is stated where it is
    used. *)
Variable Log2 : float64 → float64.

(** [ComputeDummyNum(lambda, n, t)]; [2*lambda+254] and [n-t] are [uint64]
    expressions and wrap around.  No operation of it can panic. *)
Definition ComputeDummyNum (lambda n t : Z) : Z :=
  let tmp :=
    SFadd prec emax
      (SFdiv prec emax
         (float64_of_uint64 ((2 * lambda + 254) mod 2 ^ 64))
         (SFsub prec emax (Log2 (float64_of_uint64 ((n - t) mod 2 ^ 64)))
                          (Log2 float_e)))
      (float64_of_uint64 2) in
  uint64_of_float64 (Ceil tmp).

End DummyNum.

(** A function with the special cases of [math.Log2] ([Log2(±0) = -Inf],
    [Log2(+Inf) = +Inf], [Log2(x < 0) = NaN], [Log2(NaN) = NaN]) that is
    exact on the powers of two: the exponent of its argument. *)
Definition Log2_exponent (x : float64) : float64 :=
  match x with
  | S754_zero _ => S754_infinity true
  | S754_infinity false => x
  | S754_finite false m e =>
      binary_normalize prec emax (Zpos (digits2_pos m) + e - 1)%Z 0 false
  | _ => S754_nan
  end.

(** * Vocabulary of the statements

    Closed forms of what the loops compute, and the conditions under which
    the statements below hold. *)

(** The product and the sum of a list of field elements. *)
Definition fprod (l : list Element) : Element := foldr Mul One l.
Definition fsum (l : list Element) : Element := foldr Add Zero l.

(** The fingerprint of a sequence at the challenge [r], as the
    specification defines it: the product of [v + r] over its elements. *)
Definition Fingerprint (values : list Element) (r : Element) : Element :=
  fprod (map (λ v, Add v r) values).

(** A client of the sum variant that can answer a challenge: it holds at
    least one share, and its mask is the product of its dummies. *)
Definition honest (c : SumCmp.Client) : Prop :=
  SumCmp.splittedSecretVal c ≠ [] ∧
  SumCmp.secretMask c = maskOf (SumCmp.splittedSecretMask c).

(** The public product of such a client. *)
Definition honestProd (r : Element) (c : SumCmp.Client) : Element :=
  Mul (Fingerprint (SumCmp.splittedSecretVal c) r) (fprod (SumCmp.splittedSecretMask c)).

(** Client [i] of the sum variant obtains a proof: its submission carries
    a proof that is not nil. *)
Definition proved {Proof : Type} (goMimc : list Element → Element)
    (Prove : SumCmp.sumAndCmpCircuit.t → option Proof) (PublicThreshold : Z)
    (r : Element) (secretSalt : nat → Element) (i : nat) (c : SumCmp.Client)
  : Prop :=
  ∃ s p, SumCmp.clientSubmission goMimc Prove PublicThreshold r secretSalt i c
         = Some s
         ∧ SumCmp.ClientSubmissionToServer.proof s = Some p.

(** The server accepts the values [vals] and the dummies at challenge [r],
    the clients having answered [r]. *)
Definition accepts (clients : list SumCmp.Client) (vals dummies : list Element)
    (r : Element) : Prop :=
  ∃ pp, mapM (λ c, SumCmp.publicProd (SumCmp.splittedSecretVal c) r (SumCmp.secretMask c))
             clients = Some pp
        ∧ ConsistencyCheck vals dummies r pp = Some true.

(** The shares after the splitting loop, in closed form. *)
Definition sharesOf (secretVal : Z) (rnd : nat → Element) (m : nat) : list Element :=
  Sub (NewElement secretVal) (fsum (map rnd (seq 1 m))) :: map rnd (seq 1 m).

(** Row [i] of the pair list of [sorted], and the pair list. *)
Definition rowOf {A} (sorted : list A) (i : nat) : list (A * A) :=
  match sorted !! i with
  | Some x => map (pair x) (drop (S i) sorted)
  | None => []
  end.

Definition pairList {A} (sorted : list A) : list (A * A) :=
  flat_map (rowOf sorted) (seq 0 (length sorted)).

(** The variable [base] of [VoteCircuit.Define] when row [i] starts:
    [base += CandidateNum - i - 1] after every row. *)
Fixpoint base (CandidateNum i : nat) : nat :=
  match i with
  | O => 0
  | S i' => base CandidateNum i' + (CandidateNum - i' - 1)
  end.

(** A preallocated pair of slices of length [n] whose first [length W]
    slots hold the pairs [W]. *)
Definition written (W : list (Element * Element)) (n : nat)
  : list Element * list Element * nat :=
  (map fst W ++ replicate (n - length W) Zero,
   map snd W ++ replicate (n - length W) Zero,
   length W).

(** The votes of one client, as pairs. *)
Definition votesOf (c : Vote.ClientState) : list (Element * Element) :=
  zip (Vote.PairFirst c) (Vote.PairSecond c).

(** The candidates [0 .. CandidateNum-1] as field elements. *)
Definition candidate (a : nat) : Element := NewElement (Z.of_nat a).

Definition candidates (CandidateNum : nat) : list Element :=
  map (λ i, NewElement (Z.of_nat i)) (seq 0 CandidateNum).

Definition cc (p : nat * nat) : Element * Element := (candidate p.1, candidate p.2).

(** What [Init] establishes about a client. *)
Definition wfClient (CandidateNum DummyVecLength : nat) (c : Vote.ClientState) : Prop :=
  length (Vote.SortedCandidate c) = CandidateNum
  ∧ Vote.PairFirst c = map fst (pairList (Vote.SortedCandidate c))
  ∧ Vote.PairSecond c = map snd (pairList (Vote.SortedCandidate c))
  ∧ Vote.PrivateX c
    = map (λ p, Vote.pack CandidateNum p.1 p.2) (pairList (Vote.SortedCandidate c))
  ∧ length (Vote.PrivateY c) = DummyVecLength
  ∧ Vote.PrivateMask c = maskOf (Vote.PrivateY c).

(** Client [c] was initialised with the ranking [rk]. *)
Definition honestClient (C D : nat) (rk : list nat) (c : Vote.ClientState) : Prop :=
  wfClient C D c ∧ Vote.SortedCandidate c = map candidate rk ∧ rk ≡ₚ seq 0 C.

(** The client after [ComputePolyEval] and the assignment of [GenAssignment]. *)
Definition withProd (c : Vote.ClientState) (publicR : Element) : Vote.ClientState :=
  {| Vote.SortedCandidate := Vote.SortedCandidate c;
     Vote.PairFirst := Vote.PairFirst c; Vote.PairSecond := Vote.PairSecond c;
     Vote.PrivateX := Vote.PrivateX c; Vote.PrivateY := Vote.PrivateY c;
     Vote.PublicCom := Vote.PublicCom c; Vote.PrivateMask := Vote.PrivateMask c;
     Vote.PrivateSalt := Vote.PrivateSalt c;
     Vote.PublicProd := Mul (Fingerprint (Vote.PrivateX c) publicR) (Vote.PrivateMask c);
     Vote.PublicR := Vote.PublicR c |}.

Definition assignmentOf (c : Vote.ClientState) (publicR : Element) : Vote.VoteCircuit.t :=
  {| Vote.VoteCircuit.SortedCandidate := Vote.SortedCandidate c;
     Vote.VoteCircuit.PairFirstVar := Vote.PairFirst c;
     Vote.VoteCircuit.PairSecondVar := Vote.PairSecond c;
     Vote.VoteCircuit.PrivateMask := Vote.PrivateMask c;
     Vote.VoteCircuit.PublicR := publicR;
     Vote.VoteCircuit.PublicProd :=
       Mul (Fingerprint (Vote.PrivateX c) publicR) (Vote.PrivateMask c);
     Vote.VoteCircuit.PublicCommitment := Vote.PublicCom c;
     Vote.VoteCircuit.PrivateSalt := Vote.PrivateSalt c |}.

(** The tally as a matrix, and the number of occurrences of a pair. *)
Definition matrixOf (C : nat) (g : nat → nat → Z) : list (list Z) :=
  map (λ a, map (g a) (seq 0 C)) (seq 0 C).

Definition countPair (a b : nat) (l : list (nat * nat)) : nat :=
  length (filter (λ p, p = (a, b)) l).

(** The tally of the rankings [rks]: how many of them rank [a] above [b]. *)
Definition tallyOf (rks : list (list nat)) (a b : nat) : Z :=
  Z.of_nat (countPair a b (concat (map pairList rks))).

(** Entry [(i, j)] of the tally. *)
Definition tallyAt (cnt : list (list Z)) (i j : nat) : Z :=
  default 0%Z (cnt !! i ≫= λ row, row !! j).

(** The ranking a client draws, the candidates [0 .. C-1] shuffled, and the
    rankings of a run. *)
Definition rankingOf (C : nat) (rnd : nat → nat) : list nat :=
  default [] (Shuffle rnd C swapElems (seq 0 C)).

Definition rankingsOf (C n : nat) (rankRnd : nat → nat → nat) : list (list nat) :=
  map (λ i, rankingOf C (rankRnd i)) (seq 0 n).

(** [okAt C g i]: the value of [ok] after the inner loop for candidate [i],
    on the tally [g]. *)
Definition okAt (C : nat) (g : nat → nat → Z) (i : nat) : bool :=
  forallb (λ j, bool_decide (i = j) || (g j i <? g i j)%Z) (seq 0 C).

(** The value of [soleWinner] after the candidates [0 .. k-1]. *)
Fixpoint winnerUpTo (C : nat) (g : nat → nat → Z) (k : nat) : Z :=
  match k with
  | O => (-1)%Z
  | S k' => if okAt C g k' then Z.of_nat k' else winnerUpTo C g k'
  end.

(** What the candidate loop and the verification loop print. *)
Definition loopEvent (e : Vote.Output) : Prop :=
  e = Vote.ComparisonNotCorrect ∨ ∃ i votes, e = Vote.SoleWinnerIs i votes.

Definition quiet (out : list Vote.Output) : Prop := Forall loopEvent out.

Definition isVerificationError (e : Vote.Output) : Prop :=
  ∃ i, e = Vote.VerificationError i.

(** Every two candidates were compared by every client. *)
Definition balanced (C : nat) (g : nat → nat → Z) (n : Z) : Prop :=
  ∀ i j, i < C → j < C → i ≠ j → ((g i j + g j i) mod 2 ^ 64)%Z = n.

(** * The circuits in full *)

(** ** [VoteCircuit], vote/vote.go *)

Module VoteDefine.

(** [frontend.Variable(i)] for an [int] constant [i]. *)
Definition constant (i : nat) : Element := Zmod.of_Z q (Z.of_nat i).

(** Lines 91-101: the fingerprint of [SortedCandidate] is the fingerprint
    of [0 .. CandidateNum-1]. *)
Definition permClause (CandidateNum : nat) (circuit : Vote.VoteCircuit.t)
  : option bool :=
  let unsortedCandidate := map constant (seq 0 CandidateNum) in
  unsortedProd ← PolyEvalInCircuit unsortedCandidate (Vote.VoteCircuit.PublicR circuit);
  sortedProd ← PolyEvalInCircuit (Vote.VoteCircuit.SortedCandidate circuit)
                                 (Vote.VoteCircuit.PublicR circuit);
  Some (Equal unsortedProd sortedProd).

(** Lines 112-126: the pair loops.  The state is whether the assertions so
    far hold, [processedVec] (a nil variable is [None]) and [base]. *)
Definition pairStep (CandidateNum : nat) (circuit : Vote.VoteCircuit.t)
    (i base j : nat) (st : bool * list (option Element))
  : option (bool * list (option Element)) :=
  let '(ok, processedVec) := st in
  f ← Vote.VoteCircuit.PairFirstVar circuit !! (base + j);
  si ← Vote.VoteCircuit.SortedCandidate circuit !! i;
  s ← Vote.VoteCircuit.PairSecondVar circuit !! (base + j);
  sj ← Vote.VoteCircuit.SortedCandidate circuit !! (i + j + 1);
  processedVec ← slice_set processedVec (base + j)
                   (Some (Add (Mul f (constant CandidateNum)) s));
  Some (ok && Equal f si && Equal s sj, processedVec).

Definition pairRow (CandidateNum : nat) (circuit : Vote.VoteCircuit.t)
    (i : nat) (st : bool * list (option Element) * nat)
  : option (bool * list (option Element) * nat) :=
  let '(ok, processedVec, base) := st in
  '(ok, processedVec) ←
     for_range 0 (CandidateNum - i - 1) (pairStep CandidateNum circuit i base)
               (ok, processedVec);
  Some (ok, processedVec, base + (CandidateNum - i - 1)).

(** [VoteCircuit.Define] on an assignment: [None] is a panic (an index out
    of range, an operation on a nil variable), otherwise whether every
    assertion holds.  [mimc] is the MiMC gadget. *)
Definition Define (mimc : list Element → Element) (CandidateNum : nat)
    (circuit : Vote.VoteCircuit.t) : option bool :=
  permOk ← permClause CandidateNum circuit;
  '(pairsOk, processedVec, _) ←
     for_range 0 CandidateNum (pairRow CandidateNum circuit)
       (true, replicate (length (Vote.VoteCircuit.PairFirstVar circuit)) None, 0);
  processedVec ← mapM id processedVec;
  privateProd ← PolyEvalInCircuit processedVec (Vote.VoteCircuit.PublicR circuit);
  let prodOk := Equal (Mul privateProd (Vote.VoteCircuit.PrivateMask circuit))
                      (Vote.VoteCircuit.PublicProd circuit) in
  let comOk := Equal (Vote.VoteCircuit.PublicCommitment circuit)
                     (mimc (processedVec
                            ++ [Vote.VoteCircuit.PrivateMask circuit;
                                Vote.VoteCircuit.PrivateSalt circuit])) in
  Some (permOk && pairsOk && prodOk && comOk).

End VoteDefine.

(** The ranking [rk] places candidate [a] before candidate [b]. *)
Definition rankedAbove (rk : list nat) (a b : nat) : Prop :=
  ∃ i j, i < j ∧ rk !! i = Some a ∧ rk !! j = Some b.

(** [first * CandidateNum + second] as the circuit computes it, and the
    packed votes of an assignment. *)
Definition packInCircuit (CandidateNum : nat) (f s : Element) : Element :=
  Add (Mul f (VoteDefine.constant CandidateNum)) s.

Definition packedVotes (CandidateNum : nat) (circuit : Vote.VoteCircuit.t)
  : list Element :=
  zip_with (packInCircuit CandidateNum)
           (Vote.VoteCircuit.PairFirstVar circuit)
           (Vote.VoteCircuit.PairSecondVar circuit).

(** The pair assertions hold of the first [b] pairs. *)
Definition pairsAgree (circuit : Vote.VoteCircuit.t) (b : nat) : bool :=
  forallb (λ '(f, s, (x, y)), Equal f x && Equal s y)
          (take b (zip (zip (Vote.VoteCircuit.PairFirstVar circuit)
                            (Vote.VoteCircuit.PairSecondVar circuit))
                       (pairList (Vote.VoteCircuit.SortedCandidate circuit)))).

(** [processedVec] when its first [b] entries are written. *)
Definition processedUpTo (CandidateNum : nat) (circuit : Vote.VoteCircuit.t) (b : nat)
  : list (option Element) :=
  map Some (take b (packedVotes CandidateNum circuit))
  ++ replicate (CandidateNum * (CandidateNum - 1) / 2 - b) None.

(** Polynomials over the field, as lists of coefficients from the constant
    term up, and their values. *)
Definition peval (p : list Element) (x : Element) : Element :=
  foldr (λ c acc, Add c (Mul x acc)) Zero p.

Fixpoint fpow (x : Element) (n : nat) : Element :=
  match n with
  | 0 => One
  | S n => Mul x (fpow x n)
  end.

(** * Inputs of the examples *)

Module Example.

(** Draws of [randomFr] and of [rand.Shuffle]. *)
Definition shares (j : nat) : Element := NewElement (Z.of_nat (7 * j + 1)).
Definition shares2 (i j : nat) : Element := NewElement (Z.of_nat (i + 7 * j + 1)).
Definition draws (i : nat) : nat := 2 * i + 1.

(** A client of the sum variant with two shares and one dummy, and one
    whose only dummy is zero. *)
Definition client : SumCmp.Client :=
  {| SumCmp.splittedSecretVal := [NewElement 1; NewElement 2];
     SumCmp.splittedSecretMask := [NewElement 3];
     SumCmp.secretMask := maskOf [NewElement 3] |}.

Definition zeroDummyClient : SumCmp.Client :=
  {| SumCmp.splittedSecretVal := [NewElement 1];
     SumCmp.splittedSecretMask := [Zero];
     SumCmp.secretMask := maskOf [Zero] |}.

(** Shuffle draws that make client [0] rank [0, 1, 2] and client [1] rank
    [1, 0, 2]. *)
Definition rankRnd (c i : nat) : nat :=
  match c, i with
  | 0, 2 => 2 | 0, 1 => 1
  | 1, 2 => 2 | 1, 1 => 0
  | _, _ => 0
  end.

(** Stand-ins for the hash and the proof system. *)
Definition MiMC (l : list Element) : Element := fold_left Add l Zero.
Definition Prove (a : Vote.VoteCircuit.t) : unit * unit := (tt, tt).
Definition Verify (p w : unit) : bool := true.

(** Stand-ins for the proof system of the sum variant: a prover that fails
    exactly when the circuit rejects the assignment. *)
Definition ProveSum (a : SumCmp.sumAndCmpCircuit.t) : option unit :=
  match SumCmp.Define MiMC a with
  | Some true => Some tt
  | _ => None
  end.
Definition VerifySum (p : unit) (w : list Element) : bool := true.

(** A conversion of the floats that do not fit: always [2^63]. *)
Definition convOverflow (x : float64) : Z := (2 ^ 63)%Z.

End Example.

(** * Proofs *)

(** ** The field order is prime *)

Section CertificateProofs.
Local Open Scope Z_scope.

Lemma no_divisor_from_spec n fuel : forall d,
  0 < d -> no_divisor_from n d fuel = true ->
  forall k, d <= k < d + Z.of_nat fuel -> ~ (k | n).
Proof.
  induction fuel as [|f IH]; intros d Hd H k Hk; [lia|].
  cbn [no_divisor_from] in H. apply andb_prop in H as [H1 H2].
  destruct (Z.eq_dec k d) as [->|Hne].
  - intros Hdiv. apply Z.mod0_divide in Hdiv. rewrite Hdiv in H1. discriminate.
  - apply (IH (d + 1)); [lia|exact H2|lia].
Qed.

Lemma trial_prime_sound n bound : trial_prime n bound = true -> Z.prime n.
Proof.
  unfold trial_prime. intros H.
  apply andb_prop in H as [H H3]. apply andb_prop in H as [H1 H2].
  apply Z.ltb_lt in H1, H3.
  pose proof (no_divisor_from_spec n bound 2 ltac:(lia) H2) as Hnd.
  split; [exact H1|]. intros m Hm [k Hk].
  assert (Hk1 : 1 < k < n) by nia.
  destruct (Z_lt_le_dec m (2 + Z.of_nat bound)) as [Hlt|Hge].
  - apply (Hnd m); [lia|]. exists k; exact Hk.
  - destruct (Z_lt_le_dec k (2 + Z.of_nat bound)) as [Hlt'|Hge'].
    + apply (Hnd k); [lia|]. exists m; lia.
    + nia.
Qed.

Lemma powmod_pos_spec a n e : powmod_pos a e n = a ^ Zpos e mod n.
Proof.
  induction e as [e IH|e IH|]; cbn [powmod_pos].
  - rewrite IH, Pos2Z.inj_xI.
    replace (2 * Z.pos e + 1) with (Z.pos e + Z.pos e + 1) by lia.
    rewrite !Z.pow_add_r, Z.pow_1_r by lia.
    rewrite <- Zmult_mod, Zmult_mod_idemp_l. reflexivity.
  - rewrite IH, Pos2Z.inj_xO.
    replace (2 * Z.pos e) with (Z.pos e + Z.pos e) by lia.
    rewrite Z.pow_add_r by lia. rewrite <- Zmult_mod. reflexivity.
  - rewrite Z.pow_1_r. reflexivity.
Qed.

Lemma powmod_spec a e n : 0 <= e -> powmod a e n = a ^ e mod n.
Proof.
  intros He. destruct e as [|p|p]; cbn [powmod]; [reflexivity| |lia].
  apply powmod_pos_spec.
Qed.

Lemma pow_mod_one_mul r a k n :
  0 <= k -> 0 <= n -> a ^ n mod r = 1 -> a ^ (n * k) mod r = 1 mod r.
Proof.
  intros Hk Hn H. rewrite Z.pow_mul_r by lia.
  rewrite <- Z.mod_pow_l, H. rewrite Z.pow_1_l by lia. reflexivity.
Qed.

Lemma pow_mod_gcd r a (Hr : 1 < r) : forall n, 0 <= n -> forall m, 0 <= m ->
  a ^ m mod r = 1 -> a ^ n mod r = 1 -> a ^ Z.gcd m n mod r = 1.
Proof.
  intros n Hn. pattern n. apply Z_lt_induction; [|exact Hn].
  clear n Hn. intros n IH m Hm H1 H2.
  destruct (Z.eq_dec n 0) as [->|Hnz].
  - rewrite Z.gcd_0_r, Z.abs_eq by lia. exact H1.
  - assert (Hn : 0 < n).
    { destruct (Z_lt_le_dec 0 n); [lia|].
      assert (n < 0) by lia. destruct n; try lia.
      rewrite Z.pow_neg_r in H2 by lia. rewrite Z.mod_0_l in H2 by lia. lia. }
    pose proof (Z.mod_pos_bound m n Hn) as Hb.
    rewrite Z.gcd_comm, <- Z.gcd_mod by lia. rewrite Z.gcd_comm.
    apply IH; [lia|lia|exact H2|].
    pose proof (Z.div_mod m n ltac:(lia)) as Hdm.
    assert (Hq : 0 <= m / n) by (apply Z.div_pos; lia).
    rewrite Hdm in H1. rewrite Z.pow_add_r in H1 by nia.
    rewrite Zmult_mod in H1.
    rewrite (pow_mod_one_mul r a (m / n) n) in H1 by (try lia; exact H2).
    rewrite Zmult_mod_idemp_l, Z.mul_1_l in H1.
    rewrite Z.mod_mod in H1 by lia. exact H1.
Qed.

Lemma divide_pow_or (p : Z) (Hp : Z.prime p) : forall (k : nat) (R g : Z),
  (g | p ^ Z.of_nat (S k) * R) ->
  (p ^ Z.of_nat (S k) | g) \/ (g | p ^ Z.of_nat k * R).
Proof.
  assert (base : forall g M, (g | p * M) -> (p | g) \/ (g | M)).
  { intros g M Hg. destruct (Z.BoolSpec_divide p g) as [Hd|Hnd]; [left; exact Hd|right].
    apply Z.coprime_prime_l in Hnd; [|exact Hp].
    apply Z.gauss with p; [exact Hg|]. rewrite Z.gcd_comm. exact Hnd. }
  induction k as [|k IH]; intros R g Hg.
  - change (Z.of_nat 1) with 1 in *. rewrite Z.pow_1_r in *.
    change (Z.of_nat 0) with 0. rewrite Z.pow_0_r, Z.mul_1_l.
    apply base. exact Hg.
  - rewrite (Nat2Z.inj_succ (S k)), Z.pow_succ_r in Hg by lia.
    replace (p * p ^ Z.of_nat (S k) * R) with (p ^ Z.of_nat (S k) * (p * R)) in Hg by ring.
    destruct (IH (p * R) g Hg) as [[c Hc]|H2].
    + subst g.
      assert (Hpk : p ^ Z.of_nat (S k) <> 0).
      { apply Z.pow_nonzero; [destruct Hp; lia|lia]. }
      rewrite (Z.mul_comm c) in Hg.
      apply Z.mul_divide_cancel_l in Hg; [|exact Hpk].
      destruct (base c R Hg) as [[c' Hc']|Hc'].
      * left. subst c. exists c'. rewrite (Nat2Z.inj_succ (S k)), Z.pow_succ_r by lia. ring.
      * right. rewrite (Z.mul_comm c). apply Z.mul_divide_mono_l. exact Hc'.
    + right. replace (p ^ Z.of_nat k * (p * R)) with (p ^ Z.of_nat (S k) * R) in H2; [exact H2|].
      rewrite (Nat2Z.inj_succ k), Z.pow_succ_r by lia. ring.
Qed.

Lemma prime_divisor n : 1 < n ->
  exists r, Z.prime r /\ (r | n) /\ (~ Z.prime n -> r * r <= n).
Proof.
  intros Hn. assert (H0 : 0 <= n) by lia. revert Hn. pattern n.
  apply Z_lt_induction; [|exact H0]. clear n H0. intros n IH Hn.
  destruct (prime_dec n) as [Hp|Hnp].
  - exists n. split; [apply prime_alt; exact Hp|]. split; [apply Z.divide_refl|].
    intros Hc. exfalso. apply Hc. apply prime_alt. exact Hp.
  - destruct (not_prime_divide n Hn Hnp) as (m & Hm & [k Hk]).
    assert (Hk1 : 1 < k < n) by nia.
    destruct (Z_le_gt_dec m k) as [Hle|Hgt].
    + destruct (IH m ltac:(lia) ltac:(lia)) as (r & Hr & Hrm & _).
      exists r. split; [exact Hr|]. split.
      * apply Z.divide_trans with m; [exact Hrm|]. exists k. exact Hk.
      * intros _. assert (r <= m) by (apply Z.divide_pos_le; [lia|exact Hrm]).
        destruct Hr as [Hr1 _]. nia.
    + destruct (IH k ltac:(lia) ltac:(lia)) as (r & Hr & Hrk & _).
      exists r. split; [exact Hr|]. split.
      * apply Z.divide_trans with k; [exact Hrk|]. exists m. lia.
      * intros _. assert (r <= k) by (apply Z.divide_pos_le; [lia|exact Hrk]).
        destruct Hr as [Hr1 _]. nia.
Qed.

Lemma pock_item_divides n r p e a :
  1 < n -> Z.prime r -> (r | n) -> Z.prime p ->
  pock_item_ok n (p, e, a) = true -> (p ^ e | r - 1).
Proof.
  intros Hn Hr Hrn Hp Hok. unfold pock_item_ok in Hok. cbv zeta in Hok.
  apply andb_prop in Hok as [Hok H4]. apply andb_prop in Hok as [Hok H3].
  apply andb_prop in Hok as [H1 H2].
  apply Z.ltb_lt in H1. apply Z.eqb_eq in H2, H3, H4.
  pose proof (Z.prime_ge_2 _ Hr) as Hr2. pose proof (Z.prime_ge_2 _ Hp) as Hp2.
  assert (Hpe : 0 < p ^ e) by (apply Z.pow_pos_nonneg; lia).
  assert (Hdiv : 0 <= (n - 1) / p) by (apply Z.div_pos; lia).
  assert (Hpn : (p | n - 1)).
  { apply Z.mod_divide in H2; [|lia]. apply Z.divide_trans with (p ^ e); [|exact H2].
    apply Z.divide_pow_same_r. lia. }
  rewrite (powmod_spec a) in H3, H4 by lia. rewrite powmod_spec in H3 by lia.
  rewrite Z.mod_pow_l, <- Z.pow_mul_r in H3 by lia.
  replace ((n - 1) / p * p) with (n - 1) in H3
    by (destruct Hpn as [c Hc]; rewrite Hc, Z.div_mul by lia; reflexivity).
  assert (Hmodr : forall x, x mod r = (x mod n) mod r).
  { intros x. symmetry; apply Z.mod_mod_divide; exact Hrn. }
  assert (E1 : a ^ (n - 1) mod r = 1).
  { rewrite Hmodr, H3. apply Z.mod_small. lia. }
  assert (Ha : a mod r <> 0).
  { intros Ha. rewrite <- Z.mod_pow_l, Ha in E1.
    rewrite Z.pow_0_l in E1 by lia. rewrite Z.mod_0_l in E1 by lia. lia. }
  pose proof (Z.fermat_nz r a Hr Ha) as E2.
  pose proof (pow_mod_gcd r a ltac:(lia) (r - 1) ltac:(lia) (n - 1) ltac:(lia) E1 E2) as E3.
  set (g := Z.gcd (n - 1) (r - 1)) in *.
  assert (Hg1 : (g | n - 1)) by apply Z.gcd_divide_l.
  assert (Hg2 : (g | r - 1)) by apply Z.gcd_divide_r.
  assert (Hg0 : 0 < g).
  { pose proof (Z.gcd_nonneg (n - 1) (r - 1)). fold g in H.
    destruct (Z.eq_dec g 0) as [E|E]; [|lia].
    rewrite E in Hg1. apply Z.divide_0_l in Hg1. lia. }
  apply Z.mod_divide in H2; [|lia]. destruct H2 as [R HR].
  set (k := Z.to_nat (e - 1)).
  assert (He : e = Z.of_nat (S k)) by (unfold k; lia).
  assert (Hpk : p ^ e = p * p ^ Z.of_nat k).
  { rewrite He, Nat2Z.inj_succ, Z.pow_succ_r by lia. reflexivity. }
  assert (Hq : (n - 1) / p = p ^ Z.of_nat k * R).
  { rewrite HR, Hpk. replace (R * (p * p ^ Z.of_nat k)) with (p ^ Z.of_nat k * R * p) by ring.
    apply Z.div_mul. lia. }
  destruct (divide_pow_or p Hp k R g) as [Hc|Hc].
  - rewrite <- He, Z.mul_comm, <- HR. exact Hg1.
  - rewrite <- He in Hc. apply Z.divide_trans with g; assumption.
  - exfalso. rewrite <- Hq in Hc. destruct Hc as [c Hc].
    assert (Hc0 : 0 <= c).
    { destruct (Z_lt_le_dec c 0) as [Hneg|Hpos]; [exfalso|exact Hpos].
      assert (0 <= (n - 1) / p) by (apply Z.div_pos; lia).
      pose proof (Z.mul_neg_pos c g Hneg Hg0). lia. }
    assert (E4 : a ^ ((n - 1) / p) mod r = 1).
    { rewrite Hc, Z.mul_comm. rewrite (pow_mod_one_mul r a c g) by (try lia; exact E3).
      apply Z.mod_small. lia. }
    assert (Hd : (r | a ^ ((n - 1) / p) mod n - 1)).
    { apply Z.mod_divide; [lia|]. rewrite <- Zminus_mod_idemp_l, <- Hmodr, E4.
      reflexivity. }
    assert (Hd1 : (r | 1)).
    { rewrite <- H4. apply Z.gcd_greatest; assumption. }
    apply Z.divide_1_r_nonneg in Hd1; lia.
Qed.

Lemma pock_F_divides n r cert :
  1 < n -> Z.prime r -> (r | n) ->
  Forall (fun it => Z.prime (fst (fst it))) cert ->
  forallb (pock_item_ok n) cert = true -> (pock_F cert | r - 1).
Proof.
  intros Hn Hr Hrn. induction cert as [|[[p e] a] cert IH]; intros Hps Hok.
  - cbn. apply Z.divide_1_l.
  - cbn [pock_F fold_right]. cbn [forallb] in Hok.
    apply andb_prop in Hok as [Hit Hok]. inversion Hps as [|? ? Hp Hps']; subst.
    apply Z.lcm_least.
    + apply (pock_item_divides n r p e a); assumption.
    + apply IH; assumption.
Qed.

Theorem pock_sound n cert :
  Forall (fun it => Z.prime (fst (fst it))) cert ->
  pock_check n cert = true -> Z.prime n.
Proof.
  intros Hps H. unfold pock_check in H.
  apply andb_prop in H as [H H3]. apply andb_prop in H as [H1 H2].
  apply Z.ltb_lt in H1, H3.
  destruct (prime_dec n) as [Hp|Hnp]; [apply prime_alt; exact Hp|exfalso].
  destruct (prime_divisor n H1) as (r & Hr & Hrn & Hsq).
  pose proof (pock_F_divides n r cert H1 Hr Hrn Hps H2) as HF.
  pose proof (Z.prime_ge_2 _ Hr) as Hr2.
  assert (HF0 : 0 <= pock_F cert).
  { destruct cert as [|[[p e] a] cert]; cbn; [lia|apply Z.lcm_nonneg]. }
  assert (HFle : pock_F cert <= r - 1) by (apply Z.divide_pos_le; [lia|exact HF]).
  assert (r * r <= n).
  { apply Hsq. intros Hc. apply Hnp. apply prime_alt. exact Hc. }
  nia.
Qed.

Ltac prime_by_trial b :=
  apply (trial_prime_sound _ b); vm_compute; reflexivity.

Ltac prime_by_cert c :=
  apply (pock_sound _ c);
  [ repeat apply List.Forall_cons; try apply List.Forall_nil; cbn [fst] | vm_compute; reflexivity ].

Lemma prime_229 : Z.prime 229.  Proof. prime_by_trial 15%nat. Qed.
Lemma prime_661 : Z.prime 661.  Proof. prime_by_trial 25%nat. Qed.
Lemma prime_853 : Z.prime 853.  Proof. prime_by_trial 29%nat. Qed.
Lemma prime_93001 : Z.prime 93001.  Proof. prime_by_trial 304%nat. Qed.

Lemma prime_639533339 : Z.prime 639533339.
Proof. prime_by_cert [(229, 1, 2); (853, 1, 2)]; [exact prime_229|exact prime_853]. Qed.

Lemma prime_65865678001877903 : Z.prime 65865678001877903.
Proof. prime_by_cert [(639533339, 1, 2)]. exact prime_639533339. Qed.

Lemma prime_13818364434197438864469338081 : Z.prime 13818364434197438864469338081.
Proof. prime_by_cert [(65865678001877903, 1, 2)]. exact prime_65865678001877903. Qed.

Lemma prime_12048837557 : Z.prime 12048837557.
Proof. prime_by_cert [(661, 1, 2); (93001, 1, 2)]; [exact prime_661|exact prime_93001]. Qed.

Lemma prime_5156902474397 : Z.prime 5156902474397.
Proof. prime_by_cert [(12048837557, 1, 2)]. exact prime_12048837557. Qed.

Lemma prime_1670836401704629 : Z.prime 1670836401704629.
Proof. prime_by_cert [(5156902474397, 1, 2)]. exact prime_5156902474397. Qed.

Lemma q_prime : Z.prime q.
Proof.
  prime_by_cert [(13818364434197438864469338081, 1, 2); (1670836401704629, 1, 2)].
  - exact prime_13818364434197438864469338081.
  - exact prime_1670836401704629.
Qed.

End CertificateProofs.

(** ** Field facts *)

Lemma Element_ring : ring_theory Zero One Add Mul Sub (Zmod.opp (m:=q)) eq.
Proof. exact (Zmod.ring_theory q). Qed.

Add Ring ElementRing : Element_ring.

Lemma Mul_comm (x y : Element) : Mul x y = Mul y x.
Proof. ring. Qed.

Lemma Mul_assoc (x y z : Element) : Mul x (Mul y z) = Mul (Mul x y) z.
Proof. ring. Qed.

Lemma Mul_One_l (x : Element) : Mul One x = x.
Proof. ring. Qed.

Lemma Mul_One_r (x : Element) : Mul x One = x.
Proof. ring. Qed.

Lemma NewElement_1 : NewElement 1 = One.
Proof. reflexivity. Qed.

Lemma NewElement_0 : NewElement 0 = Zero.
Proof. reflexivity. Qed.

Lemma Equal_eq (x y : Element) : Equal x y = true ↔ x = y.
Proof. apply Zmod.eqb_eq. Qed.

Lemma Equal_refl (x : Element) : Equal x x = true.
Proof. apply Zmod.eqb_refl. Qed.

Lemma Mul_eq_Zero (x y : Element) : Mul x y = Zero → x = Zero ∨ y = Zero.
Proof. intros H. apply (Zmod.mul_0_iff_prime q_prime). exact H. Qed.

Lemma Mul_cancel_r (a b c : Element) : a ≠ Zero → Mul b a = Mul c a → b = c.
Proof. intros Ha H. exact (Zmod.mul_cancel_r_prime a b c q_prime Ha H). Qed.

Lemma fold_left_Mul (l : list Element) (a : Element) :
  fold_left Mul l a = Mul a (fprod l).
Proof.
  revert a. induction l as [|x l IH]; intros a; cbn [fold_left fprod foldr].
  - ring.
  - rewrite IH. fold (fprod l). ring.
Qed.

Lemma fprod_app (l k : list Element) : fprod (l ++ k) = Mul (fprod l) (fprod k).
Proof.
  induction l as [|x l IH]; cbn [app fprod foldr].
  - fold (fprod k). ring.
  - fold (fprod (l ++ k)) (fprod l). rewrite IH. ring.
Qed.

Lemma fprod_Permutation (l k : list Element) : l ≡ₚ k → fprod l = fprod k.
Proof.
  induction 1 as [|x l k _ IH|x y l|l k m _ IH1 _ IH2]; cbn [fprod foldr].
  - reflexivity.
  - fold (fprod l) (fprod k). rewrite IH. reflexivity.
  - fold (fprod l). ring.
  - congruence.
Qed.

Lemma fprod_concat (ls : list (list Element)) :
  fprod (concat ls) = fprod (map fprod ls).
Proof.
  induction ls as [|l ls IH]; [reflexivity|].
  cbn [concat map]. rewrite fprod_app, IH. reflexivity.
Qed.

Lemma maskOf_fprod (dummies : list Element) : maskOf dummies = fprod dummies.
Proof. unfold maskOf. rewrite fold_left_Mul. ring. Qed.

Lemma prodFromClients_fprod (pp : list Element) : prodFromClients pp = fprod pp.
Proof. unfold prodFromClients. rewrite fold_left_Mul, NewElement_1. ring. Qed.

Lemma fold_left_PolyEval (rest : list Element) (r a : Element) :
  fold_left (λ prod tmp, Mul prod (Add tmp r)) rest a = Mul a (Fingerprint rest r).
Proof.
  revert a. induction rest as [|x l IH]; intros a; cbn [fold_left].
  - unfold Fingerprint. cbn. ring.
  - rewrite IH. unfold Fingerprint. cbn [map fprod foldr].
    fold (fprod (map (λ v, Add v r) l)). ring.
Qed.

Lemma PolyEval_cons (v : Element) (rest : list Element) (r : Element) :
  PolyEval (v :: rest) r = Some (Fingerprint (v :: rest) r).
Proof.
  cbn [PolyEval]. rewrite fold_left_PolyEval. reflexivity.
Qed.

Lemma PolyEval_nonempty (vec : list Element) (r : Element) :
  vec ≠ [] → PolyEval vec r = Some (Fingerprint vec r).
Proof. destruct vec; [congruence|intros _; apply PolyEval_cons]. Qed.

Lemma Fingerprint_Permutation (A B : list Element) (r : Element) :
  A ≡ₚ B → Fingerprint A r = Fingerprint B r.
Proof.
  intros H. unfold Fingerprint. apply fprod_Permutation.
  apply Permutation_map. exact H.
Qed.

Lemma Fingerprint_app (A B : list Element) (r : Element) :
  Fingerprint (A ++ B) r = Mul (Fingerprint A r) (Fingerprint B r).
Proof. unfold Fingerprint. rewrite map_app. apply fprod_app. Qed.

Lemma Fingerprint_concat (ls : list (list Element)) (r : Element) :
  Fingerprint (concat ls) r = fprod (map (λ l, Fingerprint l r) ls).
Proof.
  induction ls as [|l ls IH]; [reflexivity|].
  cbn [concat map fprod foldr]. rewrite Fingerprint_app, IH. reflexivity.
Qed.

(** ** Slices and [rand.Shuffle] *)

Lemma slice_set_Some {A} (l : list A) (i : nat) (x : A) :
  i < length l → slice_set l i x = Some (<[i:=x]> l).
Proof. intros H. unfold slice_set. rewrite decide_True by exact H. reflexivity. Qed.

Lemma slice_set_inv {A} (l l' : list A) (i : nat) (x : A) :
  slice_set l i x = Some l' → i < length l ∧ l' = <[i:=x]> l.
Proof.
  unfold slice_set. destruct (decide (i < length l)); [|discriminate].
  intros [= <-]. split; [assumption|reflexivity].
Qed.

Lemma insert_lookup_Permutation {A} (l : list A) (j : nat) (a y : A) :
  l !! j = Some y → y :: <[j:=a]> l ≡ₚ a :: l.
Proof.
  revert j. induction l as [|b l IH]; intros [|j] H; try discriminate.
  - cbn in H. injection H as ->. cbn. apply Permutation_swap.
  - cbn in H. cbn [insert list_insert].
    change (list_insert j a l) with (<[j:=a]> l).
    rewrite (Permutation_swap b y). rewrite (IH j H). apply Permutation_swap.
Qed.

Lemma swapElems_Some {A} (l : list A) (i j : nat) :
  i < length l → j < length l →
  ∃ l', swapElems i j l = Some l' ∧ l' ≡ₚ l ∧ length l' = length l.
Proof.
  intros Hi Hj.
  destruct (lookup_lt_is_Some_2 l i Hi) as [x Hx].
  destruct (lookup_lt_is_Some_2 l j Hj) as [y Hy].
  unfold swapElems. rewrite Hx, Hy. cbn [mbind option_bind].
  rewrite slice_set_Some by exact Hi. cbn [mbind option_bind].
  rewrite slice_set_Some by (rewrite length_insert; exact Hj).
  eexists. split; [reflexivity|]. split; [|rewrite !length_insert; reflexivity].
  destruct (decide (i = j)) as [->|Hne].
  - rewrite list_insert_insert_eq. rewrite list_insert_id; [reflexivity|].
    congruence.
  - apply (Permutation_cons_inv (a := y)).
    rewrite (insert_lookup_Permutation (<[i:=y]> l) j x y)
      by (rewrite list_lookup_insert_ne by exact Hne; exact Hy).
    apply insert_lookup_Permutation. exact Hx.
Qed.

Lemma fold_left_bind_None {S B} (f : B → S → option S) (l : list B) :
  fold_left (λ acc i, acc ≫= f i) l None = None.
Proof. induction l as [|x l IH]; [reflexivity|exact IH]. Qed.

Lemma Shuffle_invariant {S} (I : S → Prop) (rnd : nat → nat) (n : nat)
    (swap : nat → nat → S → option S) :
  (∀ s i j, I s → i < n → j < n → ∃ s', swap i j s = Some s' ∧ I s') →
  ∀ s, I s → ∃ s', Shuffle rnd n swap s = Some s' ∧ I s'.
Proof.
  intros Hswap s Hs. unfold Shuffle.
  assert (Hall : Forall (λ i, i < n) (rev (seq 1 (n - 1)))).
  { apply Forall_forall. intros i Hi. apply list_elem_of_In, in_rev, in_seq in Hi. lia. }
  revert s Hs. induction Hall as [|i rest Hi _ IH]; intros s Hs.
  - exists s. split; [reflexivity|exact Hs].
  - cbn [fold_left mbind option_bind].
    assert (Hj : rnd i mod (i + 1) < n).
    { pose proof (Nat.mod_upper_bound (rnd i) (i + 1)). lia. }
    destruct (Hswap s i _ Hs Hi Hj) as (s' & -> & Hs').
    apply IH. exact Hs'.
Qed.

Lemma Shuffle_Permutation {A} (rnd : nat → nat) (l : list A) :
  ∃ l', Shuffle rnd (length l) swapElems l = Some l' ∧ l' ≡ₚ l.
Proof.
  destruct (Shuffle_invariant (λ l', l' ≡ₚ l ∧ length l' = length l)
              rnd (length l) swapElems) with (s := l) as (l' & H & Hp & _).
  - intros s i j [Hp Hl] Hi Hj.
    destruct (swapElems_Some s i j) as (s' & Hs' & Hp' & Hl'); [lia|lia|].
    exists s'. split; [exact Hs'|]. split; [etrans; eassumption|lia].
  - split; reflexivity.
  - exists l'. split; assumption.
Qed.

Lemma fprod_map_Mul {A} (f g : A → Element) (l : list A) :
  fprod (map (λ c, Mul (f c) (g c)) l) = Mul (fprod (map f l)) (fprod (map g l)).
Proof.
  induction l as [|c l IH]; cbn [map fprod foldr].
  - ring.
  - fold (fprod (map (λ c, Mul (f c) (g c)) l)) (fprod (map f l)) (fprod (map g l)).
    rewrite IH. ring.
Qed.

Lemma allProof_honest (clients : list SumCmp.Client) (r : Element) :
  Forall honest clients →
  mapM (λ c, SumCmp.publicProd (SumCmp.splittedSecretVal c) r (SumCmp.secretMask c))
       clients = Some (map (honestProd r) clients).
Proof.
  intros H. apply mapM_Some. induction H as [|c l [Hc1 Hc2] _ IH]; cbn [map].
  - constructor.
  - constructor; [|exact IH]. unfold SumCmp.publicProd.
    rewrite PolyEval_nonempty by exact Hc1. cbn [mbind option_bind].
    unfold honestProd. rewrite Hc2, maskOf_fprod. reflexivity.
Qed.

Lemma fprod_honestProd (clients : list SumCmp.Client) (r : Element) :
  fprod (map (honestProd r) clients) =
  Mul (Fingerprint (concat (map SumCmp.splittedSecretVal clients)) r)
      (fprod (concat (map SumCmp.splittedSecretMask clients))).
Proof.
  unfold honestProd. rewrite fprod_map_Mul, Fingerprint_concat, fprod_concat.
  rewrite !map_map. reflexivity.
Qed.

Lemma ConsistencyCheck_honest (clients : list SumCmp.Client)
    (vals dummies : list Element) (r : Element) :
  vals ≡ₚ concat (map SumCmp.splittedSecretVal clients) →
  dummies ≡ₚ concat (map SumCmp.splittedSecretMask clients) →
  vals ≠ [] →
  ConsistencyCheck vals dummies r (map (honestProd r) clients) = Some true.
Proof.
  intros Hv Hd Hne. unfold ConsistencyCheck, prodFromShuffler.
  rewrite PolyEval_nonempty by exact Hne. cbn [mbind option_bind].
  rewrite fold_left_Mul, prodFromClients_fprod, fprod_honestProd.
  rewrite (Fingerprint_Permutation _ _ r Hv), (fprod_Permutation _ _ Hd).
  rewrite Equal_refl. reflexivity.
Qed.

Lemma concat_nonempty {A} (ls : list (list A)) :
  ls ≠ [] → Forall (λ l, l ≠ []) ls → concat ls ≠ [].
Proof.
  destruct ls as [|l ls]; [congruence|]. intros _ H.
  inversion H as [|? ? Hl _]; subst. destruct l; [congruence|discriminate].
Qed.

Lemma Permutation_nonempty {A} (l k : list A) : l ≡ₚ k → k ≠ [] → l ≠ [].
Proof. intros H Hk ->. apply Hk. symmetry in H. apply Permutation_nil_r in H. exact H. Qed.

Lemma map_fmap {A B} (f : A → B) (l : list A) : map f l = f <$> l.
Proof. reflexivity. Qed.

Lemma for_range_0_S {St} (n : nat) (body : nat → St → option St) (s : St) :
  for_range 0 (S n) body s = for_range 0 n body s ≫= body n.
Proof.
  unfold for_range. rewrite !Nat.sub_0_r, seq_S, fold_left_app. reflexivity.
Qed.

Lemma mapM_id_imap {A B} (l : list A) : ∀ (f : nat → A → option B),
  (∀ i a, l !! i = Some a → is_Some (f i a)) →
  ∃ bs, mapM id (imap f l) = Some bs
        ∧ length bs = length l
        ∧ ∀ i a, l !! i = Some a → ∃ b, bs !! i = Some b ∧ f i a = Some b.
Proof.
  induction l as [|a l IH]; intros f Hf.
  - exists []. split_and!; [reflexivity|reflexivity|]. intros i a H. discriminate.
  - destruct (Hf 0 a eq_refl) as [b Hb].
    destruct (IH (f ∘ S)) as (bs & Hbs & Hlen & Hl).
    { intros i x Hx. apply (Hf (S i) x). exact Hx. }
    exists (b :: bs). split_and!.
    + apply mapM_Some. cbn [imap]. constructor; [exact Hb|].
      apply mapM_Some. exact Hbs.
    + cbn [length]. rewrite Hlen. reflexivity.
    + intros [|i] x Hx.
      * injection Hx as <-. exists b. split; [reflexivity|exact Hb].
      * apply (Hl i x Hx).
Qed.

Section SumRound.

Context {Proof : Type}.
Variable goMimc : list Element → Element.
Variable Prove : SumCmp.sumAndCmpCircuit.t → option Proof.
Variable Verify : Proof → list Element → bool.

(** The submission of a client that can answer the challenge. *)
Lemma clientSubmission_honest (T : Z) (r : Element) (salt : nat → Element)
    (i : nat) (c : SumCmp.Client) :
  honest c →
  ∃ s, SumCmp.clientSubmission goMimc Prove T r salt i c = Some s
       ∧ SumCmp.ClientSubmissionToServer.publicProd s = honestProd r c
       ∧ SumCmp.ClientSubmissionToServer.proof s
         = Prove (SumCmp.assignment T (SumCmp.splittedSecretVal c) r
                    (honestProd r c) (SumCmp.secretMask c)
                    (SumCmp.commitment goMimc (SumCmp.splittedSecretVal c)
                                       (SumCmp.secretMask c) (salt i))
                    (salt i)).
Proof using Type.
  intros [Hc1 Hc2].
  unfold SumCmp.clientSubmission, SumCmp.GenProofGroth16, SumCmp.publicProd.
  rewrite PolyEval_nonempty by exact Hc1. cbn [mbind option_bind].
  eexists. split; [reflexivity|].
  cbn [SumCmp.ClientSubmissionToServer.publicProd
       SumCmp.ClientSubmissionToServer.proof].
  unfold honestProd. rewrite Hc2, maskOf_fprod. split; reflexivity.
Qed.

Lemma submissions_honest (T : Z) (r : Element) (salt : nat → Element)
    (clients : list SumCmp.Client) :
  Forall honest clients →
  ∃ subs,
    mapM id (imap (SumCmp.clientSubmission goMimc Prove T r salt) clients) = Some subs
    ∧ length subs = length clients
    ∧ map SumCmp.ClientSubmissionToServer.publicProd subs = map (honestProd r) clients
    ∧ ∀ i c, clients !! i = Some c →
        ∃ s, subs !! i = Some s
             ∧ SumCmp.clientSubmission goMimc Prove T r salt i c = Some s.
Proof using Type.
  intros Hh.
  destruct (mapM_id_imap clients (SumCmp.clientSubmission goMimc Prove T r salt))
    as (subs & Hs & Hlen & Hl).
  { intros i c Hc.
    destruct (clientSubmission_honest T r salt i c) as (s & -> & _); [|eexists; reflexivity].
    apply (proj1 (Forall_lookup _ _) Hh i c Hc). }
  exists subs. split_and!; [exact Hs|exact Hlen| |exact Hl].
  apply list_eq. intros i. rewrite !map_fmap, !list_lookup_fmap.
  destruct (clients !! i) as [c|] eqn:Ec.
  - destruct (Hl i c Ec) as (s & -> & Hsub).
    destruct (clientSubmission_honest T r salt i c) as (s' & Hs' & Hp & _).
    { apply (proj1 (Forall_lookup _ _) Hh i c Ec). }
    rewrite Hs' in Hsub. injection Hsub as ->.
    cbn [fmap option_fmap option_map]. rewrite Hp. reflexivity.
  - apply lookup_ge_None in Ec. rewrite <- Hlen in Ec.
    apply lookup_ge_None in Ec. rewrite Ec. reflexivity.
Qed.

(** The verification loop ends exactly when no proof is nil. *)
Lemma verify_loop (subs : list (SumCmp.ClientSubmissionToServer.t Proof)) (n : nat) :
  (∃ errs, for_range 0 n (SumCmp.verifyBody Verify subs) [] = Some errs)
  ↔ (∀ i, i < n → ∃ s p, subs !! i = Some s
                         ∧ SumCmp.ClientSubmissionToServer.proof s = Some p).
Proof using Type.
  induction n as [|n IH].
  - split; [intros _ i Hi; lia|]. intros _. exists []. reflexivity.
  - rewrite for_range_0_S. split.
    + intros (errs & H).
      destruct (for_range 0 n (SumCmp.verifyBody Verify subs) []) as [errs'|] eqn:E;
        [|discriminate].
      cbn [mbind option_bind] in H. unfold SumCmp.verifyBody in H.
      destruct (subs !! n) as [s|] eqn:Es; [|discriminate].
      cbn [mbind option_bind] in H.
      destruct (SumCmp.ClientSubmissionToServer.proof s) as [p|] eqn:Ep; [|discriminate].
      intros i Hi. destruct (decide (i = n)) as [->|Hne].
      * exists s, p. split; assumption.
      * apply (proj1 IH); [eexists; reflexivity|lia].
    + intros H. destruct (proj2 IH) as (errs & ->); [intros i Hi; apply H; lia|].
      destruct (H n ltac:(lia)) as (s & p & Hs & Hp).
      cbn [mbind option_bind]. unfold SumCmp.verifyBody.
      rewrite Hs. cbn [mbind option_bind]. rewrite Hp. cbn [mbind option_bind].
      eexists. reflexivity.
Qed.

(** The round of the server on clients that can answer the challenge: it
    ends exactly when every client has obtained a proof, and then finds the
    two sets the same. *)
Lemma serverRound_honest (T : Z) (clients : list SumCmp.Client)
    (salt : nat → Element) (rndVal rndMask : nat → nat) (publicRFr : Element) :
  clients ≠ [] → Forall honest clients →
  ((∀ i c, clients !! i = Some c → proved goMimc Prove T publicRFr salt i c) →
   ∃ errs vals,
     vals ≡ₚ concat (map SumCmp.splittedSecretVal clients)
     ∧ SumCmp.serverRound goMimc Prove Verify T clients salt rndVal rndMask publicRFr
       = Some {| SumCmp.verificationErrors := errs; SumCmp.setsEqual := true;
                 SumCmp.sum := SumCmp.computedSum vals |})
  ∧ (∀ res,
       SumCmp.serverRound goMimc Prove Verify T clients salt rndVal rndMask publicRFr
       = Some res →
       SumCmp.setsEqual res = true
       ∧ ∀ i c, clients !! i = Some c → proved goMimc Prove T publicRFr salt i c).
Proof using Type.
  intros Hne Hh. unfold SumCmp.serverRound.
  destruct (Shuffle_Permutation rndVal (concat (map SumCmp.splittedSecretVal clients)))
    as (vals & -> & Hv).
  destruct (Shuffle_Permutation rndMask (concat (map SumCmp.splittedSecretMask clients)))
    as (dummies & -> & Hd).
  cbn [mbind option_bind].
  destruct (submissions_honest T publicRFr salt clients Hh)
    as (subs & -> & Hlen & Hpp & Hl).
  cbn [mbind option_bind]. rewrite Hpp.
  rewrite (ConsistencyCheck_honest clients); [| exact Hv | exact Hd |].
  2:{ apply (Permutation_nonempty _ _ Hv). apply concat_nonempty;
        [destruct clients; [congruence|discriminate]|].
      apply Forall_fmap. eapply Forall_impl; [exact Hh|]. intros x [Hx _]. exact Hx. }
  assert (Hiff : (∀ i c, clients !! i = Some c
                         → proved goMimc Prove T publicRFr salt i c)
                 ↔ (∀ i, i < length clients →
                      ∃ s p, subs !! i = Some s
                             ∧ SumCmp.ClientSubmissionToServer.proof s = Some p)).
  { split.
    - intros H i Hi. destruct (lookup_lt_is_Some_2 clients i Hi) as [c Hc].
      destruct (H i c Hc) as (s & p & Hs & Hp).
      destruct (Hl i c Hc) as (s' & Hs' & Hsub). rewrite Hs in Hsub.
      injection Hsub as <-. exists s, p. split; assumption.
    - intros H i c Hc.
      destruct (H i) as (s & p & Hs & Hp); [apply lookup_lt_is_Some; eexists; exact Hc|].
      destruct (Hl i c Hc) as (s' & Hs' & Hsub). rewrite Hs in Hs'.
      injection Hs' as <-. exists s, p. split; assumption. }
  split.
  - intros Hall'. pose proof (proj1 Hiff Hall') as Hall.
    destruct (Hall 0) as (s0 & p0 & Hs0 & Hp0);
      [destruct clients; [congruence|cbn [length]; lia]|].
    rewrite Hs0. cbn [mbind option_bind]. rewrite Hp0. cbn [mbind option_bind].
    destruct (proj2 (verify_loop subs (length clients)) Hall) as (errs & ->).
    cbn [mbind option_bind]. exists errs, vals. split; [exact Hv|reflexivity].
  - intros res Hres.
    destruct (subs !! 0) as [s0|]; [|discriminate]. cbn [mbind option_bind] in Hres.
    destruct (SumCmp.ClientSubmissionToServer.proof s0); [|discriminate].
    cbn [mbind option_bind] in Hres.
    destruct (for_range 0 (length clients) (SumCmp.verifyBody Verify subs) [])
      as [errs|] eqn:E; [|discriminate].
    cbn [mbind option_bind] in Hres. injection Hres as <-.
    split; [reflexivity|]. apply (proj2 Hiff).
    apply (proj1 (verify_loop subs (length clients))).
    eexists. exact E.
Qed.

End SumRound.

Lemma fold_seq_invariant {St} (I : nat → St → Prop)
    (body : nat → St → option St) (n : nat) : ∀ (lo : nat) (s : St),
  I lo s →
  (∀ i s, lo ≤ i < lo + n → I i s → ∃ s', body i s = Some s' ∧ I (S i) s') →
  ∃ s', fold_left (λ acc i, acc ≫= body i) (seq lo n) (Some s) = Some s'
        ∧ I (lo + n) s'.
Proof.
  induction n as [|n IH]; intros lo s Hs Hstep.
  - exists s. rewrite Nat.add_0_r. split; [reflexivity|exact Hs].
  - cbn [seq fold_left mbind option_bind].
    destruct (Hstep lo s ltac:(lia) Hs) as (s' & -> & Hs').
    destruct (IH (S lo) s' Hs') as (s'' & H1 & H2).
    + intros i t Hi. apply Hstep. lia.
    + exists s''. split; [exact H1|].
      replace (lo + S n) with (S lo + n) by lia. exact H2.
Qed.

Lemma for_range_invariant {St} (I : nat → St → Prop) (lo hi : nat)
    (body : nat → St → option St) (s : St) :
  lo ≤ hi → I lo s →
  (∀ i s, lo ≤ i < hi → I i s → ∃ s', body i s = Some s' ∧ I (S i) s') →
  ∃ s', for_range lo hi body s = Some s' ∧ I hi s'.
Proof.
  intros Hle Hs Hstep. unfold for_range.
  destruct (fold_seq_invariant I body (hi - lo) lo s Hs) as (s' & H1 & H2).
  - intros i t Hi. apply Hstep. lia.
  - exists s'. split; [exact H1|]. replace hi with (lo + (hi - lo)) by lia. exact H2.
Qed.

Lemma fold_left_Add (l : list Element) (a : Element) :
  fold_left Add l a = Add a (fsum l).
Proof.
  revert a. induction l as [|x l IH]; intros a; cbn [fold_left fsum foldr].
  - ring.
  - rewrite IH. fold (fsum l). ring.
Qed.

Lemma fsum_app (l k : list Element) : fsum (l ++ k) = Add (fsum l) (fsum k).
Proof.
  induction l as [|x l IH]; cbn [app fsum foldr].
  - fold (fsum k). ring.
  - fold (fsum (l ++ k)) (fsum l). rewrite IH. ring.
Qed.

Lemma fsum_Permutation (l k : list Element) : l ≡ₚ k → fsum l = fsum k.
Proof.
  induction 1 as [|x l k _ IH|x y l|l k m _ IH1 _ IH2]; cbn [fsum foldr].
  - reflexivity.
  - fold (fsum l) (fsum k). rewrite IH. reflexivity.
  - fold (fsum l). ring.
  - congruence.
Qed.

Lemma split_closed_form (k : nat) (secretVal : Z) (rnd : nat → Element) :
  1 ≤ k → SumCmp.split k secretVal rnd = Some (sharesOf secretVal rnd (k - 1)).
Proof.
  intros Hk. unfold SumCmp.split.
  rewrite slice_set_Some by (rewrite length_replicate; lia).
  cbn [mbind option_bind]. rewrite length_insert, length_replicate.
  destruct (for_range_invariant
    (λ j v, v = sharesOf secretVal rnd (j - 1) ++ replicate (k - j) Zero)
    1 k (SumCmp.splitStep rnd) (<[0:=NewElement secretVal]> (replicate k Zero)))
    as (v & -> & Hv).
  - exact Hk.
  - destruct k as [|k]; [lia|]. cbn. rewrite Nat.sub_0_r.
    f_equal. ring.
  - intros j v Hj ->. unfold SumCmp.splitStep.
    destruct j as [|j]; [lia|]. cbn [Nat.sub]. rewrite Nat.sub_0_r.
    destruct (k - S j) as [|n] eqn:Hn; [lia|].
    assert (Hlen : length (map rnd (seq 1 j)) = j) by (rewrite length_map, length_seq; reflexivity).
    rewrite slice_set_Some
      by (unfold sharesOf; cbn [app length]; rewrite length_app, Hlen, length_replicate; lia).
    cbn [mbind option_bind]. unfold sharesOf at 1 2 3. cbn [app insert list_insert lookup list_lookup].
    change (list_insert j (rnd (S j)) ?l) with (<[j:=rnd (S j)]> l).
    rewrite (insert_app_r_alt (map rnd (seq 1 j)) (replicate (S n) Zero) j) by (rewrite Hlen; lia).
    rewrite Hlen, Nat.sub_diag.
    cbn [replicate insert list_insert].
    cbn [mbind option_bind].
    rewrite (lookup_app_r (map rnd (seq 1 j))) by (rewrite Hlen; lia). rewrite Hlen, Nat.sub_diag. cbn [lookup list_lookup].
    cbn [mbind option_bind]. unfold slice_set. cbn [length].
    rewrite decide_True by lia. cbn [insert list_insert].
    eexists. split; [reflexivity|].
    replace (k - S (S j)) with n by lia. unfold sharesOf.
    rewrite seq_S, map_app, fsum_app. cbn [map app fsum foldr Nat.add].
    rewrite <- app_assoc. cbn [app]. f_equal. ring.
  - rewrite Nat.sub_diag, app_nil_r in Hv. rewrite Hv. reflexivity.
Qed.

Lemma to_Z_NewElement (v : Z) : Zmod.to_Z (NewElement v) = (v mod 2 ^ 64)%Z.
Proof.
  unfold NewElement. rewrite Zmod.to_Z_of_Z. apply Z.mod_small.
  pose proof (Z.mod_pos_bound v (2 ^ 64) ltac:(lia)). unfold q. lia.
Qed.

Lemma Uint64_NewElement (v : Z) : Uint64 (NewElement v) = (v mod 2 ^ 64)%Z.
Proof.
  unfold Uint64. rewrite to_Z_NewElement. apply Z.mod_mod. lia.
Qed.

Lemma sharesOf_length s rnd m : length (sharesOf s rnd m) = S m.
Proof. unfold sharesOf. cbn [length]. rewrite length_map, length_seq. reflexivity. Qed.

Lemma sharesOf_fsum s rnd m : fsum (sharesOf s rnd m) = NewElement s.
Proof. unfold sharesOf. cbn [fsum foldr]. fold (fsum (map rnd (seq 1 m))). ring. Qed.

Lemma circuitSum_fsum (v : list Element) :
  v ≠ [] → SumCmp.circuitSum v = Some (fsum v).
Proof.
  destruct v as [|x v]; [congruence|intros _]. cbn [SumCmp.circuitSum].
  rewrite fold_left_Add. reflexivity.
Qed.

Lemma slice_set_next {A} (W : list A) (m : nat) (d x : A) :
  0 < m →
  slice_set (W ++ replicate m d) (length W) x = Some ((W ++ [x]) ++ replicate (m - 1) d).
Proof.
  intros Hm. rewrite slice_set_Some by (rewrite length_app, length_replicate; lia).
  f_equal. destruct m as [|m]; [lia|]. cbn [replicate].
  rewrite insert_app_r_alt by lia. rewrite Nat.sub_diag. cbn [insert list_insert].
  rewrite <- app_assoc. cbn. rewrite Nat.sub_0_r. reflexivity.
Qed.

Lemma written_push (W : list (Element * Element)) (n : nat) (x y : Element)
    (first second : list Element) (cp : nat) :
  written W n = (first, second, cp) → length W < n →
  slice_set first cp x = Some (written (W ++ [(x, y)]) n).1.1 ∧
  slice_set second cp y = Some (written (W ++ [(x, y)]) n).1.2 ∧
  cp + 1 = (written (W ++ [(x, y)]) n).2.
Proof.
  unfold written. intros [= <- <- <-] Hlt. cbn [fst snd].
  rewrite length_app. cbn [length].
  replace (n - (length W + 1)) with (n - length W - 1) by lia.
  rewrite !map_app. cbn [map fst snd].
  split; [|split; [|reflexivity]].
  - rewrite <- (length_map fst W) at 2. apply slice_set_next. lia.
  - rewrite <- (length_map snd W) at 2. apply slice_set_next. lia.
Qed.

Lemma rowOf_lookup {A} (sorted : list A) (i j : nat) (x y : A) :
  sorted !! i = Some x → sorted !! (i + j + 1) = Some y →
  rowOf sorted i !! j = Some (x, y).
Proof.
  intros Hx Hy. unfold rowOf. rewrite Hx.
  rewrite map_fmap, list_lookup_fmap, lookup_drop.
  replace (S i + j) with (i + j + 1) by lia. rewrite Hy. reflexivity.
Qed.

Lemma rowOf_length {A} (sorted : list A) (i : nat) :
  i < length sorted → length (rowOf sorted i) = length sorted - i - 1.
Proof.
  intros Hi. unfold rowOf.
  destruct (lookup_lt_is_Some_2 sorted i Hi) as [x ->].
  rewrite length_map, length_drop. lia.
Qed.

Lemma pairBody_written (sorted : list Element) (i j : nat) (x y : Element)
    (W : list (Element * Element)) (n : nat) :
  sorted !! i = Some x → sorted !! (i + j + 1) = Some y → length W < n →
  Vote.pairBody sorted i j (written W n) = Some (written (W ++ [(x, y)]) n).
Proof.
  intros Hx Hy Hlt.
  destruct (written W n) as [[first second] cp] eqn:E.
  destruct (written_push W n x y first second cp E Hlt) as (H1 & H2 & H3).
  unfold Vote.pairBody. rewrite Hx, Hy. cbn [mbind option_bind].
  rewrite H1. cbn [mbind option_bind]. rewrite H2. cbn [mbind option_bind].
  rewrite H3. destruct (written (W ++ [(x, y)]) n) as [[a b] c]. reflexivity.
Qed.

Lemma row_written (sorted : list Element) (i : nat) (W : list (Element * Element)) (n : nat) :
  i < length sorted → length W + length (rowOf sorted i) ≤ n →
  for_range 0 (length sorted - i - 1) (Vote.pairBody sorted i) (written W n)
  = Some (written (W ++ rowOf sorted i) n).
Proof.
  intros Hi Hn. pose proof (rowOf_length sorted i Hi) as Hlen.
  destruct (for_range_invariant
    (λ j st, st = written (W ++ take j (rowOf sorted i)) n)
    0 (length sorted - i - 1) (Vote.pairBody sorted i) (written W n))
    as (st & -> & Hst).
  - lia.
  - cbn [take]. rewrite app_nil_r. reflexivity.
  - intros j st Hj ->.
    destruct (lookup_lt_is_Some_2 sorted i Hi) as [x Hx].
    destruct (lookup_lt_is_Some_2 sorted (i + j + 1) ltac:(lia)) as [y Hy].
    exists (written ((W ++ take j (rowOf sorted i)) ++ [(x, y)]) n).
    split.
    + apply pairBody_written; [exact Hx|exact Hy|].
      rewrite length_app, length_take. lia.
    + rewrite <- app_assoc.
      rewrite (take_S_r _ _ _ (rowOf_lookup sorted i j x y Hx Hy)). reflexivity.
  - rewrite Hst. rewrite take_ge by lia. reflexivity.
Qed.

Lemma base_closed (C i : nat) : i ≤ C → 2 * base C i = i * (2 * C - i - 1).
Proof.
  induction i as [|i IH]; intros Hi; cbn [base]; [lia|].
  specialize (IH ltac:(lia)).
  assert (Hd : ∃ d, C = S i + d) by (exists (C - S i); lia).
  destruct Hd as [d ->].
  replace (S i + d - i - 1) with d by lia.
  replace (2 * (S i + d) - S i - 1) with (i + 2 * d) by lia.
  replace (2 * (S i + d) - i - 1) with (S i + 2 * d) in IH by lia.
  rewrite Nat.mul_add_distr_l, IH. nia.
Qed.

Lemma base_total (C : nat) : base C C = C * (C - 1) / 2.
Proof.
  pose proof (base_closed C C ltac:(lia)) as H.
  apply Nat.div_unique_exact; [lia|]. nia.
Qed.

Lemma base_mono (C i k : nat) : i ≤ k → base C i ≤ base C k.
Proof. induction 1 as [|k _ IH]; cbn [base]; lia. Qed.

Lemma rows_length {A} (sorted : list A) (i : nat) :
  i ≤ length sorted →
  length (flat_map (rowOf sorted) (seq 0 i)) = base (length sorted) i.
Proof.
  induction i as [|i IH]; intros Hi; [reflexivity|].
  rewrite seq_S, flat_map_app, length_app, IH by lia.
  cbn [flat_map base Nat.add]. rewrite app_nil_r, rowOf_length by lia. reflexivity.
Qed.

Lemma pairList_length {A} (sorted : list A) :
  length (pairList sorted) = length sorted * (length sorted - 1) / 2.
Proof. unfold pairList. rewrite rows_length by lia. apply base_total. Qed.

Lemma genPairs_pairList (C : nat) (sorted : list Element) :
  length sorted = C →
  Vote.genPairs C sorted = Some (map fst (pairList sorted), map snd (pairList sorted)).
Proof.
  intros <-. unfold Vote.genPairs.
  set (n := length sorted * (length sorted - 1) / 2).
  replace (replicate n Zero, replicate n Zero, 0) with (written [] n)
    by (unfold written; cbn [length map app]; rewrite Nat.sub_0_r; reflexivity).
  destruct (for_range_invariant
    (λ i st, st = written (flat_map (rowOf sorted) (seq 0 i)) n)
    0 (length sorted)
    (λ i, for_range 0 (length sorted - i - 1) (Vote.pairBody sorted i))
    (written [] n)) as (st & -> & Hst).
  - lia.
  - reflexivity.
  - intros i st Hi ->. eexists. split.
    + apply row_written; [lia|].
      rewrite rows_length, rowOf_length by lia.
      pose proof (base_mono (length sorted) (S i) (length sorted) ltac:(lia)) as Hm.
      cbn [base] in Hm. rewrite base_total in Hm. exact Hm.
    + rewrite seq_S, flat_map_app. cbn [flat_map Nat.add]. rewrite app_nil_r.
      reflexivity.
  - cbn [mbind option_bind]. rewrite Hst. fold (pairList sorted).
    unfold written. rewrite pairList_length. fold n. rewrite Nat.sub_diag.
    cbn [replicate fst snd]. rewrite !app_nil_r. reflexivity.
Qed.

Lemma pairList_split {A} (sorted : list A) (i : nat) :
  i < length sorted →
  pairList sorted = flat_map (rowOf sorted) (seq 0 i) ++ rowOf sorted i
                    ++ flat_map (rowOf sorted) (seq (S i) (length sorted - i - 1)).
Proof.
  intros Hi. unfold pairList.
  assert (E : seq 0 (length sorted) = seq 0 i ++ i :: seq (S i) (length sorted - i - 1)).
  { replace (length sorted) with (i + S (length sorted - i - 1)) at 1 by lia.
    rewrite seq_app. reflexivity. }
  rewrite E, flat_map_app. reflexivity.
Qed.

Lemma pairList_lookup {A} (sorted : list A) (i j : nat) (x y : A) :
  sorted !! i = Some x → sorted !! (i + j + 1) = Some y →
  pairList sorted !! (base (length sorted) i + j) = Some (x, y).
Proof.
  intros Hx Hy.
  pose proof (lookup_lt_Some _ _ _ Hx) as Hi.
  rewrite (pairList_split sorted i Hi).
  rewrite lookup_app_r by (rewrite rows_length by lia; lia).
  rewrite rows_length by lia.
  replace (base (length sorted) i + j - base (length sorted) i) with j by lia.
  rewrite lookup_app_l.
  - apply rowOf_lookup; assumption.
  - rewrite rowOf_length by lia. apply lookup_lt_Some in Hy. lia.
Qed.

Lemma pairAsserts_pairList (sorted : list Element) (i j : nat) :
  i < length sorted → j < length sorted - i - 1 →
  Vote.pairAsserts sorted (map fst (pairList sorted)) (map snd (pairList sorted))
                   i j (base (length sorted) i) = Some true.
Proof.
  intros Hi Hj.
  destruct (lookup_lt_is_Some_2 sorted i Hi) as [x Hx].
  destruct (lookup_lt_is_Some_2 sorted (i + j + 1) ltac:(lia)) as [y Hy].
  unfold Vote.pairAsserts.
  rewrite !map_fmap, !list_lookup_fmap, (pairList_lookup sorted i j x y Hx Hy), Hx, Hy.
  cbn [fmap option_fmap option_map mbind option_bind fst snd].
  rewrite !Equal_refl. reflexivity.
Qed.

Lemma pairClause_pairList (C : nat) (sorted : list Element) :
  length sorted = C →
  Vote.pairClause C sorted (map fst (pairList sorted)) (map snd (pairList sorted))
  = Some true.
Proof.
  intros <-. unfold Vote.pairClause.
  destruct (for_range_invariant
    (λ i st, st = (true, base (length sorted) i))
    0 (length sorted)
    (Vote.rowAsserts (length sorted) sorted (map fst (pairList sorted))
                     (map snd (pairList sorted)))
    (true, 0)) as (st & -> & Hst).
  - lia.
  - reflexivity.
  - intros i st Hi ->. unfold Vote.rowAsserts.
    destruct (for_range_invariant (λ _ ok, ok = true)
      0 (length sorted - i - 1)
      (λ j ok, b ← Vote.pairAsserts sorted (map fst (pairList sorted))
                     (map snd (pairList sorted)) i j (base (length sorted) i);
               Some (ok && b))
      true) as (ok & -> & ->).
    + lia.
    + reflexivity.
    + intros j ok Hj ->. rewrite pairAsserts_pairList by lia.
      exists true. split; reflexivity.
    + cbn [mbind option_bind]. eexists. split; reflexivity.
  - cbn [mbind option_bind]. rewrite Hst. reflexivity.
Qed.

Lemma swapElems_eq {A} (l : list A) (i j : nat) (x y : A) :
  l !! i = Some x → l !! j = Some y →
  swapElems i j l = Some (<[j:=x]> (<[i:=y]> l)).
Proof.
  intros Hx Hy. unfold swapElems. rewrite Hx, Hy. cbn [mbind option_bind].
  rewrite slice_set_Some by (eapply lookup_lt_Some; exact Hx).
  cbn [mbind option_bind].
  rewrite slice_set_Some by (rewrite length_insert; eapply lookup_lt_Some; exact Hy).
  reflexivity.
Qed.

Lemma swapPairs_Some (f s : list Element) (i j : nat) :
  length f = length s → i < length f → j < length f →
  ∃ f' s', Vote.swapPairs i j (f, s) = Some (f', s')
    ∧ length f' = length f ∧ length s' = length s ∧ zip f' s' ≡ₚ zip f s.
Proof.
  intros Hlen Hi Hj.
  destruct (lookup_lt_is_Some_2 f i Hi) as [x Hx].
  destruct (lookup_lt_is_Some_2 f j Hj) as [y Hy].
  destruct (lookup_lt_is_Some_2 s i ltac:(lia)) as [x' Hx'].
  destruct (lookup_lt_is_Some_2 s j ltac:(lia)) as [y' Hy'].
  unfold Vote.swapPairs. cbn [fst snd].
  rewrite (swapElems_eq f i j x y Hx Hy), (swapElems_eq s i j x' y' Hx' Hy').
  cbn [mbind option_bind]. eexists _, _. split; [reflexivity|].
  rewrite !length_insert. split; [reflexivity|]. split; [reflexivity|].
  rewrite <- !insert_zip_with.
  assert (H1 : zip_with pair f s !! i = Some (x, x')).
  { rewrite lookup_zip_with, Hx, Hx'. reflexivity. }
  assert (H2 : zip_with pair f s !! j = Some (y, y')).
  { rewrite lookup_zip_with, Hy, Hy'. reflexivity. }
  destruct (swapElems_Some (zip_with pair f s) i j) as (l' & Hl' & Hp & _).
  - rewrite length_zip_with. lia.
  - rewrite length_zip_with. lia.
  - rewrite (swapElems_eq _ i j _ _ H1 H2) in Hl'. injection Hl' as <-. exact Hp.
Qed.

Lemma Shuffle_pairs (rnd : nat → nat) (f s : list Element) :
  length f = length s →
  ∃ f' s', Shuffle rnd (length f) Vote.swapPairs (f, s) = Some (f', s')
    ∧ length f' = length f ∧ length s' = length s ∧ zip f' s' ≡ₚ zip f s.
Proof.
  intros Hlen.
  destruct (Shuffle_invariant
    (λ st, length st.1 = length f ∧ length st.2 = length s ∧ zip st.1 st.2 ≡ₚ zip f s)
    rnd (length f) Vote.swapPairs) with (s := (f, s)) as ([f' s'] & H & H1 & H2 & H3).
  - intros [a b] i j (Ha & Hb & Hp) Hi Hj. cbn [fst snd] in *.
    destruct (swapPairs_Some a b i j) as (a' & b' & E & Ha' & Hb' & Hp'); [lia|lia|lia|].
    exists (a', b'). split; [exact E|]. cbn [fst snd].
    split; [lia|]. split; [lia|]. etrans; eassumption.
  - cbn [fst snd]. split; [reflexivity|]. split; reflexivity.
  - cbn [fst snd] in *. exists f', s'. repeat split; assumption.
Qed.

(** The copy loops *)
Lemma copy_into_written {A} (d : A) (src W : list A) (m : nat) :
  length src ≤ m →
  copy_into src (W ++ replicate m d, length W)
  = Some ((W ++ src) ++ replicate (m - length src) d, length W + length src).
Proof.
  unfold copy_into. revert W m. induction src as [|x src IH]; intros W m Hm.
  - cbn [fold_left length]. rewrite app_nil_r, Nat.sub_0_r, Nat.add_0_r. reflexivity.
  - cbn [length] in Hm. cbn [fold_left length mbind option_bind].
    rewrite slice_set_next by lia. cbn [mbind option_bind].
    replace (S (length W)) with (length (W ++ [x])) by (rewrite length_app; cbn; lia).
    rewrite IH by lia. rewrite <- !app_assoc. cbn [app].
    rewrite length_app. cbn [length].
    replace (m - 1 - length src) with (m - S (length src)) by lia.
    replace (length W + 1 + length src) with (length W + S (length src)) by lia.
    reflexivity.
Qed.

Lemma copy_into_exact {A} (d : A) (src : list A) (m : nat) :
  length src = m →
  copy_into src (replicate m d, 0) = Some (src, m).
Proof.
  intros <-.
  change (replicate (length src) d, 0)
    with (@nil A ++ replicate (length src) d, length (@nil A)).
  rewrite (copy_into_written d src [] (length src)) by lia.
  cbn [app length]. rewrite Nat.sub_diag, app_nil_r. reflexivity.
Qed.

Lemma copyVotes_written (c : Vote.ClientState) (W : list (Element * Element)) (N : nat) :
  length (Vote.PairFirst c) = length (Vote.PairSecond c) →
  length W + length (Vote.PairFirst c) ≤ N →
  Vote.copyVotes c (written W N) = Some (written (W ++ votesOf c) N).
Proof.
  intros Hlen HN. unfold Vote.copyVotes.
  assert (Hz : length (votesOf c) = length (Vote.PairFirst c)).
  { unfold votesOf. rewrite length_zip_with. lia. }
  destruct (for_range_invariant
    (λ j st, st = written (W ++ take j (votesOf c)) N)
    0 (length (Vote.PairFirst c))
    (λ j '(first, second, voteCnt),
       f ← Vote.PairFirst c !! j; s ← Vote.PairSecond c !! j;
       first ← slice_set first voteCnt f;
       second ← slice_set second voteCnt s;
       Some (first, second, voteCnt + 1))
    (written W N)) as (st & -> & Hst).
  - lia.
  - cbn [take]. rewrite app_nil_r. reflexivity.
  - intros j st Hj ->.
    destruct (lookup_lt_is_Some_2 (Vote.PairFirst c) j ltac:(lia)) as [x Hx].
    destruct (lookup_lt_is_Some_2 (Vote.PairSecond c) j ltac:(lia)) as [y Hy].
    assert (Hxy : votesOf c !! j = Some (x, y)).
    { unfold votesOf. rewrite lookup_zip_with, Hx, Hy. reflexivity. }
    exists (written ((W ++ take j (votesOf c)) ++ [(x, y)]) N). split.
    + destruct (written (W ++ take j (votesOf c)) N) as [[first second] cp] eqn:E.
      destruct (written_push _ N x y first second cp E) as (H1 & H2 & H3).
      { rewrite length_app, length_take. lia. }
      rewrite Hx, Hy. cbn [mbind option_bind].
      rewrite H1. cbn [mbind option_bind]. rewrite H2. cbn [mbind option_bind].
      rewrite H3.
      destruct (written ((W ++ take j (votesOf c)) ++ [(x, y)]) N) as [[a b] d].
      reflexivity.
    + rewrite <- app_assoc. rewrite (take_S_r _ _ _ Hxy). reflexivity.
  - rewrite Hst, take_ge by lia. reflexivity.
Qed.

Lemma copyVotes_all (clients : list Vote.ClientState) (n : nat) :
  Forall (λ c, length (Vote.PairFirst c) = n ∧ length (Vote.PairSecond c) = n) clients →
  ∀ (W : list (Element * Element)) (N : nat),
  length W + length clients * n ≤ N →
  fold_left (λ acc c, acc ≫= Vote.copyVotes c) clients (Some (written W N))
  = Some (written (W ++ concat (map votesOf clients)) N).
Proof.
  induction 1 as [|c clients [H1 H2] _ IH]; intros W N HN.
  - cbn [fold_left map concat]. rewrite app_nil_r. reflexivity.
  - cbn [fold_left map concat length mbind option_bind] in *.
    rewrite copyVotes_written by lia.
    rewrite IH.
    + rewrite <- app_assoc. reflexivity.
    + rewrite length_app. unfold votesOf. rewrite length_zip_with. lia.
Qed.

Lemma votes_length (clients : list Vote.ClientState) (n : nat) :
  Forall (λ c, length (Vote.PairFirst c) = n ∧ length (Vote.PairSecond c) = n) clients →
  length (concat (map votesOf clients)) = length clients * n.
Proof.
  induction 1 as [|c clients [H1 H2] _ IH]; [reflexivity|].
  cbn [map concat length]. rewrite length_app, IH. unfold votesOf.
  rewrite length_zip_with. lia.
Qed.

Lemma written_full (W : list (Element * Element)) :
  written W (length W) = (map fst W, map snd W, length W).
Proof. unfold written. rewrite Nat.sub_diag. cbn [replicate]. rewrite !app_nil_r. reflexivity. Qed.

(** Index loops that read a slice. *)
Lemma mapM_seq_lookup {A B} (l : list A) (h : A → B) (f : nat → option B) :
  (∀ i x, l !! i = Some x → f i = Some (h x)) →
  mapM f (seq 0 (length l)) = Some (map h l).
Proof.
  intros Hf. apply mapM_Some. apply Forall2_same_length_lookup_2.
  - rewrite length_seq, length_map. reflexivity.
  - intros i j y Hj Hy. apply lookup_seq in Hj as [-> Hi].
    rewrite map_fmap, list_lookup_fmap in Hy.
    destruct (l !! i) as [x|] eqn:Hx; [|discriminate]. cbn in Hy.
    injection Hy as <-. apply (Hf i x Hx).
Qed.

Lemma packAll_zip (C n : nat) (first second : list Element) :
  length first = n → length second = n →
  Vote.packAll C n first second
  = Some (map (λ p, Vote.pack C p.1 p.2) (zip first second)).
Proof.
  intros H1 H2. unfold Vote.packAll.
  replace n with (length (zip first second)) by (rewrite length_zip_with; lia).
  apply mapM_seq_lookup. intros i [x y] Hxy.
  apply lookup_zip_with_Some in Hxy as (x' & y' & [= -> ->] & Hx & Hy).
  rewrite Hx, Hy. reflexivity.
Qed.

Lemma zip_fst_snd_map {A B} (l : list (A * B)) : zip (map fst l) (map snd l) = l.
Proof. rewrite !map_fmap. apply zip_fst_snd. Qed.

Lemma initFrom_wf (MiMC : list Element → Element) (C D : nat)
    (sorted : list Element) (dummyRnd : nat → Element) (salt : Element) :
  length sorted = C →
  ∃ c, Vote.initFrom MiMC C D sorted dummyRnd salt = Some c
       ∧ wfClient C D c ∧ Vote.SortedCandidate c = sorted.
Proof.
  intros Hlen. unfold Vote.initFrom.
  rewrite (genPairs_pairList C sorted Hlen). cbn [mbind option_bind].
  rewrite packAll_zip
    by (rewrite length_map, pairList_length, Hlen; reflexivity).
  cbn [mbind option_bind]. eexists. split; [reflexivity|].
  split; [|reflexivity]. unfold wfClient. cbn.
  rewrite zip_fst_snd_map, length_map, length_seq. repeat split; assumption.
Qed.

Lemma Init_wf (MiMC : list Element → Element) (C D : nat)
    (rankRnd : nat → nat) (dummyRnd : nat → Element) (salt : Element) :
  ∃ c, Vote.Init MiMC C D rankRnd dummyRnd salt = Some c
       ∧ wfClient C D c ∧ Vote.SortedCandidate c ≡ₚ candidates C.
Proof.
  unfold Vote.Init. fold (candidates C).
  destruct (Shuffle_Permutation rankRnd (candidates C)) as (sorted & -> & Hp).
  cbn [mbind option_bind].
  destruct (initFrom_wf MiMC C D sorted dummyRnd salt) as (c & -> & Hwf & Hs).
  - rewrite (Permutation_length Hp). unfold candidates.
    rewrite length_map, length_seq. reflexivity.
  - exists c. split; [reflexivity|]. split; [exact Hwf|]. rewrite Hs. exact Hp.
Qed.

Lemma mapM_lookup_id {A} (l : list A) :
  mapM (λ i, l !! i) (seq 0 (length l)) = Some l.
Proof.
  rewrite (mapM_seq_lookup l id); [rewrite map_id; reflexivity|].
  intros i x Hx. exact Hx.
Qed.

Lemma wfClient_X_nonempty (C D : nat) (c : Vote.ClientState) :
  wfClient C D c → 2 ≤ C → Vote.PrivateX c ≠ [].
Proof.
  intros (H1 & _ & _ & H4 & _) HC E. apply (f_equal length) in E.
  rewrite H4, length_map, pairList_length, H1 in E. cbn [length] in E.
  assert (1 ≤ C * (C - 1) / 2); [|lia].
  apply Nat.div_le_lower_bound; [lia|]. nia.
Qed.

Lemma GenAssignment_wf (C D : nat) (c : Vote.ClientState) (publicR : Element) :
  wfClient C D c → 2 ≤ C →
  Vote.GenAssignment C c publicR = Some (withProd c publicR, assignmentOf c publicR).
Proof.
  intros Hwf HC. pose proof (wfClient_X_nonempty C D c Hwf HC) as HX.
  destruct Hwf as (H1 & H2 & H3 & H4 & H5 & H6).
  unfold Vote.GenAssignment.
  rewrite <- H1 at 1. rewrite mapM_lookup_id. cbn [mbind option_bind].
  assert (Hn : C * (C - 1) / 2 = length (Vote.PairFirst c)).
  { rewrite H2, length_map, pairList_length, H1. reflexivity. }
  rewrite Hn at 1. rewrite mapM_lookup_id. cbn [mbind option_bind].
  assert (Hn' : C * (C - 1) / 2 = length (Vote.PairSecond c)).
  { rewrite H3, length_map, pairList_length, H1. reflexivity. }
  rewrite Hn'. rewrite mapM_lookup_id. cbn [mbind option_bind].
  unfold Vote.ComputePolyEval. rewrite PolyEval_nonempty by exact HX.
  cbn [mbind option_bind]. reflexivity.
Qed.

Lemma candidate_index (a : nat) :
  (Z.of_nat a < 2 ^ 64)%Z → Z.to_nat (Uint64 (candidate a)) = a.
Proof.
  intros Ha. unfold candidate. rewrite Uint64_NewElement.
  rewrite Z.mod_small by lia. apply Nat2Z.id.
Qed.

Lemma insert_map_seq {A} (F : nat → A) (n i : nat) (y : A) :
  <[i:=y]> (map F (seq 0 n)) = map (λ a, if decide (a = i) then y else F a) (seq 0 n).
Proof.
  apply list_eq. intros k. rewrite !map_fmap.
  destruct (decide (k < n)) as [Hk|Hk].
  - rewrite list_lookup_fmap, lookup_seq_lt by lia. cbn.
    destruct (decide (k = i)) as [->|Hne].
    + rewrite list_lookup_insert_eq by (rewrite length_fmap, length_seq; lia).
      reflexivity.
    + rewrite list_lookup_insert_ne by congruence.
      rewrite list_lookup_fmap, lookup_seq_lt by lia. reflexivity.
  - rewrite !lookup_ge_None_2; [reflexivity| |].
    + rewrite length_fmap, length_seq. lia.
    + rewrite length_insert, length_fmap, length_seq. lia.
Qed.

Lemma matrixOf_ext (C : nat) (g g' : nat → nat → Z) :
  (∀ a b, a < C → b < C → g a b = g' a b) → matrixOf C g = matrixOf C g'.
Proof.
  intros H. unfold matrixOf. apply map_ext_in. intros a Ha%in_seq.
  apply map_ext_in. intros b Hb%in_seq. apply H; lia.
Qed.

Lemma matrixOf_row (C : nat) (g : nat → nat → Z) (a : nat) :
  a < C → matrixOf C g !! a = Some (map (g a) (seq 0 C)).
Proof.
  intros Ha. unfold matrixOf. rewrite map_fmap, list_lookup_fmap, lookup_seq_lt by lia.
  reflexivity.
Qed.

Lemma matrixOf_at (C : nat) (g : nat → nat → Z) (a b : nat) :
  a < C → b < C → (matrixOf C g !! a) ≫= (λ row, row !! b) = Some (g a b).
Proof.
  intros Ha Hb. rewrite matrixOf_row by lia. cbn [mbind option_bind].
  rewrite map_fmap, list_lookup_fmap, lookup_seq_lt by lia. reflexivity.
Qed.

Lemma matrixOf_incr (C : nat) (g : nat → nat → Z) (a0 b0 : nat) (v : Z) :
  a0 < C → b0 < C →
  (row ← slice_set (map (g a0) (seq 0 C)) b0 v; slice_set (matrixOf C g) a0 row)
  = Some (matrixOf C (λ a b, if decide (a = a0 ∧ b = b0) then v else g a b)).
Proof.
  intros Ha Hb.
  rewrite slice_set_Some by (rewrite length_map, length_seq; lia).
  cbn [mbind option_bind].
  rewrite slice_set_Some by (unfold matrixOf; rewrite length_map, length_seq; lia).
  f_equal. unfold matrixOf. rewrite !insert_map_seq.
  apply map_ext_in. intros a _. destruct (decide (a = a0)) as [->|Hne].
  - apply map_ext_in. intros b _.
    destruct (decide (b = b0)) as [->|Hb0].
    + rewrite decide_True by (split; reflexivity). reflexivity.
    + rewrite decide_False by (intros [_ ?]; congruence). reflexivity.
  - apply map_ext_in. intros b _.
    rewrite decide_False by (intros [? _]; congruence). reflexivity.
Qed.

Lemma countPair_snoc (a b : nat) (l : list (nat * nat)) (p : nat * nat) :
  countPair a b (l ++ [p]) = countPair a b l + (if decide (p = (a, b)) then 1 else 0).
Proof.
  unfold countPair. rewrite filter_app, length_app. f_equal.
  rewrite filter_cons, filter_nil. destruct (decide (p = (a, b))); reflexivity.
Qed.

Lemma countPair_le (a b : nat) (l : list (nat * nat)) : countPair a b l ≤ length l.
Proof. unfold countPair. apply length_filter. Qed.

Lemma countPair_Permutation (a b : nat) (l k : list (nat * nat)) :
  l ≡ₚ k → countPair a b l = countPair a b k.
Proof. intros H. unfold countPair. rewrite H. reflexivity. Qed.

Lemma countPair_app (a b : nat) (l k : list (nat * nat)) :
  countPair a b (l ++ k) = countPair a b l + countPair a b k.
Proof. unfold countPair. rewrite filter_app, length_app. reflexivity. Qed.

Lemma replicate_as_map {A} (s n : nat) (x : A) :
  replicate n x = map (λ _, x) (seq s n).
Proof. revert s. induction n as [|n IH]; intros s; cbn; [|rewrite <- IH]; reflexivity. Qed.

Lemma tally_count (C : nat) (NP : list (nat * nat)) :
  (Z.of_nat C ≤ 2 ^ 64)%Z → (Z.of_nat (length NP) < 2 ^ 64)%Z →
  Forall (λ p, p.1 < C ∧ p.2 < C) NP →
  Vote.tally C (map (λ p, candidate p.1) NP) (map (λ p, candidate p.2) NP)
  = Some (matrixOf C (λ a b, Z.of_nat (countPair a b NP))).
Proof.
  intros HC HN Hall. unfold Vote.tally. rewrite length_map.
  destruct (for_range_invariant
    (λ i cnt, cnt = matrixOf C (λ a b, Z.of_nat (countPair a b (take i NP))))
    0 (length NP)
    (Vote.tallyStep (map (λ p, candidate p.1) NP) (map (λ p, candidate p.2) NP))
    (replicate C (replicate C 0%Z))) as (cnt & -> & Hcnt).
  - lia.
  - cbn [take]. rewrite !(replicate_as_map 0). reflexivity.
  - intros i cnt Hi ->.
    destruct (lookup_lt_is_Some_2 NP i ltac:(lia)) as [[a0 b0] Hp].
    pose proof (Forall_lookup_1 _ _ _ _ Hall Hp) as [Ha Hb]. cbn [fst snd] in Ha, Hb.
    unfold Vote.tallyStep.
    rewrite !map_fmap, !list_lookup_fmap, Hp. cbn [fmap option_fmap option_map fst snd].
    cbn [mbind option_bind].
    rewrite !candidate_index by lia.
    rewrite matrixOf_row by lia. cbn [mbind option_bind].
    rewrite map_fmap, list_lookup_fmap, lookup_seq_lt by lia.
    cbn [fmap option_fmap option_map mbind option_bind]. rewrite <- map_fmap.
    change (0 + b0) with b0.
    pose proof (matrixOf_incr C (λ a b, Z.of_nat (countPair a b (take i NP))) a0 b0
      ((Z.of_nat (countPair a0 b0 (take i NP)) + 1) `mod` 2 ^ 64)%Z Ha Hb) as Hincr.
    cbv beta in Hincr. rewrite Hincr. clear Hincr.
    eexists. split; [reflexivity|].
    apply matrixOf_ext. intros a b _ _.
    rewrite (take_S_r _ _ _ Hp), countPair_snoc.
    pose proof (countPair_le a0 b0 (take i NP)) as Hle. rewrite length_take in Hle.
    destruct (decide (a = a0 ∧ b = b0)) as [[-> ->]|Hne].
    + rewrite decide_True by reflexivity. rewrite Z.mod_small by lia. lia.
    + rewrite decide_False by (intros [= -> ->]; apply Hne; split; reflexivity). lia.
  - rewrite Hcnt, take_ge by lia. reflexivity.
Qed.

Lemma quiet_app (out out' : list Vote.Output) :
  quiet out → quiet out' → quiet (out ++ out').
Proof. unfold quiet. intros H1 H2. apply Forall_app. split; assumption. Qed.

Lemma beatsAll_spec (C : nat) (g : nat → nat → Z) (n : Z) (i : nat) (js : list nat) :
  i < C → Forall (λ j, j < C) js → ∀ out,
  ∃ out', Vote.beatsAll (matrixOf C g) n i js out
          = Some (forallb (λ j, bool_decide (i = j) || (g j i <? g i j)%Z) js, out')
    ∧ (quiet out → quiet out')
    ∧ ((∀ j, j ∈ js → j ≠ i → ((g i j + g j i) mod 2 ^ 64)%Z = n) → out' = out).
Proof.
  intros Hi Hjs. induction Hjs as [|j js Hj _ IH]; intros out.
  - exists out. cbn. split; [reflexivity|]. split; auto.
  - cbn [Vote.beatsAll forallb]. destruct (decide (i = j)) as [->|Hne].
    + rewrite bool_decide_eq_true_2 by reflexivity. cbn [orb andb].
      destruct (IH out) as (out' & -> & Hq & Hb). exists out'.
      split; [reflexivity|]. split; [exact Hq|].
      intros H. apply Hb. intros j' Hj'. apply H. apply elem_of_cons. right. exact Hj'.
    + rewrite bool_decide_eq_false_2 by exact Hne. cbn [orb].
      rewrite (matrixOf_row C g i Hi). cbn [mbind option_bind].
      rewrite map_fmap, list_lookup_fmap, lookup_seq_lt by lia.
      cbn [fmap option_fmap option_map mbind option_bind].
      rewrite (matrixOf_row C g j Hj). cbn [mbind option_bind].
      rewrite map_fmap, list_lookup_fmap, lookup_seq_lt by lia.
      cbn [fmap option_fmap option_map mbind option_bind Nat.add].
      destruct (Z.leb_spec (g i j) (g j i)) as [Hle|Hgt].
      * rewrite (proj2 (Z.ltb_ge _ _)) by lia. cbn [andb].
        exists out. split; [reflexivity|]. split; auto.
      * rewrite (proj2 (Z.ltb_lt _ _)) by lia. cbn [andb].
        destruct (Z.eqb_spec ((g i j + g j i) mod 2 ^ 64) n) as [Heq|Hneq].
        -- destruct (IH out) as (out' & -> & Hq & Hb). exists out'.
           split; [reflexivity|]. split; [exact Hq|].
           intros H. apply Hb. intros j' Hj'. apply H. apply elem_of_cons. right. exact Hj'.
        -- destruct (IH (out ++ [Vote.ComparisonNotCorrect])) as (out' & -> & Hq & Hb).
           exists out'. split; [reflexivity|]. split.
           ++ intros Ho. apply Hq. apply quiet_app; [exact Ho|].
              constructor; [left; reflexivity|constructor].
           ++ intros H. exfalso. apply Hneq. apply H; [apply elem_of_cons; left; reflexivity|].
              congruence.
Qed.

Lemma winnerBody_spec (C : nat) (g : nat → nat → Z) (n : Z) (i : nat)
    (w : Z) (out : list Vote.Output) :
  i < C →
  ∃ out', Vote.winnerBody C n (matrixOf C g) i (w, out)
          = Some (if okAt C g i then Z.of_nat i else w, out')
    ∧ (quiet out → quiet out')
    ∧ (balanced C g n → Vote.ComparisonNotCorrect ∉ out →
       Vote.ComparisonNotCorrect ∉ out').
Proof.
  intros Hi. unfold Vote.winnerBody. cbn [snd fst].
  destruct (beatsAll_spec C g n i (seq 0 C) Hi) with (out := out)
    as (out1 & -> & Hq & Hb).
  { apply Forall_forall. intros j Hj%list_elem_of_In%in_seq. lia. }
  cbn [mbind option_bind]. fold (okAt C g i).
  assert (Hb' : balanced C g n → out1 = out).
  { intros Hbal. apply Hb. intros j Hj%list_elem_of_In%in_seq Hne.
    apply Hbal; [lia|lia|congruence]. }
  destruct (okAt C g i).
  - rewrite (matrixOf_row C g i Hi). cbn [mbind option_bind].
    pose proof (mapM_lookup_id (map (g i) (seq 0 C))) as E.
    rewrite length_map, length_seq in E. rewrite E. clear E.
    cbn [mbind option_bind].
    eexists. split; [reflexivity|]. split.
    + intros Ho. apply quiet_app; [auto|].
      constructor; [right; eexists _, _; reflexivity|constructor].
    + intros Hbal Ho. rewrite (Hb' Hbal). intros H%elem_of_app.
      destruct H as [H|H%list_elem_of_singleton]; [auto|discriminate].
  - exists out1. split; [reflexivity|]. split; [exact Hq|].
    intros Hbal Ho. rewrite (Hb' Hbal). exact Ho.
Qed.

Lemma findSoleWinner_spec (C : nat) (g : nat → nat → Z) (n : Z) :
  ∃ out, Vote.findSoleWinner C n (matrixOf C g)
         = Some (winnerUpTo C g C,
                 if (winnerUpTo C g C =? -1)%Z then out ++ [Vote.NoSoleWinner] else out)
    ∧ quiet out
    ∧ (balanced C g n → Vote.ComparisonNotCorrect ∉ out).
Proof.
  unfold Vote.findSoleWinner.
  destruct (for_range_invariant
    (λ k st, st.1 = winnerUpTo C g k ∧ quiet st.2
             ∧ (balanced C g n → Vote.ComparisonNotCorrect ∉ st.2))
    0 C (Vote.winnerBody C n (matrixOf C g)) ((-1)%Z, []))
    as ([w out] & -> & Hw & Hq & Hc).
  - lia.
  - cbn. split; [reflexivity|]. split; [constructor|intros _; apply not_elem_of_nil].
  - intros i [w out] Hi (Hw & Hq & Hc). cbn [fst snd] in *.
    destruct (winnerBody_spec C g n i w out ltac:(lia)) as (out' & -> & Hq' & Hc').
    eexists. split; [reflexivity|]. cbn [fst snd winnerUpTo]. rewrite Hw.
    split; [reflexivity|]. split; [auto|]. intros Hbal. apply Hc'; auto.
  - cbn [fst snd mbind option_bind] in *. subst w.
    exists out. split; [reflexivity|]. split; [exact Hq|exact Hc].
Qed.

Lemma quiet_not_NoSoleWinner (out : list Vote.Output) :
  quiet out → Vote.NoSoleWinner ∉ out.
Proof.
  intros Hq H. unfold quiet in Hq. rewrite Forall_forall in Hq.
  destruct (Hq _ H) as [E|(i & v & E)]; discriminate.
Qed.

Lemma quiet_not_ProductsNotEqual (out : list Vote.Output) :
  quiet out → Vote.ProductsNotEqual ∉ out.
Proof.
  intros Hq H. unfold quiet in Hq. rewrite Forall_forall in Hq.
  destruct (Hq _ H) as [E|(i & v & E)]; discriminate.
Qed.

Lemma okAt_true (C : nat) (g : nat → nat → Z) (i : nat) :
  okAt C g i = true ↔ ∀ j, j < C → j ≠ i → (g i j > g j i)%Z.
Proof.
  unfold okAt. rewrite forallb_forall. split.
  - intros H j Hj Hne. specialize (H j ltac:(apply in_seq; lia)).
    apply orb_prop in H as [H|H].
    + apply bool_decide_eq_true in H. congruence.
    + apply Z.ltb_lt in H. lia.
  - intros H j Hj%in_seq. destruct (decide (i = j)) as [->|Hne].
    + rewrite bool_decide_eq_true_2 by reflexivity. reflexivity.
    + rewrite (proj2 (Z.ltb_lt _ _)) by (specialize (H j ltac:(lia) ltac:(congruence)); lia).
      apply orb_true_r.
Qed.

Lemma okAt_unique (C : nat) (g : nat → nat → Z) (i i' : nat) :
  i < C → i' < C → okAt C g i = true → okAt C g i' = true → i = i'.
Proof.
  intros Hi Hi' H H'. destruct (decide (i = i')) as [|Hne]; [assumption|exfalso].
  rewrite okAt_true in H, H'.
  specialize (H i' Hi' ltac:(congruence)). specialize (H' i Hi ltac:(congruence)). lia.
Qed.

Lemma winnerUpTo_range (C : nat) (g : nat → nat → Z) (k : nat) :
  winnerUpTo C g k = (-1)%Z
  ∨ ∃ i, i < k ∧ okAt C g i = true ∧ winnerUpTo C g k = Z.of_nat i.
Proof.
  induction k as [|k IH]; cbn [winnerUpTo]; [left; reflexivity|].
  destruct (okAt C g k) eqn:E.
  - right. exists k. split; [lia|]. split; [exact E|reflexivity].
  - destruct IH as [IH|(i & Hi & Ho & IH)]; [left; exact IH|].
    right. exists i. split; [lia|]. split; assumption.
Qed.

Lemma winnerUpTo_ok (C : nat) (g : nat → nat → Z) (k i : nat) :
  k ≤ C → i < k → okAt C g i = true → winnerUpTo C g k = Z.of_nat i.
Proof.
  intros Hk Hi Ho. induction k as [|k IH]; [lia|]. cbn [winnerUpTo].
  destruct (okAt C g k) eqn:E.
  - f_equal. apply (okAt_unique C g k i); [lia|lia|assumption|assumption].
  - apply IH; [lia|]. destruct (decide (i = k)) as [->|]; [congruence|lia].
Qed.

Lemma winnerUpTo_spec (C : nat) (g : nat → nat → Z) :
  (∀ i, i < C → winnerUpTo C g C = Z.of_nat i ↔ okAt C g i = true)
  ∧ (winnerUpTo C g C = (-1)%Z ↔ ∀ i, i < C → okAt C g i = false).
Proof.
  split.
  - intros i Hi. split; [|apply winnerUpTo_ok; lia].
    intros H. destruct (winnerUpTo_range C g C) as [E|(i' & Hi' & Ho & E)]; [lia|].
    assert (i = i') by lia. subst. exact Ho.
  - split.
    + intros H i Hi. destruct (okAt C g i) eqn:E; [|reflexivity].
      rewrite (winnerUpTo_ok C g C i) in H by (auto; lia). lia.
    + intros H. destruct (winnerUpTo_range C g C) as [E|(i & Hi & Ho & _)]; [exact E|].
      rewrite H in Ho by exact Hi. discriminate.
Qed.

(** ** Counting the pairs of a ranking *)

Lemma rowOf_cons_S {A} (x : A) (l : list A) (i : nat) :
  rowOf (x :: l) (S i) = rowOf l i.
Proof. reflexivity. Qed.

Lemma pairList_cons {A} (x : A) (l : list A) :
  pairList (x :: l) = map (pair x) l ++ pairList l.
Proof.
  unfold pairList. cbn [length seq flat_map]. f_equal.
  rewrite <- seq_shift, flat_map_concat_map, map_map, <- flat_map_concat_map.
  apply flat_map_ext. intros i. apply rowOf_cons_S.
Qed.

Lemma pairList_map {A B} (f : A → B) (l : list A) :
  pairList (map f l) = map (λ p, (f p.1, f p.2)) (pairList l).
Proof.
  induction l as [|x l IH]; [reflexivity|].
  cbn [map]. rewrite !pairList_cons, map_app, IH, !map_map. reflexivity.
Qed.

Lemma pairList_elem {A} (l : list A) (u v : A) :
  (u, v) ∈ pairList l → u ∈ l ∧ v ∈ l.
Proof.
  induction l as [|x l IH]; [intros H; inversion H|].
  rewrite pairList_cons. intros [H|H]%elem_of_app.
  - rewrite map_fmap in H. apply list_elem_of_fmap in H as (y & [= -> ->] & Hy).
    split; [left|right; exact Hy].
  - destruct (IH H). split; right; assumption.
Qed.

Lemma countPair_zero (a b : nat) (l : list (nat * nat)) :
  (a, b) ∉ l → countPair a b l = 0.
Proof.
  intros H. unfold countPair. induction l as [|p l IH]; [reflexivity|].
  rewrite filter_cons. destruct (decide (p = (a, b))) as [->|Hne].
  - exfalso. apply H. left.
  - apply IH. intros Hin. apply H. right. exact Hin.
Qed.

Lemma countPair_row (a b x : nat) (l : list nat) :
  NoDup l →
  countPair a b (map (pair x) l)
  = if decide (x = a ∧ b ∈ l) then 1 else 0.
Proof.
  intros Hnd. induction Hnd as [|y l Hy Hnd IH].
  - cbn. destruct (decide (x = a ∧ b ∈ [])) as [[_ H]|]; [inversion H|reflexivity].
  - cbn [map]. unfold countPair in *. rewrite filter_cons.
    destruct (decide ((x, y) = (a, b))) as [[= -> ->]|Hne].
    + cbn [length]. rewrite IH.
      rewrite decide_False by (intros [_ ?]; contradiction).
      rewrite decide_True by (split; [reflexivity|left]). reflexivity.
    + rewrite IH. destruct (decide (x = a ∧ b ∈ l)) as [[-> Hb]|Hn].
      * rewrite decide_True by (split; [reflexivity|right; exact Hb]). reflexivity.
      * rewrite decide_False; [reflexivity|].
        intros [-> [->|Hb]%elem_of_cons]; [congruence|]. apply Hn. split; auto.
Qed.

Lemma pair_count (l : list nat) (a b : nat) :
  NoDup l → a ≠ b → a ∈ l → b ∈ l →
  countPair a b (pairList l) + countPair b a (pairList l) = 1.
Proof.
  intros Hnd Hne. induction Hnd as [|x l Hx Hnd IH]; intros Ha Hb; [inversion Ha|].
  rewrite pairList_cons, !countPair_app, !countPair_row by exact Hnd.
  apply elem_of_cons in Ha, Hb.
  destruct (decide (x = a)) as [->|Hxa]; [|destruct (decide (x = b)) as [->|Hxb]].
  - destruct Hb as [Hb|Hb]; [congruence|].
    rewrite decide_True by (split; [reflexivity|exact Hb]).
    rewrite decide_False by (intros [? _]; congruence).
    rewrite !countPair_zero; [lia| |]; intros H%pairList_elem; tauto.
  - destruct Ha as [Ha|Ha]; [congruence|].
    rewrite decide_False by (intros [? _]; congruence).
    rewrite decide_True by (split; [reflexivity|exact Ha]).
    rewrite !countPair_zero; [lia| |]; intros H%pairList_elem; tauto.
  - destruct Ha as [Ha|Ha]; [congruence|]. destruct Hb as [Hb|Hb]; [congruence|].
    rewrite !decide_False by (intros [? _]; congruence).
    specialize (IH Ha Hb). lia.
Qed.

Lemma fprod_fingerprints {A} (V Y : A → list Element) (l : list A) (r : Element) :
  fprod (map (λ c, Mul (Fingerprint (V c) r) (fprod (Y c))) l)
  = Mul (Fingerprint (concat (map V l)) r) (fprod (concat (map Y l))).
Proof.
  rewrite fprod_map_Mul, Fingerprint_concat, fprod_concat, !map_map. reflexivity.
Qed.

Section VoteRound.

Context {Proof Witness : Type}.
Variable Prove : Vote.VoteCircuit.t → Proof * Witness.
Variable Verify : Proof → Witness → bool.

Lemma submit_publicProd (Max i : nat) (ca : Vote.ClientState * Vote.VoteCircuit.t) :
  Vote.publicProd (Vote.submit Prove Max i ca) = Vote.PublicProd ca.1.
Proof. unfold Vote.submit. destruct (decide (i < Max)); reflexivity. Qed.

Lemma verifyAll_spec (Max : nat) (cas : list (Vote.ClientState * Vote.VoteCircuit.t)) :
  ∃ out, Vote.verifyAll Verify Max (imap (Vote.submit Prove Max) cas)
         = Some (seq 0 (Max `min` length cas), out)
    ∧ Forall isVerificationError out.
Proof.
  unfold Vote.verifyAll. rewrite length_imap.
  destruct (for_range_invariant
    (λ k st, st.1 = seq 0 (Max `min` k) ∧ Forall isVerificationError st.2)
    0 (length cas)
    (Vote.verifyBody Verify Max (imap (Vote.submit Prove Max) cas)) ([], []))
    as ([ver out] & -> & Hv & Ho).
  - lia.
  - cbn. rewrite Nat.min_0_r. split; [reflexivity|constructor].
  - intros i [ver out] Hi [Hv Ho]. cbn [fst snd] in *. unfold Vote.verifyBody.
    destruct (decide (i < Max)) as [Hlt|Hge].
    + rewrite list_lookup_imap.
      destruct (lookup_lt_is_Some_2 cas i ltac:(lia)) as [ca ->].
      cbn [fmap option_fmap option_map mbind option_bind].
      unfold Vote.submit at 1 2. rewrite decide_True by exact Hlt.
      cbn [Vote.proof Vote.publicWitness mbind option_bind fst snd].
      eexists. split; [reflexivity|]. cbn [fst snd]. split.
      * rewrite Hv. replace (Max `min` i) with i by lia.
        replace (Max `min` S i) with (S i) by lia. rewrite seq_S. reflexivity.
      * destruct (Verify _ _); [exact Ho|].
        apply Forall_app. split; [exact Ho|]. constructor; [|constructor].
        exists i. reflexivity.
    + eexists. split; [reflexivity|]. cbn [fst snd]. split; [|exact Ho].
      rewrite Hv. f_equal. lia.
  - cbn [fst snd] in *. exists out. rewrite Hv. split; [reflexivity|exact Ho].
Qed.

Lemma prodFromClient_spec (Max : nat) (cas : list (Vote.ClientState * Vote.VoteCircuit.t)) :
  Vote.prodFromClient (length cas) (imap (Vote.submit Prove Max) cas)
  = Some (fprod (map (λ ca, Vote.PublicProd ca.1) cas)).
Proof.
  unfold Vote.prodFromClient.
  destruct (for_range_invariant
    (λ k prod, prod = fprod (map (λ ca, Vote.PublicProd ca.1) (take k cas)))
    0 (length cas)
    (λ i prod, s ← imap (Vote.submit Prove Max) cas !! i;
               Some (Mul prod (Vote.publicProd s)))
    (NewElement 1)) as (prod & -> & Hp).
  - lia.
  - reflexivity.
  - intros i prod Hi ->. rewrite list_lookup_imap.
    destruct (lookup_lt_is_Some_2 cas i ltac:(lia)) as [ca Hca]. rewrite Hca.
    cbn [fmap option_fmap option_map mbind option_bind].
    eexists. split; [reflexivity|].
    rewrite submit_publicProd, (take_S_r _ _ _ Hca), map_app, fprod_app.
    cbn [map fprod foldr]. ring.
  - rewrite Hp, take_ge by lia. reflexivity.
Qed.

End VoteRound.

Lemma honest_votes (C D : nat) (rk : list nat) (c : Vote.ClientState) :
  honestClient C D rk c →
  votesOf c = map cc (pairList rk)
  ∧ Vote.PrivateX c = map (λ p, Vote.pack C p.1 p.2) (votesOf c)
  ∧ length (Vote.PairFirst c) = C * (C - 1) / 2
  ∧ length (Vote.PairSecond c) = C * (C - 1) / 2.
Proof.
  intros ((H1 & H2 & H3 & H4 & H5 & H6) & Hrk & Hperm).
  assert (Hv : votesOf c = pairList (Vote.SortedCandidate c)).
  { unfold votesOf. rewrite H2, H3. apply zip_fst_snd_map. }
  split; [|split; [|split]].
  - rewrite Hv, Hrk. apply (pairList_map candidate).
  - rewrite Hv. exact H4.
  - rewrite H2, length_map, pairList_length, H1. reflexivity.
  - rewrite H3, length_map, pairList_length, H1. reflexivity.
Qed.

Lemma honest_all_votes (C D : nat) (rks : list (list nat))
    (clients : list Vote.ClientState) :
  Forall2 (honestClient C D) rks clients →
  concat (map votesOf clients) = map cc (concat (map pairList rks))
  ∧ concat (map Vote.PrivateX clients)
    = map (λ p, Vote.pack C p.1 p.2) (concat (map votesOf clients)).
Proof.
  induction 1 as [|rk c rks clients Hc _ (IH3 & IH4)].
  - split; reflexivity.
  - destruct (honest_votes C D rk c Hc) as (Hv & HX & _).
    cbn [length map concat]. split.
    + rewrite map_app, Hv, IH3. reflexivity.
    + rewrite map_app, HX, IH4. reflexivity.
Qed.

Lemma honest_rankings (C D : nat) (rks : list (list nat))
    (clients : list Vote.ClientState) :
  Forall2 (honestClient C D) rks clients →
  Forall (λ rk, rk ≡ₚ seq 0 C) rks ∧ Forall (wfClient C D) clients
  ∧ length rks = length clients.
Proof.
  induction 1 as [|rk c rks clients (Hw & _ & Hp) _ (IH1 & IH2 & IH3)].
  - repeat split; constructor.
  - split; [constructor; assumption|]. split; [constructor; assumption|].
    cbn [length]. rewrite IH3. reflexivity.
Qed.

Lemma rankings_entries (C : nat) (rks : list (list nat)) :
  Forall (λ rk, rk ≡ₚ seq 0 C) rks →
  Forall (λ p : nat * nat, p.1 < C ∧ p.2 < C) (concat (map pairList rks)).
Proof.
  intros H. apply Forall_forall. intros [u v] Hin.
  apply list_elem_of_In, in_concat in Hin as (l & Hl & Hin).
  apply in_map_iff in Hl as (rk & <- & Hrk).
  rewrite Forall_forall in H. specialize (H rk ltac:(apply list_elem_of_In; exact Hrk)).
  apply list_elem_of_In, pairList_elem in Hin as [Hu Hv].
  rewrite H in Hu, Hv. apply list_elem_of_In, in_seq in Hu, Hv. cbn. lia.
Qed.

Lemma rankings_count (C : nat) (rks : list (list nat)) (a b : nat) :
  Forall (λ rk, rk ≡ₚ seq 0 C) rks → a < C → b < C → a ≠ b →
  countPair a b (concat (map pairList rks)) + countPair b a (concat (map pairList rks))
  = length rks.
Proof.
  intros H Ha Hb Hne. induction H as [|rk rks Hrk _ IH]; [reflexivity|].
  cbn [map concat length]. rewrite !countPair_app.
  assert (countPair a b (pairList rk) + countPair b a (pairList rk) = 1); [|lia].
  apply pair_count; [| exact Hne | |].
  - rewrite Hrk. apply NoDup_ListNoDup, seq_NoDup.
  - rewrite Hrk. apply list_elem_of_In, in_seq. lia.
  - rewrite Hrk. apply list_elem_of_In, in_seq. lia.
Qed.

Lemma written_nil (N : nat) :
  (replicate N Zero, replicate N Zero, 0) = written [] N.
Proof. unfold written. cbn [length map app]. rewrite Nat.sub_0_r. reflexivity. Qed.

Lemma mapM_total {A B} (f : A → option B) (h : A → B) (l : list A) :
  Forall (λ x, f x = Some (h x)) l → mapM f l = Some (map h l).
Proof.
  intros H. apply mapM_Some. induction H; cbn [map]; constructor; assumption.
Qed.

Lemma zip_split_map {A B} (f : list A) (s : list B) :
  length f = length s → f = map fst (zip f s) ∧ s = map snd (zip f s).
Proof.
  intros H. rewrite !map_fmap. split; symmetry.
  - apply fst_zip. lia.
  - apply snd_zip. lia.
Qed.

Section VoteRound.

Context {Proof Witness : Type}.
Variable Prove : Vote.VoteCircuit.t → Proof * Witness.
Variable Verify : Proof → Witness → bool.

Lemma round_honest (C Max D : nat) (rks : list (list nat))
    (clients : list Vote.ClientState)
    (rndPairs rndDummies : nat → nat) (publicR : Element) :
  2 ≤ C → (Z.of_nat C ≤ 2 ^ 64)%Z → clients ≠ [] →
  (Z.of_nat (length clients * (C * (C - 1) / 2)) < 2 ^ 64)%Z →
  Forall2 (honestClient C D) rks clients →
  ∃ res,
    Vote.round Prove Verify C Max D clients rndPairs rndDummies publicR = Some res
    ∧ Vote.submissions res
      = imap (Vote.submit Prove Max)
             (map (λ c, (withProd c publicR, assignmentOf c publicR)) clients)
    ∧ Vote.verified res = seq 0 (Max `min` length clients)
    ∧ Vote.productsEqual res = true
    ∧ Vote.comparisonVoteCnt res = matrixOf C (tallyOf rks)
    ∧ Vote.soleWinner res = winnerUpTo C (tallyOf rks) C
    ∧ ((Vote.NoSoleWinner ∈ Vote.output res) ↔ Vote.soleWinner res = (-1)%Z)
    ∧ (Vote.ComparisonNotCorrect ∉ Vote.output res)
    ∧ (Vote.ProductsNotEqual ∉ Vote.output res)
    ∧ Vote.clientProd res
      = fprod (map (λ c, Vote.PublicProd (withProd c publicR)) clients)
    ∧ Vote.shufflerProd res = Vote.clientProd res.
Proof.
  intros HC HC64 Hne HN Hall2.
  destruct (honest_rankings C D rks clients Hall2) as (Hrks & Hall & Hrl).
  set (n := C * (C - 1) / 2) in *.
  assert (Hn : 1 ≤ n).
  { unfold n. apply Nat.div_le_lower_bound; [lia|]. nia. }
  assert (Hcl : 1 ≤ length clients) by (destruct clients; [congruence|cbn; lia]).
  destruct (honest_all_votes C D rks clients Hall2) as (HV & HX).
  assert (Hlens : Forall (λ c, length (Vote.PairFirst c) = n
                               ∧ length (Vote.PairSecond c) = n) clients).
  { clear -Hall2. induction Hall2 as [|rk c rks clients Hc _ IH]; constructor; [|exact IH].
    destruct (honest_votes _ _ _ _ Hc) as (_ & _ & H1 & H2). split; assumption. }
  set (V := concat (map votesOf clients)) in *.
  assert (HVlen : length V = length clients * n) by (apply votes_length; exact Hlens).
  assert (HYlen : length (concat (map Vote.PrivateY clients)) = length clients * D).
  { clear -Hall. induction Hall as [|c cl (_ & _ & _ & _ & H5 & _) _ IH]; [reflexivity|].
    cbn [map concat length]. rewrite length_app, IH, H5. reflexivity. }
  unfold Vote.round.
  (* client 0 *)
  destruct (clients !! 0) as [c0|] eqn:E0;
    [|apply lookup_ge_None in E0; lia].
  cbn [mbind option_bind]. fold n.
  (* the votes *)
  rewrite written_nil, (copyVotes_all clients n Hlens) by (cbn [length]; lia).
  cbn [app]. fold V. rewrite <- HVlen, written_full.
  cbn [mbind option_bind].
  destruct (Shuffle_pairs rndPairs (map fst V) (map snd V)) as (f' & s' & -> & Hf' & Hs' & Hz).
  { rewrite !length_map. reflexivity. }
  cbn [mbind option_bind]. rewrite zip_fst_snd_map in Hz.
  rewrite length_map in Hf', Hs'.
  (* assignments *)
  rewrite (mapM_total _ (λ c, (withProd c publicR, assignmentOf c publicR)))
    by (eapply Forall_impl; [exact Hall|]; intros c Hc;
        apply (GenAssignment_wf C D); assumption).
  cbn [mbind option_bind].
  (* the dummies *)
  rewrite (copy_into_exact Zero) by exact HYlen.
  cbn [mbind option_bind].
  destruct (Shuffle_Permutation rndDummies (concat (map Vote.PrivateY clients)))
    as (dummies & Hd & Hdp).
  replace (length clients * D) with (length (concat (map Vote.PrivateY clients))).
  rewrite Hd. cbn [mbind option_bind].
  (* verification *)
  destruct (verifyAll_spec Prove Verify Max
              (map (λ c, (withProd c publicR, assignmentOf c publicR)) clients))
    as (outv & -> & Houtv).
  cbn [mbind option_bind]. rewrite length_map.
  (* the polynomial evaluations *)
  rewrite (packAll_zip C (length f') f' s') by lia.
  cbn [mbind option_bind].
  assert (Hpv : map (λ p, Vote.pack C p.1 p.2) (zip f' s')
                ≡ₚ concat (map Vote.PrivateX clients)).
  { rewrite HX. apply Permutation_map. exact Hz. }
  unfold prodFromShuffler.
  rewrite PolyEval_nonempty.
  2:{ intros E. apply (f_equal length) in E.
      rewrite length_map, length_zip_with in E. cbn [length] in E. nia. }
  cbn [mbind option_bind].
  pose proof (prodFromClient_spec Prove Max
    (map (λ c, (withProd c publicR, assignmentOf c publicR)) clients)) as Hpc.
  rewrite length_map in Hpc. rewrite Hpc. clear Hpc. cbn [mbind option_bind].
  rewrite map_map. cbn [fst withProd Vote.PublicProd].
  assert (Heq : Equal (fold_left Mul dummies
                        (Fingerprint (map (λ p, Vote.pack C p.1 p.2) (zip f' s')) publicR))
                      (fprod (map (λ c, Mul (Fingerprint (Vote.PrivateX c) publicR)
                                             (Vote.PrivateMask c)) clients)) = true).
  { apply Equal_eq. rewrite fold_left_Mul.
    rewrite (Fingerprint_Permutation _ _ publicR Hpv), (fprod_Permutation _ _ Hdp).
    rewrite <- fprod_fingerprints. f_equal. apply map_ext_in.
    intros c Hc. rewrite Forall_forall in Hall.
    destruct (Hall c ltac:(apply list_elem_of_In; exact Hc)) as (_ & _ & _ & _ & _ & H6).
    rewrite H6, maskOf_fprod. reflexivity. }
  rewrite Heq. apply Equal_eq in Heq.
  (* the tally *)
  rewrite HV in Hz. apply Permutation_map_inv in Hz as (NP & HNP & HNPp).
  destruct (zip_split_map f' s' ltac:(lia)) as [Ef Es].
  rewrite HNP, map_map in Ef, Es. cbn [cc fst snd] in Ef, Es.
  assert (HNPlen : length NP = length clients * n).
  { rewrite <- (Permutation_length HNPp), <- HVlen, HV, length_map. reflexivity. }
  clear Hpv Hf' Hs'. rewrite Ef, Es in Heq |- *. clear Ef Es.
  rewrite (tally_count C NP HC64).
  2:{ rewrite HNPlen. exact HN. }
  2:{ rewrite <- HNPp. apply rankings_entries. exact Hrks. }
  cbn [mbind option_bind].
  assert (Hm : matrixOf C (λ a b, Z.of_nat (countPair a b NP)) = matrixOf C (tallyOf rks)).
  { apply matrixOf_ext. intros a b _ _. unfold tallyOf.
    rewrite (countPair_Permutation _ _ _ _ HNPp). reflexivity. }
  rewrite Hm. clear Hm.
  assert (Hbal : balanced C (tallyOf rks) (Z.of_nat (length clients))).
  { intros i j Hi Hj Hij. unfold tallyOf.
    pose proof (rankings_count C rks i j Hrks Hi Hj Hij).
    rewrite Z.mod_small; [lia|]. nia. }
  destruct (findSoleWinner_spec C (tallyOf rks) (Z.of_nat (length clients)))
    as (outw & -> & Hq & Hcnc).
  cbn [mbind option_bind].
  eexists. split; [reflexivity|].
  cbn [Vote.submissions Vote.verified Vote.productsEqual Vote.comparisonVoteCnt
       Vote.soleWinner Vote.output Vote.clientProd Vote.shufflerProd].
  assert (Hv : ∀ e, e ∈ outv → isVerificationError e).
  { intros e He. rewrite Forall_forall in Houtv. auto. }
  pose proof (quiet_not_NoSoleWinner outw Hq) as Hq1.
  pose proof (quiet_not_ProductsNotEqual outw Hq) as Hq2.
  specialize (Hcnc Hbal).
  repeat split; try reflexivity.
  - destruct (Z.eqb_spec (winnerUpTo C (tallyOf rks) C) (-1)) as [E|E]; [intros _; exact E|].
    intros [H|H]%elem_of_app; [|contradiction].
    apply Hv in H as [i H]. discriminate.
  - intros E. rewrite E. cbn. apply elem_of_app. right. apply elem_of_app. right.
    apply list_elem_of_singleton. reflexivity.
  - intros [H|H]%elem_of_app; [apply Hv in H as [i H]; discriminate|].
    destruct (winnerUpTo C (tallyOf rks) C =? -1)%Z; [|contradiction].
    apply elem_of_app in H as [H|H%list_elem_of_singleton]; [contradiction|discriminate].
  - intros [H|H]%elem_of_app; [apply Hv in H as [i H]; discriminate|].
    destruct (winnerUpTo C (tallyOf rks) C =? -1)%Z; [|contradiction].
    apply elem_of_app in H as [H|H%list_elem_of_singleton]; [contradiction|discriminate].
  - exact Heq.
Qed.

Lemma tallyOf_balanced (C : nat) (rks : list (list nat)) (i j : nat) :
  Forall (λ rk, rk ≡ₚ seq 0 C) rks → i < C → j < C → i ≠ j →
  (tallyOf rks i j + tallyOf rks j i)%Z = Z.of_nat (length rks).
Proof.
  intros Hrks Hi Hj Hij. unfold tallyOf.
  pose proof (rankings_count C rks i j Hrks Hi Hj Hij). lia.
Qed.

End VoteRound.

(** ** The sum variant, end to end *)

Lemma newClient_honest (k D : nat) (s : Z) (shareRnd maskRnd : nat → Element) :
  1 ≤ k →
  ∃ c, SumCmp.newClient k D s shareRnd maskRnd = Some c ∧ honest c
       ∧ SumCmp.splittedSecretVal c = sharesOf s shareRnd (k - 1).
Proof.
  intros Hk. unfold SumCmp.newClient. rewrite split_closed_form by exact Hk.
  cbn [mbind option_bind]. eexists. split; [reflexivity|]. split; [|reflexivity].
  split; cbn; [discriminate|reflexivity].
Qed.

Lemma newClients_honest (k D : nat) (secretVal : nat → Z)
    (shareRnd maskRnd : nat → nat → Element) (l : list nat) :
  1 ≤ k →
  ∃ clients,
    mapM (λ i, SumCmp.newClient k D (secretVal i) (shareRnd i) (maskRnd i)) l
    = Some clients
    ∧ length clients = length l ∧ Forall honest clients
    ∧ map SumCmp.splittedSecretVal clients
      = map (λ i, sharesOf (secretVal i) (shareRnd i) (k - 1)) l.
Proof.
  intros Hk. induction l as [|i l (clients & IH1 & IH2 & IH3 & IH4)].
  - exists []. repeat split; constructor.
  - destruct (newClient_honest k D (secretVal i) (shareRnd i) (maskRnd i) Hk)
      as (c & Hc & Hh & Hs).
    exists (c :: clients). split; [|split; [|split]].
    + apply mapM_Some. constructor; [exact Hc|]. apply mapM_Some. exact IH1.
    + cbn [length]. rewrite IH2. reflexivity.
    + constructor; assumption.
    + cbn [map]. rewrite IH4, Hs. reflexivity.
Qed.

Lemma fsum_concat (ls : list (list Element)) :
  fsum (concat ls) = fsum (map fsum ls).
Proof.
  induction ls as [|l ls IH]; [reflexivity|].
  cbn [concat map fsum foldr]. rewrite fsum_app, IH. reflexivity.
Qed.

Lemma fsum_NewElement (sv : nat → Z) (l : list nat) :
  fsum (map (λ i, NewElement (sv i)) l)
  = Zmod.of_Z q (fold_right (λ i acc, (sv i mod 2 ^ 64 + acc)%Z) 0%Z l).
Proof.
  induction l as [|i l IH]; [reflexivity|].
  cbn [map fsum foldr fold_right]. fold (fsum (map (λ i, NewElement (sv i)) l)).
  rewrite IH. unfold Add, NewElement. rewrite <- Zmod.of_Z_add. reflexivity.
Qed.

Lemma sum_const (s : Z) (l : list nat) :
  fold_right (λ (_ : nat) acc, (s + acc)%Z) 0%Z l = (Z.of_nat (length l) * s)%Z.
Proof.
  induction l as [|i l IH]; [reflexivity|].
  cbn [fold_right length]. rewrite IH. lia.
Qed.

Lemma thresholdClause_shares (k : nat) (s T : Z) (rnd : nat → Element) :
  SumCmp.thresholdClause (sharesOf s rnd k) (NewElement T)
  = Some (s mod 2 ^ 64 <=? T mod 2 ^ 64)%Z.
Proof.
  unfold SumCmp.thresholdClause.
  rewrite circuitSum_fsum by (unfold sharesOf; discriminate).
  cbn [mbind option_bind]. rewrite sharesOf_fsum, !to_Z_NewElement. reflexivity.
Qed.

Lemma prodClause_honest (c : SumCmp.Client) (r : Element) :
  honest c →
  SumCmp.prodClause (SumCmp.splittedSecretVal c) (SumCmp.secretMask c) r
                    (honestProd r c) = Some true.
Proof.
  intros [Hc1 Hc2]. unfold SumCmp.prodClause.
  change (PolyEvalInCircuit (SumCmp.splittedSecretVal c) r)
    with (PolyEval (SumCmp.splittedSecretVal c) r).
  rewrite PolyEval_nonempty by exact Hc1. cbn [mbind option_bind].
  unfold honestProd. rewrite Hc2, maskOf_fprod, Equal_refl. reflexivity.
Qed.

(** On the assignment of a client that can answer the challenge, the
    circuit decides the threshold clause: the two other clauses hold. *)
Lemma Define_honest (mimc : list Element → Element) (T : Z) (r salt : Element)
    (c : SumCmp.Client) :
  honest c →
  SumCmp.Define mimc
    (SumCmp.assignment T (SumCmp.splittedSecretVal c) r (honestProd r c)
       (SumCmp.secretMask c)
       (SumCmp.commitment mimc (SumCmp.splittedSecretVal c) (SumCmp.secretMask c) salt)
       salt)
  = SumCmp.thresholdClause (SumCmp.splittedSecretVal c) (NewElement T).
Proof.
  intros Hc. unfold SumCmp.Define, SumCmp.assignment, SumCmp.commitment.
  cbn [SumCmp.sumAndCmpCircuit.PrivateVec SumCmp.sumAndCmpCircuit.PublicThreshold
       SumCmp.sumAndCmpCircuit.PrivateMask SumCmp.sumAndCmpCircuit.PublicR
       SumCmp.sumAndCmpCircuit.PublicProd SumCmp.sumAndCmpCircuit.PublicCommitment
       SumCmp.sumAndCmpCircuit.PrivateSalt].
  rewrite (prodClause_honest c r Hc), Equal_refl.
  destruct (SumCmp.thresholdClause _ _) as [b|]; [|reflexivity].
  cbn [mbind option_bind]. rewrite !andb_true_r. reflexivity.
Qed.

Section SumRun.

(** The prover of the sum variant gives a proof exactly when the circuit,
    whose MiMC computes the hash of the commitment, accepts the
    assignment. *)
Context {Proof : Type}.
Variable MiMC : list Element → Element.
Variable Prove : SumCmp.sumAndCmpCircuit.t → option Proof.
Variable Verify : Proof → list Element → bool.
Hypothesis Hprove : ∀ a, is_Some (Prove a) ↔ SumCmp.Define MiMC a = Some true.

Lemma proved_iff (T : Z) (r : Element) (salt : nat → Element) (i : nat)
    (c : SumCmp.Client) :
  honest c →
  proved MiMC Prove T r salt i c
  ↔ SumCmp.thresholdClause (SumCmp.splittedSecretVal c) (NewElement T) = Some true.
Proof using Hprove.
  intros Hc. rewrite <- (Define_honest MiMC T r (salt i) c Hc), <- Hprove.
  destruct (clientSubmission_honest MiMC Prove T r salt i c Hc) as (s & Hs & _ & Hp).
  unfold proved. rewrite Hs, <- Hp. split.
  - intros (s' & p & [= <-] & Hp'). eexists. exact Hp'.
  - intros [p Hp']. exists s, p. split; [reflexivity|exact Hp'].
Qed.

(** The whole of [ShuffleZKGroth16]: when every secret is at most the
    threshold the server finds the sets the same and prints the sum of the
    secrets; when one secret is above it the run panics. *)
Lemma ShuffleZKGroth16_run (T : Z) (n k D : nat) (secretVal : nat → Z)
    (shareRnd maskRnd : nat → nat → Element) (salt : nat → Element)
    (rndVal rndMask : nat → nat) (publicRFr : Element) :
  1 ≤ n → 1 ≤ k →
  ((∀ i, i < n → (secretVal i mod 2 ^ 64 ≤ T mod 2 ^ 64)%Z) →
   ∃ errs,
     SumCmp.ShuffleZKGroth16 MiMC Prove Verify T n k D secretVal shareRnd maskRnd salt
                             rndVal rndMask publicRFr
     = Some {| SumCmp.verificationErrors := errs; SumCmp.setsEqual := true;
               SumCmp.sum := Uint64 (fsum (map (λ i, NewElement (secretVal i))
                                               (seq 0 n))) |})
  ∧ ((∃ i, i < n ∧ (T mod 2 ^ 64 < secretVal i mod 2 ^ 64)%Z) →
     SumCmp.ShuffleZKGroth16 MiMC Prove Verify T n k D secretVal shareRnd maskRnd salt
                             rndVal rndMask publicRFr = None).
Proof using Hprove.
  intros Hn Hk. unfold SumCmp.ShuffleZKGroth16.
  destruct (newClients_honest k D secretVal shareRnd maskRnd (seq 0 n) Hk)
    as (clients & -> & Hlen & Hh & Hs).
  cbn [mbind option_bind]. rewrite length_seq in Hlen.
  assert (Hne : clients ≠ []) by (destruct clients; [cbn in Hlen; lia|discriminate]).
  assert (Hcl : ∀ i c, clients !! i = Some c →
            i < n ∧ (proved MiMC Prove T publicRFr salt i c
                     ↔ (secretVal i mod 2 ^ 64 ≤ T mod 2 ^ 64)%Z)).
  { intros i c Hc.
    assert (Hi : i < n) by (rewrite <- Hlen; apply lookup_lt_is_Some; eexists; exact Hc).
    split; [exact Hi|].
    rewrite proved_iff by (apply (proj1 (Forall_lookup _ _) Hh i c Hc)).
    assert (E : SumCmp.splittedSecretVal c
                = sharesOf (secretVal i) (shareRnd i) (k - 1)).
    { pose proof (f_equal (λ l, l !! i) Hs) as E. cbn beta in E.
      rewrite !map_fmap, !list_lookup_fmap, Hc, lookup_seq_lt in E by exact Hi.
      cbn in E. injection E as E. exact E. }
    rewrite E, thresholdClause_shares. split.
    - intros [= H]. apply Z.leb_le. exact H.
    - intros H. f_equal. apply Z.leb_le. exact H. }
  destruct (serverRound_honest MiMC Prove Verify T clients salt rndVal rndMask
              publicRFr Hne Hh) as [HA HB].
  split.
  - intros Hle. destruct HA as (errs & vals & Hp & ->).
    { intros i c Hc. destruct (Hcl i c Hc) as [Hi Hiff]. apply Hiff, Hle, Hi. }
    exists errs. f_equal. f_equal. unfold SumCmp.computedSum. f_equal.
    rewrite fold_left_Add, NewElement_0, (fsum_Permutation _ _ Hp), fsum_concat, Hs.
    rewrite map_map.
    transitivity (fsum (map (λ i, NewElement (secretVal i)) (seq 0 n))); [|reflexivity].
    replace (map (λ x, fsum (sharesOf (secretVal x) (shareRnd x) (k - 1))) (seq 0 n))
      with (map (λ i, NewElement (secretVal i)) (seq 0 n))
      by (apply map_ext; intros i; symmetry; apply sharesOf_fsum).
    ring.
  - intros (i & Hi & Hgt).
    destruct (SumCmp.serverRound MiMC Prove Verify T clients salt rndVal rndMask
                publicRFr) as [res|] eqn:E; [|reflexivity].
    exfalso. destruct (HB res eq_refl) as [_ Hall].
    destruct (lookup_lt_is_Some_2 clients i ltac:(lia)) as [c Hc].
    destruct (Hcl i c Hc) as [_ Hiff]. apply Hiff in Hall; [lia|exact Hc].
Qed.

End SumRun.


(** ** Tamper detection *)

Lemma One_neq_Zero : One ≠ Zero.
Proof. apply Zmod.one_neq_zero. vm_compute. discriminate. Qed.

Lemma fprod_nonzero (l : list Element) :
  Forall (λ d, d ≠ Zero) l → fprod l ≠ Zero.
Proof.
  induction 1 as [|d l Hd _ IH]; cbn [fprod foldr]; [exact One_neq_Zero|].
  intros H. apply Mul_eq_Zero in H as [H|H]; [exact (Hd H)|exact (IH H)].
Qed.

Lemma Fingerprint_zero (l : list Element) (r : Element) :
  Fingerprint l r = Zero → ∃ v, v ∈ l ∧ Add v r = Zero.
Proof.
  unfold Fingerprint. induction l as [|v l IH]; cbn [map fprod foldr].
  - intros H. destruct (One_neq_Zero H).
  - intros H. apply Mul_eq_Zero in H as [H|H].
    + exists v. split; [left|exact H].
    + destruct (IH H) as (w & Hw & E). exists w. split; [right; exact Hw|exact E].
Qed.

Lemma Fingerprint_cons (v : Element) (l : list Element) (r : Element) :
  Fingerprint (v :: l) r = Mul (Add v r) (Fingerprint l r).
Proof. reflexivity. Qed.

(** A challenge accepted after one value was replaced is the opposite of
    one of the other values. *)
Lemma tampered_challenge (pre post : list Element) (x x' r : Element) :
  x' ≠ x →
  Fingerprint (pre ++ x' :: post) r = Fingerprint (pre ++ x :: post) r →
  r ∈ map (Zmod.opp (m:=q)) (pre ++ post).
Proof.
  intros Hne H. rewrite !Fingerprint_app, !Fingerprint_cons in H.
  assert (H0 : Mul (Fingerprint (pre ++ post) r) (Sub x' x) = Zero).
  { rewrite Fingerprint_app.
    transitivity (Sub (Mul (Fingerprint pre r) (Mul (Add x' r) (Fingerprint post r)))
                      (Mul (Fingerprint pre r) (Mul (Add x r) (Fingerprint post r))));
      [ring|]. rewrite H. ring. }
  apply Mul_eq_Zero in H0 as [H0|H0].
  - destruct (Fingerprint_zero _ _ H0) as (v & Hv & E).
    rewrite map_fmap. apply list_elem_of_fmap. exists v. split; [|exact Hv].
    transitivity (Sub (Add v r) v); [ring|]. rewrite E. ring.
  - exfalso. apply Hne. transitivity (Add (Sub x' x) x); [ring|]. rewrite H0. ring.
Qed.

Lemma accepts_tampered (clients : list SumCmp.Client) (flat dummies : list Element)
    (k : nat) (x x' r : Element) :
  Forall honest clients →
  flat ≡ₚ concat (map SumCmp.splittedSecretVal clients) →
  dummies ≡ₚ concat (map SumCmp.splittedSecretMask clients) →
  flat !! k = Some x → x' ≠ x → Forall (λ d, d ≠ Zero) dummies →
  accepts clients (<[k:=x']> flat) dummies r →
  r ∈ map (Zmod.opp (m:=q)) (take k flat ++ drop (S k) flat).
Proof.
  intros Hh Hv Hd Hk Hne Hnz (pp & Hpp & Hc).
  rewrite (allProof_honest clients r Hh) in Hpp. injection Hpp as <-.
  pose proof (lookup_lt_Some _ _ _ Hk) as Hlt.
  unfold ConsistencyCheck, prodFromShuffler in Hc.
  rewrite PolyEval_nonempty in Hc
    by (intros E; apply (f_equal length) in E; rewrite length_insert in E;
        cbn [length] in E; lia).
  cbn [mbind option_bind] in Hc. injection Hc as Hc. apply Equal_eq in Hc.
  rewrite fold_left_Mul, prodFromClients_fprod, fprod_honestProd in Hc.
  rewrite <- (Fingerprint_Permutation _ _ r Hv), <- (fprod_Permutation _ _ Hd) in Hc.
  apply Mul_cancel_r in Hc; [|apply fprod_nonzero; exact Hnz].
  rewrite insert_take_drop in Hc by exact Hlt.
  rewrite <- (take_drop_middle flat k x Hk) in Hc at 3.
  apply (tampered_challenge _ _ x x' r Hne Hc).
Qed.

Lemma slice_set_map {A B} (f : A → B) (l : list A) (i : nat) (x : A) :
  slice_set (map f l) i (f x) = option_map (map f) (slice_set l i x).
Proof.
  unfold slice_set. rewrite length_map.
  destruct (decide (i < length l)); [|reflexivity].
  cbn [option_map]. rewrite !map_fmap, list_fmap_insert. reflexivity.
Qed.

Lemma swapElems_map {A B} (f : A → B) (i j : nat) (l : list A) :
  swapElems i j (map f l) = option_map (map f) (swapElems i j l).
Proof.
  unfold swapElems. rewrite !map_fmap, !list_lookup_fmap.
  destruct (l !! i) as [x|]; [|reflexivity].
  destruct (l !! j) as [y|]; [|reflexivity].
  cbn [fmap option_fmap option_map mbind option_bind].
  rewrite <- !map_fmap, slice_set_map.
  destruct (slice_set l i y) as [l'|]; [|reflexivity].
  cbn [option_map mbind option_bind]. apply slice_set_map.
Qed.

Lemma Shuffle_map {A B} (f : A → B) (rnd : nat → nat) (n : nat) (l : list A) :
  Shuffle rnd n swapElems (map f l)
  = option_map (map f) (Shuffle rnd n swapElems l).
Proof.
  unfold Shuffle.
  change (Some (map f l)) with (option_map (map f) (Some l)).
  generalize (Some l). induction (rev (seq 1 (n - 1))) as [|i rest IH]; intros o.
  - reflexivity.
  - cbn [fold_left]. rewrite <- IH. f_equal.
    destruct o as [s|]; [|reflexivity].
    cbn [option_map mbind option_bind]. apply swapElems_map.
Qed.

Lemma rankingOf_Permutation (C : nat) (rnd : nat → nat) :
  Shuffle rnd C swapElems (seq 0 C) = Some (rankingOf C rnd)
  ∧ rankingOf C rnd ≡ₚ seq 0 C.
Proof.
  unfold rankingOf.
  destruct (Shuffle_Permutation rnd (seq 0 C)) as (l' & H & Hp).
  rewrite length_seq in H. rewrite H. split; [reflexivity|exact Hp].
Qed.

Lemma Init_honest (MiMC : list Element → Element) (C D : nat)
    (rankRnd : nat → nat) (dummyRnd : nat → Element) (salt : Element) :
  ∃ c, Vote.Init MiMC C D rankRnd dummyRnd salt = Some c
       ∧ honestClient C D (rankingOf C rankRnd) c.
Proof.
  unfold Vote.Init.
  destruct (rankingOf_Permutation C rankRnd) as [Hs Hp].
  rewrite length_map, length_seq.
  change (λ i : nat, NewElement (Z.of_nat i)) with candidate.
  rewrite Shuffle_map, Hs. cbn [option_map mbind option_bind].
  destruct (initFrom_wf MiMC C D (map candidate (rankingOf C rankRnd)) dummyRnd salt)
    as (c & -> & Hwf & Hsc).
  - rewrite length_map, (Permutation_length Hp), length_seq. reflexivity.
  - exists c. split; [reflexivity|]. split; [exact Hwf|]. split; assumption.
Qed.

Lemma Init_all (MiMC : list Element → Element) (C D : nat)
    (rankRnd : nat → nat → nat) (dummyRnd : nat → nat → Element)
    (salt : nat → Element) (l : list nat) :
  ∃ clients,
    mapM (λ i, Vote.Init MiMC C D (rankRnd i) (dummyRnd i) (salt i)) l = Some clients
    ∧ Forall2 (honestClient C D) (map (λ i, rankingOf C (rankRnd i)) l) clients.
Proof.
  induction l as [|i l (clients & IH & Hall)].
  - exists []. split; [reflexivity|constructor].
  - destruct (Init_honest MiMC C D (rankRnd i) (dummyRnd i) (salt i)) as (c & Hc & Hh).
    exists (c :: clients). split.
    + apply mapM_Some. constructor; [exact Hc|]. apply mapM_Some. exact IH.
    + cbn [map]. constructor; assumption.
Qed.

Lemma tallyAt_matrixOf (C : nat) (g : nat → nat → Z) (i j : nat) :
  i < C → j < C → tallyAt (matrixOf C g) i j = g i j.
Proof.
  intros Hi Hj. unfold tallyAt. rewrite matrixOf_at by assumption. reflexivity.
Qed.

Section VoteRun.

Context {Proof Witness : Type}.
Variable MiMC : list Element → Element.
Variable Prove : Vote.VoteCircuit.t → Proof * Witness.
Variable Verify : Proof → Witness → bool.

Lemma VoteGroth16_run (C n Max D : nat)
    (rankRnd : nat → nat → nat) (dummyRnd : nat → nat → Element)
    (salt : nat → Element) (rndPairs rndDummies : nat → nat) (publicR : Element) :
  2 ≤ C → (Z.of_nat C ≤ 2 ^ 64)%Z → 1 ≤ n →
  (Z.of_nat (n * (C * (C - 1) / 2)) < 2 ^ 64)%Z →
  ∃ clients res,
    mapM (λ i, Vote.Init MiMC C D (rankRnd i) (dummyRnd i) (salt i)) (seq 0 n)
      = Some clients
    ∧ length clients = n
    ∧ Vote.VoteGroth16 MiMC Prove Verify C n Max D rankRnd dummyRnd salt
                       rndPairs rndDummies publicR = Some res
    ∧ Vote.submissions res
      = imap (Vote.submit Prove Max)
             (map (λ c, (withProd c publicR, assignmentOf c publicR)) clients)
    ∧ Vote.verified res = seq 0 (Max `min` n)
    ∧ Vote.productsEqual res = true
    ∧ Vote.comparisonVoteCnt res = matrixOf C (tallyOf (rankingsOf C n rankRnd))
    ∧ Vote.soleWinner res = winnerUpTo C (tallyOf (rankingsOf C n rankRnd)) C
    ∧ ((Vote.NoSoleWinner ∈ Vote.output res) ↔ Vote.soleWinner res = (-1)%Z)
    ∧ (Vote.ComparisonNotCorrect ∉ Vote.output res)
    ∧ (Vote.ProductsNotEqual ∉ Vote.output res)
    ∧ Vote.clientProd res
      = fprod (map (λ c, Vote.PublicProd (withProd c publicR)) clients)
    ∧ Vote.shufflerProd res = Vote.clientProd res.
Proof.
  intros HC HC64 Hn HN.
  destruct (Init_all MiMC C D rankRnd dummyRnd salt (seq 0 n)) as (clients & Hcl & Hall).
  assert (Hlen : length clients = n).
  { apply Forall2_length in Hall. rewrite length_map, length_seq in Hall. lia. }
  destruct (round_honest Prove Verify C Max D (rankingsOf C n rankRnd) clients
              rndPairs rndDummies publicR HC HC64) as (res & Hres & H).
  - intros ->. cbn [length] in Hlen. lia.
  - rewrite Hlen. exact HN.
  - exact Hall.
  - exists clients, res. split; [exact Hcl|]. split; [exact Hlen|].
    split; [unfold Vote.VoteGroth16; rewrite Hcl; exact Hres|].
    rewrite Hlen in H. exact H.
Qed.

End VoteRun.

(** ** Conversions to [float64] are finite *)

Section Float64Proofs.
Local Open Scope Z_scope.

Lemma digits2_pos_bounds (p : positive) :
  2 ^ (Zpos (digits2_pos p) - 1) <= Zpos p < 2 ^ Zpos (digits2_pos p).
Proof.
  induction p as [p IH|p IH|]; cbn [digits2_pos].
  - rewrite Pos2Z.inj_succ. replace (Z.succ (Zpos (digits2_pos p)) - 1) with (Zpos (digits2_pos p)) by lia.
    rewrite Z.pow_succ_r by lia.
    replace (Zpos (digits2_pos p)) with (Z.succ (Zpos (digits2_pos p) - 1)) at 1 by lia.
    rewrite Z.pow_succ_r by lia. lia.
  - rewrite Pos2Z.inj_succ. replace (Z.succ (Zpos (digits2_pos p)) - 1) with (Zpos (digits2_pos p)) by lia.
    rewrite Z.pow_succ_r by lia.
    replace (Zpos (digits2_pos p)) with (Z.succ (Zpos (digits2_pos p) - 1)) at 1 by lia.
    rewrite Z.pow_succ_r by lia. lia.
  - cbn. lia.
Qed.

Lemma Zdigits2_le (z k : Z) : 0 <= z < 2 ^ k → 0 <= k → 0 <= Zdigits2 z <= k.
Proof.
  intros Hz Hk. destruct z as [|p|p]; cbn [Zdigits2]; [lia| |lia].
  pose proof (digits2_pos_bounds p) as [Hlo _].
  split; [lia|].
  destruct (Z_le_gt_dec (Zpos (digits2_pos p)) k) as [|Hgt]; [assumption|exfalso].
  assert (2 ^ k <= 2 ^ (Zpos (digits2_pos p) - 1)) by (apply Z.pow_le_mono_r; lia).
  lia.
Qed.

Lemma shr_1_bound (M : Z) (mrs : shr_record) :
  0 <= shr_m mrs <= M → 0 <= shr_m (shr_1 mrs) <= M.
Proof.
  destruct mrs as [m r s]. cbn [shr_m]. intros H.
  destruct m as [|[p|p|]|p]; cbn [shr_1 shr_m]; lia.
Qed.

Lemma iter_pos_invariant {A} (I : A → Prop) (f : A → A) :
  (∀ x, I x → I (f x)) → ∀ n x, I x → I (SpecFloat.iter_pos f n x).
Proof.
  intros Hf n. induction n as [n IH|n IH|]; intros x Hx; cbn [SpecFloat.iter_pos]; auto.
Qed.

Lemma shr_bound (M : Z) (mrs : shr_record) (e n : Z) :
  0 <= shr_m mrs <= M →
  0 <= shr_m (fst (shr mrs e n)) <= M ∧ snd (shr mrs e n) = Z.max e (e + n).
Proof.
  intros H. destruct n as [|p|p]; cbn [shr fst snd]; [split; [exact H|lia]| |split; [exact H|lia]].
  split; [|lia].
  apply (iter_pos_invariant (λ mrs, 0 <= shr_m mrs <= M)); [|exact H].
  intros x. apply shr_1_bound.
Qed.

Lemma shr_fexp_bound (k m e : Z) (l : location) :
  0 <= m < 2 ^ k → 0 <= k →
  0 <= shr_m (fst (shr_fexp prec emax m e l)) < 2 ^ k
  ∧ snd (shr_fexp prec emax m e l) <= Z.max (Z.max e (k + e - 53)) (-1074).
Proof.
  intros Hm Hk. unfold shr_fexp.
  destruct (shr_bound (2 ^ k - 1) (shr_record_of_loc m l) e
              (fexp prec emax (Zdigits2 m + e) - e)) as [H1 H2].
  { destruct l as [|[]]; cbn [shr_record_of_loc shr_m]; lia. }
  split; [lia|]. rewrite H2.
  pose proof (Zdigits2_le m k Hm Hk). unfold fexp, SpecFloat.emin, prec, emax.
  change IntDef.Z.max with Z.max. lia.
Qed.

Lemma round_nearest_even_bound (m : Z) (l : location) :
  0 <= m → 0 <= round_nearest_even m l <= m + 1.
Proof.
  intros H. destruct l as [|[]]; cbn [round_nearest_even]; try lia.
  destruct (Z.even m); lia.
Qed.

Lemma binary_round_aux_finite (k : Z) (s : bool) (m e : Z) (l : location) :
  0 <= m < 2 ^ k → 0 <= k <= 1000 → Z.max e (k + e - 53) + (k + 1) <= 971 →
  is_finite (binary_round_aux prec emax s m e l) = true.
Proof.
  intros Hm [Hk Hk'] He. unfold binary_round_aux.
  destruct (shr_fexp_bound k m e l Hm Hk) as [H1 H2].
  destruct (shr_fexp prec emax m e l) as [mrs' e']. cbn [fst snd] in H1, H2.
  pose proof (round_nearest_even_bound (shr_m mrs') (loc_of_shr_record mrs') ltac:(lia)) as Hr.
  destruct (shr_fexp_bound (k + 1) (round_nearest_even (shr_m mrs') (loc_of_shr_record mrs'))
              e' loc_Exact) as [H3 H4].
  { rewrite Z.pow_add_r by lia. lia. }
  { lia. }
  destruct (shr_fexp prec emax _ e' loc_Exact) as [mrs'' e'']. cbn [fst snd] in H3, H4.
  destruct (shr_m mrs'') as [|p|p]; [reflexivity| |lia].
  replace (e'' <=? emax - prec) with true; [reflexivity|].
  symmetry. apply Z.leb_le. unfold emax, prec. lia.
Qed.

Lemma digits2_pos_iter_xO (m k : positive) :
  Zpos (digits2_pos (Pos.iter xO m k)) = Zpos (digits2_pos m) + Zpos k.
Proof.
  induction k as [|k IH] using Pos.peano_ind.
  - cbn [Pos.iter digits2_pos]. lia.
  - rewrite Pos.iter_succ. cbn [digits2_pos]. lia.
Qed.

Lemma float64_of_uint64_finite (x : Z) :
  0 <= x < 2 ^ 64 → is_finite (float64_of_uint64 x) = true.
Proof.
  intros Hx. unfold float64_of_uint64. destruct x as [|m|m]; [reflexivity| |lia].
  cbn [binary_normalize]. unfold binary_round.
  pose proof (Zdigits2_le (Zpos m) 64 Hx ltac:(lia)) as Hd. cbn [Zdigits2] in Hd.
  unfold shl_align.
  destruct (fexp prec emax (Zpos (digits2_pos m) + 0) - 0) as [|d|d] eqn:E.
  - apply (binary_round_aux_finite 64); lia.
  - apply (binary_round_aux_finite 64); lia.
  - pose proof (digits2_pos_iter_xO m d) as Hi.
    pose proof (digits2_pos_bounds (Pos.iter xO m d)) as [_ Hu].
    unfold fexp, SpecFloat.emin, prec, emax in E |- *.
    apply (binary_round_aux_finite 64).
    + split; [lia|]. eapply Z.lt_le_trans; [exact Hu|].
      apply Z.pow_le_mono_r; lia.
    + lia.
    + lia.
Qed.

Lemma float64_of_uint64_sign (x : Z) :
  0 <= x < 2 ^ 64 →
  float64_of_uint64 x = S754_zero false
  ∨ ∃ m e, float64_of_uint64 x = S754_finite false m e.
Proof.
  intros Hx. pose proof (float64_of_uint64_finite x Hx) as Hf.
  unfold float64_of_uint64 in *. destruct x as [|m|m]; [left; reflexivity| |lia].
  cbn [binary_normalize] in *. unfold binary_round in *.
  destruct (shl_align m 0 _) as [mz ez]. unfold binary_round_aux in *.
  destruct (shr_fexp prec emax (Zpos mz) ez loc_Exact) as [mrs' e'].
  destruct (shr_fexp prec emax _ e' loc_Exact) as [mrs'' e''].
  destruct (shr_m mrs'') as [|p|p]; [left; reflexivity| |discriminate].
  destruct (e'' <=? emax - prec); [|discriminate].
  right. eauto.
Qed.

End Float64Proofs.

(** * The claims *)

(** ** C1: the consistency check of an honest round *)

Lemma answered_honest (clients : list SumCmp.Client) (r : Element)
    (allProof : list Element) :
  Forall (λ c, SumCmp.secretMask c = maskOf (SumCmp.splittedSecretMask c)) clients →
  mapM (λ c, SumCmp.publicProd (SumCmp.splittedSecretVal c) r (SumCmp.secretMask c))
       clients = Some allProof →
  Forall honest clients.
Proof.
  intros Hm Hp. apply mapM_Some in Hp.
  induction Hp as [|c p clients pp Hc _ IH]; [constructor|].
  inversion Hm as [|? ? Hmc Hm']; subst.
  constructor; [|apply IH; exact Hm'].
  split; [|exact Hmc].
  intros E. rewrite E in Hc. discriminate.
Qed.

(** The stand-in prover of the examples keeps the contract of the prover. *)
Lemma ProveSum_contract (a : SumCmp.sumAndCmpCircuit.t) :
  is_Some (Example.ProveSum a) ↔ SumCmp.Define Example.MiMC a = Some true.
Proof.
  unfold Example.ProveSum. destruct (SumCmp.Define Example.MiMC a) as [[|]|]; split;
    try reflexivity; try discriminate; try (intros [x Hx]; discriminate).
  intros _. eexists. reflexivity.
Qed.

(** C1.  In an honest round the consistency check of the server succeeds.
    Sum variant: when every client has computed its public product
    [PolyEval(values, r) * mask], its mask being the product of its dummies,
    and [vals] and [dummies] are permutations of the concatenated values
    and dummies, [ConsistencyCheck] returns true, for every choice of the
    values, the dummies and the challenge [r].  So it does in the round of
    [ShuffleZKGroth16] with the shuffles of [rand.Shuffle], whatever the
    threshold, the prover and the verifier: the round reaches the check
    when every client has obtained a proof, and whenever it reaches the
    check it finds the two sets the same; it reaches the check only when
    every client has obtained a proof, a nil proof being a panic.  Voting
    variant: every run of [VoteGroth16] finds the product from the shuffler
    equal to the product of the clients' [PublicProd]. *)
Theorem honest_round_check_succeeds {Proof Witness ProofS : Type}
    (clients : list SumCmp.Client) (vals dummies allProof : list Element)
    (rndVal rndMask : nat → nat) (r : Element)
    (MiMC : list Element → Element)
    (ProveS : SumCmp.sumAndCmpCircuit.t → option ProofS)
    (VerifyS : ProofS → list Element → bool)
    (T : Z) (secretSalt : nat → Element)
    (Prove : Vote.VoteCircuit.t → Proof * Witness) (Verify : Proof → Witness → bool)
    (C n Max D : nat) (rankRnd : nat → nat → nat) (dummyRnd : nat → nat → Element)
    (salt : nat → Element) (rndPairs rndDummies : nat → nat) :
  clients ≠ [] →
  Forall (λ c, SumCmp.secretMask c = maskOf (SumCmp.splittedSecretMask c)) clients →
  mapM (λ c, SumCmp.publicProd (SumCmp.splittedSecretVal c) r (SumCmp.secretMask c))
       clients = Some allProof →
  vals ≡ₚ concat (map SumCmp.splittedSecretVal clients) →
  dummies ≡ₚ concat (map SumCmp.splittedSecretMask clients) →
  2 ≤ C → (Z.of_nat C ≤ 2 ^ 64)%Z → 1 ≤ n →
  (Z.of_nat (n * (C * (C - 1) / 2)) < 2 ^ 64)%Z →
  ConsistencyCheck vals dummies r allProof = Some true
  ∧ ((∀ i c, clients !! i = Some c → proved MiMC ProveS T r secretSalt i c) →
     ∃ errs s,
       SumCmp.serverRound MiMC ProveS VerifyS T clients secretSalt rndVal rndMask r
       = Some {| SumCmp.verificationErrors := errs; SumCmp.setsEqual := true;
                 SumCmp.sum := s |})
  ∧ (∀ res,
       SumCmp.serverRound MiMC ProveS VerifyS T clients secretSalt rndVal rndMask r
       = Some res →
       SumCmp.setsEqual res = true
       ∧ ∀ i c, clients !! i = Some c → proved MiMC ProveS T r secretSalt i c)
  ∧ (∃ res, Vote.VoteGroth16 MiMC Prove Verify C n Max D rankRnd dummyRnd salt
                             rndPairs rndDummies r = Some res
            ∧ Vote.shufflerProd res = Vote.clientProd res
            ∧ Vote.productsEqual res = true
            ∧ (Vote.ProductsNotEqual ∉ Vote.output res)).
Proof.
  intros Hne Hm Hp Hv Hd HC HC64 Hn HN.
  pose proof (answered_honest clients r allProof Hm Hp) as Hh.
  rewrite (allProof_honest clients r Hh) in Hp. injection Hp as <-.
  destruct (serverRound_honest MiMC ProveS VerifyS T clients secretSalt rndVal rndMask
              r Hne Hh) as [HA HB].
  split; [|split; [|split]].
  - apply ConsistencyCheck_honest; [exact Hv|exact Hd|].
    apply (Permutation_nonempty _ _ Hv). apply concat_nonempty.
    + destruct clients; [congruence|discriminate].
    + apply Forall_fmap. eapply Forall_impl; [exact Hh|]. intros x [Hx _]. exact Hx.
  - intros Hall. destruct (HA Hall) as (errs & vs & _ & E).
    exists errs, (SumCmp.computedSum vs). exact E.
  - exact HB.
  - destruct (VoteGroth16_run MiMC Prove Verify C n Max D rankRnd dummyRnd salt
                rndPairs rndDummies r HC HC64 Hn HN)
      as (cl & res & _ & _ & Hres & _ & _ & Heq & _ & _ & _ & _ & Hnot & _ & Hprod).
    exists res. repeat split; assumption.
Qed.

Lemma honest_round_check_succeeds_witness :
  ConsistencyCheck [NewElement 2; NewElement 1] [NewElement 3] (NewElement 5)
                   [Mul (Mul (Add (NewElement 1) (NewElement 5))
                             (Add (NewElement 2) (NewElement 5)))
                        (maskOf [NewElement 3])] = Some true
  ∧ (∃ errs s,
       SumCmp.serverRound Example.MiMC Example.ProveSum Example.VerifySum 2000
         [Example.client] Example.shares Example.draws Example.draws (NewElement 5)
       = Some {| SumCmp.verificationErrors := errs; SumCmp.setsEqual := true;
                 SumCmp.sum := s |})
  ∧ (∀ res,
       SumCmp.serverRound Example.MiMC Example.ProveSum Example.VerifySum 2000
         [Example.client] Example.shares Example.draws Example.draws (NewElement 5)
       = Some res →
       SumCmp.setsEqual res = true
       ∧ ∀ i c, [Example.client] !! i = Some c →
           proved Example.MiMC Example.ProveSum 2000 (NewElement 5) Example.shares i c)
  ∧ (∃ res, Vote.VoteGroth16 Example.MiMC Example.Prove Example.Verify 3 2 1 2
              Example.rankRnd Example.shares2 Example.shares
              Example.draws Example.draws (NewElement 5) = Some res
            ∧ Vote.shufflerProd res = Vote.clientProd res
            ∧ Vote.productsEqual res = true
            ∧ (Vote.ProductsNotEqual ∉ Vote.output res)).
Proof.
  destruct (honest_round_check_succeeds (Proof := unit) (Witness := unit)
              [Example.client] [NewElement 2; NewElement 1] [NewElement 3]
              [Mul (Mul (Add (NewElement 1) (NewElement 5))
                        (Add (NewElement 2) (NewElement 5)))
                   (maskOf [NewElement 3])]
              Example.draws Example.draws (NewElement 5)
              Example.MiMC Example.ProveSum Example.VerifySum 2000 Example.shares
              Example.Prove Example.Verify 3 2 1 2
              Example.rankRnd Example.shares2 Example.shares
              Example.draws Example.draws) as (H1 & H2 & H3 & H4).
  - discriminate.
  - repeat constructor.
  - reflexivity.
  - apply perm_swap.
  - reflexivity.
  - lia.
  - lia.
  - lia.
  - simpl. lia.
  - split_and!; [exact H1| |exact H3|exact H4].
    apply H2. intros [|i] c Hc; [|destruct i; discriminate].
    injection Hc as <-.
    apply (proved_iff Example.MiMC Example.ProveSum ProveSum_contract).
    + split; [discriminate|reflexivity].
    + vm_compute. reflexivity.
Defined.

(** ** C2: the shares of a secret sum to the secret *)

(** C2.  For every secret [s] and every share count [k >= 2], the splitting
    loop returns [k] shares, the shares [1 .. k-1] being the draws; their
    field sum, as the server adds them up from [NewElement 0] and as the
    circuit adds them up from the first share, is [s], for every choice of
    the draws. *)
Theorem split_sum (s : Z) (k : nat) (rnd : nat → Element) :
  2 ≤ k →
  ∃ shares, SumCmp.split k s rnd = Some shares ∧ length shares = k
    ∧ (∀ j, 1 ≤ j < k → shares !! j = Some (rnd j))
    ∧ fold_left Add shares (NewElement 0) = NewElement s
    ∧ SumCmp.circuitSum shares = Some (NewElement s).
Proof.
  intros Hk. exists (sharesOf s rnd (k - 1)).
  split; [apply split_closed_form; lia|].
  split; [rewrite sharesOf_length; lia|].
  split; [|split].
  - intros j Hj. unfold sharesOf. destruct j as [|j]; [lia|].
    rewrite lookup_cons. cbv beta iota.
    rewrite map_fmap, list_lookup_fmap, lookup_seq_lt by lia. reflexivity.
  - rewrite fold_left_Add, sharesOf_fsum, NewElement_0. ring.
  - rewrite circuitSum_fsum by (unfold sharesOf; discriminate).
    rewrite sharesOf_fsum. reflexivity.
Qed.

Lemma split_sum_witness :
  ∃ shares, SumCmp.split 3 999 Example.shares = Some shares ∧ length shares = 3
    ∧ (∀ j, 1 ≤ j < 3 → shares !! j = Some (Example.shares j))
    ∧ fold_left Add shares (NewElement 0) = NewElement 999
    ∧ SumCmp.circuitSum shares = Some (NewElement 999).
Proof. apply (split_sum 999 3 Example.shares). lia. Defined.

(** ** C3: the fingerprint does not depend on the order *)

Lemma PolyEval_Permutation (A B : list Element) (r : Element) :
  A ≡ₚ B → PolyEval A r = PolyEval B r.
Proof.
  intros H. destruct A as [|a A].
  - apply Permutation_nil in H. subst. reflexivity.
  - assert (HB : B ≠ []).
    { intros ->. symmetry in H. apply Permutation_nil in H. discriminate. }
    rewrite !PolyEval_nonempty by (assumption || discriminate).
    f_equal. apply Fingerprint_Permutation. exact H.
Qed.

(** C3.  For every sequence [A], every permutation [B] of [A] and every
    challenge [r], [PolyEval A r = PolyEval B r]; in particular
    [rand.Shuffle] with any draws returns a sequence with the fingerprint
    of [A]. *)
Theorem PolyEval_order_independent (A B : list Element) (r : Element)
    (rnd : nat → nat) :
  A ≡ₚ B →
  PolyEval A r = PolyEval B r
  ∧ ∃ A', Shuffle rnd (length A) swapElems A = Some A'
          ∧ PolyEval A' r = PolyEval A r.
Proof.
  intros H. split; [apply PolyEval_Permutation; exact H|].
  destruct (Shuffle_Permutation rnd A) as (A' & Hs & Hp).
  exists A'. split; [exact Hs|]. apply PolyEval_Permutation. exact Hp.
Qed.

Lemma PolyEval_order_independent_witness :
  PolyEval [NewElement 1; NewElement 2; NewElement 3] (NewElement 5)
  = PolyEval [NewElement 2; NewElement 1; NewElement 3] (NewElement 5)
  ∧ ∃ A', Shuffle Example.draws (length [NewElement 1; NewElement 2; NewElement 3])
                  swapElems [NewElement 1; NewElement 2; NewElement 3] = Some A'
          ∧ PolyEval A' (NewElement 5)
            = PolyEval [NewElement 1; NewElement 2; NewElement 3] (NewElement 5).
Proof. apply PolyEval_order_independent. apply perm_swap. Defined.

(** ** C4: tamper detection *)

Lemma NewElement_inj (a b : Z) :
  (0 ≤ a < 2 ^ 64)%Z → (0 ≤ b < 2 ^ 64)%Z → NewElement a = NewElement b → a = b.
Proof.
  intros Ha Hb H. apply (f_equal Zmod.to_Z) in H.
  rewrite !to_Z_NewElement, !Z.mod_small in H by lia. exact H.
Qed.

(** With a zero dummy the mask of its client is zero, both products are
    zero at every challenge, and a replaced value passes: one value and two
    accepted challenges. *)
Lemma tamper_zero_dummy_counterexample :
  ∃ (clients : list SumCmp.Client) (flat dummies : list Element) (k : nat)
    (x x' : Element) (rs : list Element),
    Forall honest clients
    ∧ flat ≡ₚ concat (map SumCmp.splittedSecretVal clients)
    ∧ dummies ≡ₚ concat (map SumCmp.splittedSecretMask clients)
    ∧ flat ≠ [] ∧ flat !! k = Some x ∧ x' ≠ x ∧ NoDup rs
    ∧ (∀ r, r ∈ rs → accepts clients (<[k:=x']> flat) dummies r)
    ∧ ¬ length rs ≤ length flat.
Proof.
  exists [Example.zeroDummyClient], [NewElement 1], [Zero], 0,
         (NewElement 1), (NewElement 2), [NewElement 0; NewElement 1].
  assert (H01 : NewElement 0 ≠ NewElement 1).
  { intros H. apply NewElement_inj in H; lia. }
  split_and!.
  - constructor; [|constructor]. split; [discriminate|reflexivity].
  - reflexivity.
  - reflexivity.
  - discriminate.
  - reflexivity.
  - intros H. apply NewElement_inj in H; lia.
  - constructor.
    + intros H. apply list_elem_of_singleton in H. exact (H01 H).
    + constructor; [|constructor]. intros H. inversion H.
  - intros r Hr. eexists. split; [reflexivity|].
    apply elem_of_cons in Hr as [->|Hr]; [vm_compute; reflexivity|].
    apply list_elem_of_singleton in Hr as ->. vm_compute. reflexivity.
  - cbn [length]. lia.
Qed.

(** C4 (amended).  The clients having answered honestly and no dummy being
    zero: when one value of the shuffled sequence [flat] is replaced by a
    different field element, the challenges at which the server still
    accepts are fewer than the length of [flat] (every list [rs] of distinct
    accepted challenges is shorter than [flat]). *)
Theorem tamper_detection (clients : list SumCmp.Client) (flat dummies : list Element)
    (k : nat) (x x' : Element) (rs : list Element) :
  Forall honest clients →
  flat ≡ₚ concat (map SumCmp.splittedSecretVal clients) →
  dummies ≡ₚ concat (map SumCmp.splittedSecretMask clients) →
  flat !! k = Some x → x' ≠ x → Forall (λ d, d ≠ Zero) dummies →
  NoDup rs → (∀ r, r ∈ rs → accepts clients (<[k:=x']> flat) dummies r) →
  length rs < length flat.
Proof.
  intros Hh Hv Hd Hk Hne Hnz Hnd Hacc.
  pose proof (lookup_lt_Some _ _ _ Hk) as Hlt.
  assert (Hsub : rs ⊆+ map (Zmod.opp (m:=q)) (take k flat ++ drop (S k) flat)).
  { apply NoDup_submseteq; [exact Hnd|]. intros r Hr.
    apply (accepts_tampered clients flat dummies k x x' r); auto. }
  apply submseteq_length in Hsub.
  rewrite length_map, length_app, length_take, length_drop in Hsub. lia.
Qed.

Lemma tamper_detection_witness :
  length [Zmod.opp (NewElement 1)] < length [NewElement 2; NewElement 1].
Proof.
  apply (tamper_detection [Example.client] [NewElement 2; NewElement 1] [NewElement 3]
           0 (NewElement 2) (NewElement 5) [Zmod.opp (NewElement 1)]).
  - constructor; [|constructor]. split; [discriminate|reflexivity].
  - apply perm_swap.
  - reflexivity.
  - reflexivity.
  - intros H. apply NewElement_inj in H; lia.
  - constructor; [|constructor]. intros H. apply (NewElement_inj 3 0) in H; lia.
  - constructor; [|constructor]. intros H. inversion H.
  - intros r Hr. apply list_elem_of_singleton in Hr as ->.
    eexists. split; [reflexivity|]. vm_compute. reflexivity.
Defined.

(** ** C5: the sole winner *)

(** C5.  In every run of [VoteGroth16] (at least two candidates and one
    client, counters within [uint64]) the server ends with [soleWinner = i]
    if and only if for every other candidate [j] the tally has
    [cnt[i][j] > cnt[j][i]] and [cnt[i][j] + cnt[j][i]] is the number of
    clients; otherwise [soleWinner] stays [-1], which is the case exactly
    when "No sole winner" is printed, and the run ends normally.  With 3
    candidates and 2 clients ranking [0, 1, 2] and [1, 0, 2] no sole winner
    is reported. *)
Theorem sole_winner_rule {Proof Witness : Type} (MiMC : list Element → Element)
    (Prove : Vote.VoteCircuit.t → Proof * Witness) (Verify : Proof → Witness → bool)
    (C n Max D : nat) (rankRnd : nat → nat → nat) (dummyRnd : nat → nat → Element)
    (salt : nat → Element) (rndPairs rndDummies : nat → nat) (publicR : Element) :
  2 ≤ C → (Z.of_nat C ≤ 2 ^ 64)%Z → 1 ≤ n →
  (Z.of_nat (n * (C * (C - 1) / 2)) < 2 ^ 64)%Z →
  ∃ res,
    Vote.VoteGroth16 MiMC Prove Verify C n Max D rankRnd dummyRnd salt
                     rndPairs rndDummies publicR = Some res
    ∧ (∀ i, i < C →
         (Vote.soleWinner res = Z.of_nat i ↔
          ∀ j, j < C → j ≠ i →
            (tallyAt (Vote.comparisonVoteCnt res) i j
             > tallyAt (Vote.comparisonVoteCnt res) j i)%Z
            ∧ (tallyAt (Vote.comparisonVoteCnt res) i j
               + tallyAt (Vote.comparisonVoteCnt res) j i)%Z = Z.of_nat n))
    ∧ (Vote.soleWinner res = (-1)%Z ∨ ∃ i, i < C ∧ Vote.soleWinner res = Z.of_nat i)
    ∧ ((Vote.NoSoleWinner ∈ Vote.output res) ↔ Vote.soleWinner res = (-1)%Z)
    ∧ (C = 3 → n = 2 → rankingsOf C n rankRnd = [[0; 1; 2]; [1; 0; 2]] →
       Vote.soleWinner res = (-1)%Z ∧ Vote.NoSoleWinner ∈ Vote.output res).
Proof.
  intros HC HC64 Hn HN.
  destruct (VoteGroth16_run MiMC Prove Verify C n Max D rankRnd dummyRnd salt
              rndPairs rndDummies publicR HC HC64 Hn HN)
    as (cl & res & Hcl & Hlen & Hres & _ & _ & _ & Hcnt & Hw & Hno & _).
  exists res. split; [exact Hres|].
  set (rks := rankingsOf C n rankRnd) in *.
  assert (Hrks : Forall (λ rk, rk ≡ₚ seq 0 C) rks).
  { unfold rks, rankingsOf. apply Forall_forall. intros rk Hrk.
    apply list_elem_of_In, in_map_iff in Hrk as (i & <- & _).
    apply rankingOf_Permutation. }
  assert (Hrl : length rks = n).
  { unfold rks, rankingsOf. rewrite length_map, length_seq. reflexivity. }
  destruct (winnerUpTo_spec C (tallyOf rks)) as [Hsome Hnone].
  split; [|split; [|split]].
  - intros i Hi. rewrite Hw, (Hsome i Hi), okAt_true, Hcnt. split.
    + intros H j Hj Hne. rewrite !tallyAt_matrixOf by assumption.
      split; [apply H; assumption|].
      rewrite (tallyOf_balanced C rks i j Hrks) by (assumption || congruence).
      rewrite Hrl. reflexivity.
    + intros H j Hj Hne. specialize (H j Hj Hne) as [H _].
      rewrite !tallyAt_matrixOf in H by assumption. exact H.
  - rewrite Hw. destruct (winnerUpTo_range C (tallyOf rks) C) as [E|(i & Hi & _ & E)].
    + left. exact E.
    + right. exists i. split; assumption.
  - exact Hno.
  - intros -> -> Hex. assert (E : Vote.soleWinner res = (-1)%Z).
    { rewrite Hw, Hex. vm_compute. reflexivity. }
    split; [exact E|]. apply Hno. exact E.
Qed.

Lemma sole_winner_rule_witness :
  ∃ res,
    Vote.VoteGroth16 Example.MiMC Example.Prove Example.Verify 3 2 1 2
                     Example.rankRnd Example.shares2 Example.shares
                     Example.draws Example.draws (NewElement 5) = Some res
    ∧ Vote.soleWinner res = (-1)%Z
    ∧ Vote.NoSoleWinner ∈ Vote.output res.
Proof.
  destruct (sole_winner_rule Example.MiMC Example.Prove Example.Verify 3 2 1 2
              Example.rankRnd Example.shares2 Example.shares
              Example.draws Example.draws (NewElement 5))
    as (res & Hres & _ & _ & _ & Hex);
    [lia | lia | lia | simpl; lia |].
  exists res. split; [exact Hres|].
  apply Hex; reflexivity.
Defined.

(** ** C6: the pair list of a ranking *)

(** C6.  For every ranking that is a permutation of the candidates
    [0 .. C-1], [genPairs] returns two slices of [C*(C-1)/2] entries each
    whose entries at position [base C i + j] are [ranking[i]] and
    [ranking[i+j+1]], [base C i] being the value of the circuit's variable
    [base] at row [i]; the circuit's clause on the pairs holds of them.  For
    [C = 4] and the ranking [1, 0, 2, 3] the pairs are
    [(1,0), (1,2), (1,3), (0,2), (0,3), (2,3)]. *)
Theorem genPairs_correct (C : nat) (ranking : list Element) :
  ranking ≡ₚ map (λ i, NewElement (Z.of_nat i)) (seq 0 C) →
  (∃ first second,
     Vote.genPairs C ranking = Some (first, second)
     ∧ length first = C * (C - 1) / 2 ∧ length second = C * (C - 1) / 2
     ∧ (∀ i j, i < C → j < C - i - 1 →
          first !! (base C i + j) = ranking !! i
          ∧ second !! (base C i + j) = ranking !! (i + j + 1))
     ∧ Vote.pairClause C ranking first second = Some true)
  ∧ Vote.genPairs 4 (map NewElement [1; 0; 2; 3]%Z)
    = Some (map NewElement [1; 1; 1; 0; 0; 2]%Z, map NewElement [0; 2; 3; 2; 3; 3]%Z).
Proof.
  intros Hperm. split; [|vm_compute; reflexivity].
  assert (Hlen : length ranking = C).
  { rewrite (Permutation_length Hperm), length_map, length_seq. reflexivity. }
  exists (map fst (pairList ranking)), (map snd (pairList ranking)).
  split; [apply genPairs_pairList; exact Hlen|].
  rewrite !length_map, pairList_length, Hlen.
  split; [reflexivity|]. split; [reflexivity|]. split.
  - intros i j Hi Hj.
    destruct (lookup_lt_is_Some_2 ranking i ltac:(lia)) as [x Hx].
    destruct (lookup_lt_is_Some_2 ranking (i + j + 1) ltac:(lia)) as [y Hy].
    rewrite !map_fmap, !list_lookup_fmap, <- Hlen.
    rewrite (pairList_lookup ranking i j x y Hx Hy), Hx, Hy. split; reflexivity.
  - apply pairClause_pairList. exact Hlen.
Qed.

Lemma genPairs_correct_witness :
  (∃ first second,
     Vote.genPairs 4 (map NewElement [1; 0; 2; 3]%Z) = Some (first, second)
     ∧ length first = 4 * (4 - 1) / 2 ∧ length second = 4 * (4 - 1) / 2
     ∧ (∀ i j, i < 4 → j < 4 - i - 1 →
          first !! (base 4 i + j) = map NewElement [1; 0; 2; 3]%Z !! i
          ∧ second !! (base 4 i + j) = map NewElement [1; 0; 2; 3]%Z !! (i + j + 1))
     ∧ Vote.pairClause 4 (map NewElement [1; 0; 2; 3]%Z) first second = Some true)
  ∧ Vote.genPairs 4 (map NewElement [1; 0; 2; 3]%Z)
    = Some (map NewElement [1; 1; 1; 0; 0; 2]%Z, map NewElement [0; 2; 3; 2; 3; 3]%Z).
Proof. apply (genPairs_correct 4). apply perm_swap. Defined.

(** ** C7: the fingerprint of the empty sequence *)

(** [PolyEval] reads [vec[0]] first: on the empty sequence it panics and
    returns no product. *)
Lemma PolyEval_empty_counterexample :
  PolyEval [] (NewElement 7) = None
  ∧ PolyEval [] (NewElement 7) ≠ Some (NewElement 1).
Proof. split; [reflexivity|discriminate]. Qed.

(** C7 (amended).  On every non-empty sequence [PolyEval] returns the
    product of [v + r] over its elements; on the empty sequence it panics,
    for every challenge; and with at most one candidate, where the pair list
    is empty, a client cannot compute its public product. *)
Theorem PolyEval_product_on_nonempty (v : Element) (rest : list Element) (r : Element)
    (MiMC : list Element → Element) (D : nat) (rankRnd : nat → nat)
    (dummyRnd : nat → Element) (salt : Element) :
  PolyEval (v :: rest) r = Some (Fingerprint (v :: rest) r)
  ∧ PolyEval [] r = None
  ∧ (Vote.Init MiMC 0 D rankRnd dummyRnd salt ≫= λ c, Vote.GenAssignment 0 c r) = None
  ∧ (Vote.Init MiMC 1 D rankRnd dummyRnd salt ≫= λ c, Vote.GenAssignment 1 c r) = None.
Proof.
  split; [apply PolyEval_nonempty; discriminate|].
  split; [reflexivity|]. split; reflexivity.
Qed.

(** ** C8: the number of dummies when no client is honest *)

(** The conversion to [uint64] gives a [uint64], whatever the float. *)
Lemma uint64_of_float64_range (conv : float64 → Z) (x : float64) :
  (0 ≤ uint64_of_float64 conv x < 2 ^ 64)%Z.
Proof.
  unfold uint64_of_float64. destruct x as [s|s| |s m e];
    try (apply Z.mod_pos_bound; lia); [lia|].
  cbv zeta.
  destruct ((0 <=? _) && (_ <? 2 ^ 64))%Z eqn:E; [|apply Z.mod_pos_bound; lia].
  apply andb_true_iff in E as [E1 E2].
  apply Z.leb_le in E1. apply Z.ltb_lt in E2. lia.
Qed.

(** With [n = t] the argument of [math.Log2] is [0] and its value [-Inf];
    the quotient is [-0] and the result [2], a finite count. *)
Lemma ComputeDummyNum_equal_counterexample :
  Log2_exponent (S754_zero false) = S754_infinity true
  ∧ is_finite (Log2_exponent float_e) = true
  ∧ (5 ≤ 5)%Z
  ∧ ComputeDummyNum Example.convOverflow Log2_exponent 80 5 5 = 2%Z.
Proof. split_and!; [reflexivity|reflexivity|lia|vm_compute; reflexivity]. Qed.

(** C8 (amended).  [ComputeDummyNum] raises no failure when [n <= t]: for
    every [lambda], whatever the conversion does with a float that does not
    fit, the result is a [uint64].  With [n = t] the result is [2].  With
    [n < t] the subtraction [n - t] wraps around to [n - t + 2^64], a
    positive [uint64], and the result is the one for [n - t + 2^64] clients
    of which none is corrupted.  Of [math.Log2] this uses [Log2(0) = -Inf]
    and that [Log2(e)] is finite. *)
Theorem ComputeDummyNum_n_le_t (conv : float64 → Z) (Log2 : float64 → float64)
    (lambda n t : Z) :
  Log2 (S754_zero false) = S754_infinity true →
  is_finite (Log2 float_e) = true →
  (0 ≤ n)%Z → (n ≤ t)%Z → (t < 2 ^ 64)%Z →
  (0 ≤ ComputeDummyNum conv Log2 lambda n t < 2 ^ 64)%Z
  ∧ (n = t → ComputeDummyNum conv Log2 lambda n t = 2%Z)
  ∧ (n < t →
     (0 < n - t + 2 ^ 64 < 2 ^ 64)%Z
     ∧ ComputeDummyNum conv Log2 lambda n t
       = ComputeDummyNum conv Log2 lambda (n - t + 2 ^ 64) 0)%Z.
Proof.
  intros H0 He Hn Hnt Ht. split; [apply uint64_of_float64_range|]. split.
  - intros ->. unfold ComputeDummyNum.
    rewrite Z.sub_diag. change (0 mod 2 ^ 64)%Z with 0%Z.
    change (float64_of_uint64 0) with (S754_zero false). rewrite H0.
    assert (Hs : SFsub prec emax (S754_infinity true) (Log2 float_e) = S754_infinity true).
    { destruct (Log2 float_e) as [s|s| |s m e]; try discriminate; reflexivity. }
    rewrite Hs.
    assert (Hd : SFdiv prec emax (float64_of_uint64 ((2 * lambda + 254) mod 2 ^ 64))
                       (S754_infinity true) = S754_zero true).
    { destruct (float64_of_uint64_sign ((2 * lambda + 254) mod 2 ^ 64)) as [->|(m & e & ->)];
        [apply Z.mod_pos_bound; lia|reflexivity|reflexivity]. }
    rewrite Hd. vm_compute. reflexivity.
  - intros Hlt. split; [lia|]. unfold ComputeDummyNum.
    replace ((n - t + 2 ^ 64 - 0) mod 2 ^ 64)%Z with ((n - t) mod 2 ^ 64)%Z; [reflexivity|].
    rewrite Z.sub_0_r. rewrite <- (Z.mod_add (n - t) 1 (2 ^ 64)) by lia.
    f_equal; lia.
Qed.

Lemma ComputeDummyNum_n_le_t_witness :
  (0 ≤ ComputeDummyNum Example.convOverflow Log2_exponent 80 1000 1003 < 2 ^ 64)%Z
  ∧ (1000 = 1003 → ComputeDummyNum Example.convOverflow Log2_exponent 80 1000 1003 = 2)%Z
  ∧ (1000 < 1003 →
     (0 < 1000 - 1003 + 2 ^ 64 < 2 ^ 64)%Z
     ∧ ComputeDummyNum Example.convOverflow Log2_exponent 80 1000 1003
       = ComputeDummyNum Example.convOverflow Log2_exponent 80 (1000 - 1003 + 2 ^ 64) 0)%Z.
Proof. apply ComputeDummyNum_n_le_t; [reflexivity|reflexivity|lia|lia|lia]. Defined.

(** ** C9: the threshold clause in the scenario with secret 999 *)

(** A client holding [999] satisfies the clause at the threshold [2996]. *)
Lemma threshold_2996_counterexample :
  ∃ shares, SumCmp.split 3 999 Example.shares = Some shares
            ∧ SumCmp.thresholdClause shares (NewElement 2996) = Some true.
Proof. eexists. split; [vm_compute; reflexivity|vm_compute; reflexivity]. Qed.

(** C9 (amended).  Every client holding the secret [999]: for every
    threshold [T] (a [uint64]) the threshold clause of a client, on the
    shares the client has split its secret into, holds exactly when
    [999 <= T], so it holds at [2996] and at [2997] and fails only below
    [999].  The prover giving a proof exactly when the circuit accepts the
    assignment: with [999 <= T] the run finds the sets equal and computes
    the sum [999 * ClientNum]; with [T < 999] no proof is generated and the
    run panics on the nil proof, before the check and the sum. *)
Theorem threshold_clause_999 {Proof : Type} (MiMC : list Element → Element)
    (Prove : SumCmp.sumAndCmpCircuit.t → option Proof)
    (Verify : Proof → list Element → bool)
    (n k D : nat) (shareRnd maskRnd : nat → nat → Element) (salt : nat → Element)
    (rndVal rndMask : nat → nat) (publicRFr : Element) (T : Z) :
  1 ≤ n → 1 ≤ k → (0 ≤ T < 2 ^ 64)%Z → (Z.of_nat n * 999 < 2 ^ 64)%Z →
  (∀ a, is_Some (Prove a) ↔ SumCmp.Define MiMC a = Some true) →
  (∀ i, i < n →
     ∃ shares, SumCmp.split k 999 (shareRnd i) = Some shares
               ∧ SumCmp.thresholdClause shares (NewElement T) = Some (999 <=? T)%Z)
  ∧ ((999 ≤ T)%Z →
     ∃ errs,
       SumCmp.ShuffleZKGroth16 MiMC Prove Verify T n k D (λ _, 999%Z) shareRnd maskRnd
                               salt rndVal rndMask publicRFr
       = Some {| SumCmp.verificationErrors := errs; SumCmp.setsEqual := true;
                 SumCmp.sum := (Z.of_nat n * 999)%Z |})
  ∧ ((T < 999)%Z →
     SumCmp.ShuffleZKGroth16 MiMC Prove Verify T n k D (λ _, 999%Z) shareRnd maskRnd
                             salt rndVal rndMask publicRFr = None).
Proof.
  intros Hn Hk HT Hsum Hprove.
  destruct (ShuffleZKGroth16_run MiMC Prove Verify Hprove T n k D (λ _, 999%Z)
              shareRnd maskRnd salt rndVal rndMask publicRFr Hn Hk) as [HA HB].
  change (999 mod 2 ^ 64)%Z with 999%Z in HA, HB.
  rewrite (Z.mod_small T) in HA, HB by lia.
  split; [|split].
  - intros i _. exists (sharesOf 999 (shareRnd i) (k - 1)).
    split; [apply split_closed_form; exact Hk|].
    rewrite thresholdClause_shares. rewrite (Z.mod_small T) by lia. reflexivity.
  - intros Hle. destruct HA as (errs & ->); [intros i _; exact Hle|].
    exists errs. f_equal. f_equal.
    rewrite (fsum_NewElement (λ _, 999%Z)).
    change (999 mod 2 ^ 64)%Z with 999%Z. rewrite sum_const, length_seq.
    unfold Uint64. rewrite Zmod.to_Z_of_Z.
    rewrite (Z.mod_small _ q) by (unfold q; lia). apply Z.mod_small. lia.
  - intros Hlt. apply HB. exists 0. split; [lia|exact Hlt].
Qed.

Lemma threshold_clause_999_witness :
  (∀ i, i < 3 →
     ∃ shares, SumCmp.split 3 999 (Example.shares2 i) = Some shares
               ∧ SumCmp.thresholdClause shares (NewElement 2996) = Some (999 <=? 2996)%Z)
  ∧ (∃ errs,
       SumCmp.ShuffleZKGroth16 Example.MiMC Example.ProveSum Example.VerifySum 2996
         3 3 2 (λ _, 999%Z) Example.shares2 Example.shares2 Example.shares
         Example.draws Example.draws (NewElement 5)
       = Some {| SumCmp.verificationErrors := errs; SumCmp.setsEqual := true;
                 SumCmp.sum := (Z.of_nat 3 * 999)%Z |})
  ∧ SumCmp.ShuffleZKGroth16 Example.MiMC Example.ProveSum Example.VerifySum 998
      3 3 2 (λ _, 999%Z) Example.shares2 Example.shares2 Example.shares
      Example.draws Example.draws (NewElement 5) = None.
Proof.
  destruct (threshold_clause_999 Example.MiMC Example.ProveSum Example.VerifySum
              3 3 2 Example.shares2 Example.shares2 Example.shares
              Example.draws Example.draws (NewElement 5) 2996)
    as (H1 & H2 & _); [lia|lia|lia|lia|exact ProveSum_contract|].
  destruct (threshold_clause_999 Example.MiMC Example.ProveSum Example.VerifySum
              3 3 2 Example.shares2 Example.shares2 Example.shares
              Example.draws Example.draws (NewElement 5) 998)
    as (_ & _ & H3); [lia|lia|lia|lia|exact ProveSum_contract|].
  split_and!; [exact H1|apply H2; lia|apply H3; lia].
Defined.

(** ** C10: proofs are made and checked for a fixed prefix of the clients *)

Section Submissions.

Context {Proof Witness : Type}.
Variable Prove : Vote.VoteCircuit.t → Proof * Witness.


Lemma submissions_lookup (Max : nat)
    (cas : list (Vote.ClientState * Vote.VoteCircuit.t)) (i : nat)
    (s : Vote.ClientSubmissionToServer) :
  imap (Vote.submit Prove Max) cas !! i = Some s →
  ∃ ca, cas !! i = Some ca
        ∧ (i < Max → Vote.proof s = Some (Prove ca.2).1
                     ∧ Vote.publicWitness s = Some (Prove ca.2).2)
        ∧ (Max ≤ i → Vote.proof s = None ∧ Vote.publicWitness s = None)
        ∧ Vote.publicProd s = Vote.PublicProd ca.1.
Proof using Type.
  rewrite list_lookup_imap. destruct (cas !! i) as [ca|]; [|discriminate].
  cbn [fmap option_fmap option_map]. intros [= <-]. exists ca.
  split; [reflexivity|]. unfold Vote.submit.
  destruct (decide (i < Max)) as [Hlt|Hge]; cbn [Vote.proof Vote.publicWitness Vote.publicProd].
  - split; [intros _; split; reflexivity|]. split; [lia|reflexivity].
  - split; [lia|]. split; [intros _; split; reflexivity|reflexivity].
Qed.

End Submissions.



(** * Further properties of the code *)

(** ** The sum variant: the circuit and the aggregate *)

Lemma PolyEvalInCircuit_PolyEval (vec : list Element) (r : Element) :
  PolyEvalInCircuit vec r = PolyEval vec r.
Proof. reflexivity. Qed.

Lemma prodClause_publicProd (vec : list Element) (mask r p : Element) :
  SumCmp.publicProd vec r mask = Some p →
  SumCmp.prodClause vec mask r p = Some true.
Proof.
  unfold SumCmp.publicProd, SumCmp.prodClause.
  change (PolyEvalInCircuit vec r) with (PolyEval vec r).
  destruct (PolyEval vec r) as [x|]; [|discriminate].
  cbn [mbind option_bind]. intros [= <-]. rewrite Equal_refl. reflexivity.
Qed.

(** The circuit of the sum variant accepts the assignment of a client
    exactly when the client's secret is at most the threshold: for every
    secret [s], threshold [T] (both [uint64]) and every choice of the
    random shares, the mask, the salt and the challenge, [Define] returns
    [s <= T] on the assignment that [GenProofGroth16] builds from the
    shares of [s], provided the MiMC of the circuit computes the hash of
    the commitment. *)
Theorem sum_circuit_accepts_iff (mimc goMimc : list Element → Element)
    (T s : Z) (k : nat) (rnd : nat → Element) (mask salt r : Element) :
  1 ≤ k → (0 ≤ T < 2 ^ 64)%Z → (0 ≤ s < 2 ^ 64)%Z → (∀ l, mimc l = goMimc l) →
  ∃ shares p,
    SumCmp.split k s rnd = Some shares
    ∧ SumCmp.publicProd shares r mask = Some p
    ∧ SumCmp.Define mimc
        (SumCmp.assignment T shares r p mask
           (SumCmp.commitment goMimc shares mask salt) salt)
      = Some (s <=? T)%Z.
Proof.
  intros Hk HT Hs Hm.
  exists (sharesOf s rnd (k - 1)).
  assert (Hne : sharesOf s rnd (k - 1) ≠ []) by (unfold sharesOf; discriminate).
  unfold SumCmp.publicProd.
  rewrite (PolyEval_nonempty _ r Hne). cbn [mbind option_bind].
  eexists. split; [apply split_closed_form; exact Hk|].
  split; [reflexivity|].
  unfold SumCmp.Define, SumCmp.assignment.
  cbn [SumCmp.sumAndCmpCircuit.PrivateVec SumCmp.sumAndCmpCircuit.PublicThreshold
       SumCmp.sumAndCmpCircuit.PrivateMask SumCmp.sumAndCmpCircuit.PublicR
       SumCmp.sumAndCmpCircuit.PublicProd SumCmp.sumAndCmpCircuit.PublicCommitment
       SumCmp.sumAndCmpCircuit.PrivateSalt].
  rewrite thresholdClause_shares. cbn [mbind option_bind].
  rewrite (prodClause_publicProd _ mask r
             (Mul (Fingerprint (sharesOf s rnd (k - 1)) r) mask)).
  2:{ unfold SumCmp.publicProd. rewrite (PolyEval_nonempty _ r Hne). reflexivity. }
  cbn [mbind option_bind]. unfold SumCmp.commitment.
  rewrite Hm, Equal_refl, !Z.mod_small by lia.
  rewrite !andb_true_r. reflexivity.
Qed.

Lemma sum_circuit_accepts_iff_witness :
  ∃ shares p,
    SumCmp.split 3 2001 Example.shares = Some shares
    ∧ SumCmp.publicProd shares (NewElement 5) (NewElement 3) = Some p
    ∧ SumCmp.Define Example.MiMC
        (SumCmp.assignment 2000 shares (NewElement 5) p (NewElement 3)
           (SumCmp.commitment Example.MiMC shares (NewElement 3) (NewElement 9))
           (NewElement 9))
      = Some (2001 <=? 2000)%Z.
Proof.
  apply (sum_circuit_accepts_iff Example.MiMC Example.MiMC 2000 2001 3);
    [lia | lia | lia | reflexivity].
Defined.

(** The sum of the secrets, as an integer. *)
Lemma to_Z_fsum_NewElement (sv : nat → Z) (l : list nat) :
  Forall (λ i, 0 ≤ sv i < 2 ^ 64)%Z l →
  (fold_right Z.add 0 (map sv l) < 2 ^ 64)%Z →
  Uint64 (fsum (map (λ i, NewElement (sv i)) l)) = fold_right Z.add 0%Z (map sv l).
Proof.
  intros Hall Hsum. rewrite fsum_NewElement.
  assert (E : fold_right (λ i acc, (sv i mod 2 ^ 64 + acc)%Z) 0%Z l
              = fold_right Z.add 0%Z (map sv l)
              ∧ (0 ≤ fold_right Z.add 0 (map sv l))%Z).
  { clear Hsum. induction Hall as [|i l Hi _ [IH1 IH2]]; [split; [reflexivity|cbn; lia]|].
    cbn [fold_right map]. rewrite IH1, Z.mod_small by lia. split; [reflexivity|lia]. }
  destruct E as [-> Hpos]. unfold Uint64. rewrite Zmod.to_Z_of_Z.
  rewrite (Z.mod_small _ q) by (unfold q; lia). apply Z.mod_small. lia.
Qed.

(** The aggregate of the sum variant: when the secrets are [uint64] values
    whose sum does not overflow [uint64], every client's splitting loop
    succeeds and the sum the server computes over the shares of all
    clients, in any order, is the sum of the secrets, for every choice of
    the random shares. *)
Theorem aggregate_sum_correct (n k : nat) (secretVal : nat → Z)
    (shareRnd : nat → nat → Element) :
  1 ≤ k → (∀ i, i < n → (0 ≤ secretVal i < 2 ^ 64)%Z) →
  (fold_right Z.add 0 (map secretVal (seq 0 n)) < 2 ^ 64)%Z →
  ∃ sharess,
    mapM (λ i, SumCmp.split k (secretVal i) (shareRnd i)) (seq 0 n) = Some sharess
    ∧ ∀ allSecretVal, allSecretVal ≡ₚ concat sharess →
        SumCmp.computedSum allSecretVal = fold_right Z.add 0%Z (map secretVal (seq 0 n)).
Proof.
  intros Hk Hs Hsum.
  exists (map (λ i, sharesOf (secretVal i) (shareRnd i) (k - 1)) (seq 0 n)). split.
  - apply mapM_total. apply Forall_forall. intros i _. apply split_closed_form. exact Hk.
  - intros all Hp. unfold SumCmp.computedSum.
    rewrite fold_left_Add, NewElement_0, (fsum_Permutation _ _ Hp), fsum_concat, map_map.
    rewrite (map_ext _ (λ i, NewElement (secretVal i)))
      by (intros i; apply sharesOf_fsum).
    replace (Add Zero (fsum (map (λ i, NewElement (secretVal i)) (seq 0 n))))
      with (fsum (map (λ i, NewElement (secretVal i)) (seq 0 n))) by ring.
    apply to_Z_fsum_NewElement; [|exact Hsum].
    apply Forall_forall. intros i Hi%list_elem_of_In%in_seq. apply Hs. lia.
Qed.

Lemma aggregate_sum_correct_witness :
  ∃ sharess,
    mapM (λ i, SumCmp.split 3 (Z.of_nat (100 * i + 7)) (Example.shares2 i)) (seq 0 3)
      = Some sharess
    ∧ ∀ allSecretVal, allSecretVal ≡ₚ concat sharess →
        SumCmp.computedSum allSecretVal
        = fold_right Z.add 0%Z (map (λ i, Z.of_nat (100 * i + 7)) (seq 0 3)).
Proof.
  apply (aggregate_sum_correct 3 3 (λ i, Z.of_nat (100 * i + 7)) Example.shares2).
  - lia.
  - intros i Hi. lia.
  - simpl. lia.
Defined.

(** ** The run of the sum variant *)

(** The run of [ShuffleZKGroth16] enforces the threshold.  The secrets
    being [uint64] values whose sum does not overflow, and the prover giving
    a proof exactly when the circuit accepts the assignment: when every
    secret is at most the threshold, the run finds the two sets the same
    and prints the sum of the secrets, for every choice of the random
    shares, dummies, salts, shuffles and challenge; when one secret is
    above the threshold, the run panics on a nil proof. *)
Theorem sum_run_enforces_threshold {Proof : Type} (MiMC : list Element → Element)
    (Prove : SumCmp.sumAndCmpCircuit.t → option Proof)
    (Verify : Proof → list Element → bool)
    (T : Z) (n k D : nat) (secretVal : nat → Z)
    (shareRnd maskRnd : nat → nat → Element) (salt : nat → Element)
    (rndVal rndMask : nat → nat) (publicRFr : Element) :
  1 ≤ n → 1 ≤ k → (0 ≤ T < 2 ^ 64)%Z →
  (∀ i, i < n → (0 ≤ secretVal i < 2 ^ 64)%Z) →
  (fold_right Z.add 0 (map secretVal (seq 0 n)) < 2 ^ 64)%Z →
  (∀ a, is_Some (Prove a) ↔ SumCmp.Define MiMC a = Some true) →
  ((∀ i, i < n → (secretVal i ≤ T)%Z) →
   ∃ errs,
     SumCmp.ShuffleZKGroth16 MiMC Prove Verify T n k D secretVal shareRnd maskRnd salt
                             rndVal rndMask publicRFr
     = Some {| SumCmp.verificationErrors := errs; SumCmp.setsEqual := true;
               SumCmp.sum := fold_right Z.add 0%Z (map secretVal (seq 0 n)) |})
  ∧ ((∃ i, i < n ∧ (T < secretVal i)%Z) →
     SumCmp.ShuffleZKGroth16 MiMC Prove Verify T n k D secretVal shareRnd maskRnd salt
                             rndVal rndMask publicRFr = None).
Proof.
  intros Hn Hk HT Hs Hsum Hprove.
  destruct (ShuffleZKGroth16_run MiMC Prove Verify Hprove T n k D secretVal
              shareRnd maskRnd salt rndVal rndMask publicRFr Hn Hk) as [HA HB].
  split.
  - intros Hle. destruct HA as (errs & ->).
    { intros i Hi. rewrite !Z.mod_small by (try apply Hs; lia). apply Hle, Hi. }
    exists errs. f_equal. f_equal. apply to_Z_fsum_NewElement; [|exact Hsum].
    apply Forall_forall. intros i Hi%list_elem_of_In%in_seq. apply Hs. lia.
  - intros (i & Hi & Hgt). apply HB. exists i. split; [exact Hi|].
    rewrite !Z.mod_small by (try apply Hs; lia). exact Hgt.
Qed.

Lemma sum_run_enforces_threshold_witness :
  (∃ errs,
     SumCmp.ShuffleZKGroth16 Example.MiMC Example.ProveSum Example.VerifySum 2000
       3 3 2 (λ i, Z.of_nat (100 * i + 7)) Example.shares2 Example.shares2
       Example.shares Example.draws Example.draws (NewElement 5)
     = Some {| SumCmp.verificationErrors := errs; SumCmp.setsEqual := true;
               SumCmp.sum := fold_right Z.add 0%Z
                               (map (λ i, Z.of_nat (100 * i + 7)) (seq 0 3)) |})
  ∧ SumCmp.ShuffleZKGroth16 Example.MiMC Example.ProveSum Example.VerifySum 150
      3 3 2 (λ i, Z.of_nat (100 * i + 7)) Example.shares2 Example.shares2
      Example.shares Example.draws Example.draws (NewElement 5) = None.
Proof.
  split.
  - apply (sum_run_enforces_threshold Example.MiMC Example.ProveSum Example.VerifySum
             2000 3 3 2 (λ i, Z.of_nat (100 * i + 7)));
      [lia|lia|lia|intros i Hi; lia|simpl; lia|exact ProveSum_contract|
       intros i Hi; lia].
  - apply (sum_run_enforces_threshold Example.MiMC Example.ProveSum Example.VerifySum
             150 3 3 2 (λ i, Z.of_nat (100 * i + 7)));
      [lia|lia|lia|intros i Hi; lia|simpl; lia|exact ProveSum_contract|].
    exists 2. split; [lia|simpl; lia].
Defined.

(** *** The verification loop *)

Lemma verify_loop_errors {Proof : Type} (Verify : Proof → list Element → bool)
    (subs : list (SumCmp.ClientSubmissionToServer.t Proof)) (n : nat) :
  ∀ errs, for_range 0 n (SumCmp.verifyBody Verify subs) [] = Some errs →
  ∀ i, i ∈ errs ↔
       i < n ∧ ∃ s p, subs !! i = Some s
                      ∧ SumCmp.ClientSubmissionToServer.proof s = Some p
                      ∧ Verify p (SumCmp.ClientSubmissionToServer.publicWitness s)
                        = false.
Proof.
  induction n as [|n IH]; intros errs H i.
  - injection H as <-. split; [intros Hi; inversion Hi|]. intros [Hi _]. lia.
  - rewrite for_range_0_S in H.
    destruct (for_range 0 n (SumCmp.verifyBody Verify subs) []) as [errs'|];
      [|discriminate].
    cbn [mbind option_bind] in H. unfold SumCmp.verifyBody in H.
    destruct (subs !! n) as [s|] eqn:Es; [|discriminate].
    cbn [mbind option_bind] in H.
    destruct (SumCmp.ClientSubmissionToServer.proof s) as [p|] eqn:Ep; [|discriminate].
    cbn [mbind option_bind] in H. injection H as <-.
    specialize (IH errs' eq_refl i).
    destruct (Verify p (SumCmp.ClientSubmissionToServer.publicWitness s)) eqn:EV.
    + rewrite IH. split.
      * intros [Hi Hx]. split; [lia|exact Hx].
      * intros [Hi (s' & p' & Hs' & Hp' & HV')]. split; [|eauto].
        destruct (decide (i = n)) as [->|Hne]; [|lia].
        rewrite Es in Hs'. injection Hs' as <-. rewrite Ep in Hp'.
        injection Hp' as <-. congruence.
    + rewrite elem_of_app, list_elem_of_singleton, IH. split.
      * intros [[Hi Hx]| ->]; [split; [lia|exact Hx]|].
        split; [lia|]. exists s, p. auto.
      * intros [Hi Hx]. destruct (decide (i = n)) as [->|Hne]; [right; reflexivity|].
        left. split; [lia|exact Hx].
Qed.

(** A failed verification of the sum variant is only printed.  Whenever the
    round of the server ends, the clients it has printed a verification
    error for are exactly those whose proof the verifier rejects; and
    whatever the verifier answers, the round ends with the same verdict on
    the two sets and the same sum. *)
Theorem sum_verification_only_reported {Proof : Type}
    (goMimc : list Element → Element)
    (Prove : SumCmp.sumAndCmpCircuit.t → option Proof)
    (Verify Verify' : Proof → list Element → bool)
    (T : Z) (clients : list SumCmp.Client) (salt : nat → Element)
    (rndVal rndMask : nat → nat) (publicRFr : Element) (res : SumCmp.Result) :
  SumCmp.serverRound goMimc Prove Verify T clients salt rndVal rndMask publicRFr
  = Some res →
  (∀ i, i ∈ SumCmp.verificationErrors res ↔
        ∃ c s p, clients !! i = Some c
                 ∧ SumCmp.clientSubmission goMimc Prove T publicRFr salt i c = Some s
                 ∧ SumCmp.ClientSubmissionToServer.proof s = Some p
                 ∧ Verify p (SumCmp.ClientSubmissionToServer.publicWitness s) = false)
  ∧ ∃ res',
      SumCmp.serverRound goMimc Prove Verify' T clients salt rndVal rndMask publicRFr
      = Some res'
      ∧ SumCmp.setsEqual res' = SumCmp.setsEqual res
      ∧ SumCmp.sum res' = SumCmp.sum res.
Proof.
  unfold SumCmp.serverRound. intros H.
  destruct (Shuffle rndVal _ swapElems (concat (map SumCmp.splittedSecretVal clients)))
    as [vals|]; [|discriminate].
  destruct (Shuffle rndMask _ swapElems (concat (map SumCmp.splittedSecretMask clients)))
    as [dummies|]; [|discriminate].
  cbn [mbind option_bind] in *.
  destruct (mapM id (imap (SumCmp.clientSubmission goMimc Prove T publicRFr salt) clients))
    as [subs|] eqn:Esubs; [|discriminate].
  cbn [mbind option_bind] in *.
  destruct (subs !! 0) as [s0|]; [|discriminate]. cbn [mbind option_bind] in *.
  destruct (SumCmp.ClientSubmissionToServer.proof s0) as [p0|]; [|discriminate].
  cbn [mbind option_bind] in *.
  destruct (for_range 0 (length clients) (SumCmp.verifyBody Verify subs) [])
    as [errs|] eqn:Eloop; [|discriminate].
  cbn [mbind option_bind] in H.
  destruct (ConsistencyCheck vals dummies publicRFr
              (map SumCmp.ClientSubmissionToServer.publicProd subs)) as [ok|];
    [|discriminate].
  cbn [mbind option_bind] in *. injection H as <-.
  cbn [SumCmp.verificationErrors SumCmp.setsEqual SumCmp.sum].
  apply mapM_Some in Esubs.
  assert (Hsub : ∀ i s, subs !! i = Some s ↔
            ∃ c, clients !! i = Some c
                 ∧ SumCmp.clientSubmission goMimc Prove T publicRFr salt i c = Some s).
  { intros i s. split.
    - intros Hs. destruct (Forall2_lookup_r _ _ _ _ _ Esubs Hs) as (x & Hx & E).
      rewrite list_lookup_imap in Hx. destruct (clients !! i) as [c|]; [|discriminate].
      injection Hx as <-. exists c. split; [reflexivity|exact E].
    - intros (c & Hc & Hs).
      destruct (Forall2_lookup_l _ _ _ i (Some s) Esubs) as (y & Hy & E).
      { rewrite list_lookup_imap, Hc. cbn. f_equal. exact Hs. }
      cbn in E. injection E as <-. exact Hy. }
  split.
  - intros i. rewrite (verify_loop_errors Verify subs _ errs Eloop i). split.
    + intros (Hi & s & p & Hs & Hp & HV). apply Hsub in Hs as (c & Hc & Hs).
      exists c, s, p. auto.
    + intros (c & s & p & Hc & Hs & Hp & HV). split.
      * apply lookup_lt_is_Some. eexists. exact Hc.
      * exists s, p. split; [apply Hsub; eauto|]. auto.
  - assert (Hall : ∀ i, i < length clients →
              ∃ s p, subs !! i = Some s
                     ∧ SumCmp.ClientSubmissionToServer.proof s = Some p).
    { apply (proj1 (verify_loop Verify subs (length clients))). eexists. exact Eloop. }
    destruct (proj2 (verify_loop Verify' subs (length clients)) Hall) as (errs' & ->).
    cbn [mbind option_bind]. eexists. split; [reflexivity|]. split; reflexivity.
Qed.

Lemma sum_verification_only_reported_witness :
  (∀ i, i ∈ [0] ↔
        ∃ c s p, [Example.client] !! i = Some c
                 ∧ SumCmp.clientSubmission Example.MiMC Example.ProveSum 2000
                     (NewElement 5) Example.shares i c = Some s
                 ∧ SumCmp.ClientSubmissionToServer.proof s = Some p
                 ∧ (λ _ _, false) p (SumCmp.ClientSubmissionToServer.publicWitness s)
                   = false)
  ∧ ∃ res',
      SumCmp.serverRound Example.MiMC Example.ProveSum Example.VerifySum 2000
        [Example.client] Example.shares Example.draws Example.draws (NewElement 5)
      = Some res'
      ∧ SumCmp.setsEqual res' = true
      ∧ SumCmp.sum res' = 3%Z.
Proof.
  apply (sum_verification_only_reported Example.MiMC Example.ProveSum (λ _ _, false)
           Example.VerifySum 2000 [Example.client] Example.shares Example.draws
           Example.draws (NewElement 5)
           {| SumCmp.verificationErrors := [0]; SumCmp.setsEqual := true;
              SumCmp.sum := 3 |}).
  vm_compute. reflexivity.
Defined.

(** ** Soundness of the fingerprint *)

Lemma peval_cons (c : Element) (p : list Element) (x : Element) :
  peval (c :: p) x = Add c (Mul x (peval p x)).
Proof. reflexivity. Qed.

Lemma peval_app (p p' : list Element) (x : Element) :
  peval (p ++ p') x = Add (peval p x) (Mul (fpow x (length p)) (peval p' x)).
Proof.
  induction p as [|c p IH]; cbn [app length].
  - cbn [fpow peval foldr]. ring.
  - rewrite !peval_cons, IH. cbn [fpow]. ring.
Qed.

Lemma peval_zip_Add (p p' : list Element) (x : Element) :
  length p = length p' →
  peval (zip_with Add p p') x = Add (peval p x) (peval p' x).
Proof.
  revert p'. induction p as [|c p IH]; intros [|c' p'] H; try discriminate.
  - cbn. ring.
  - cbn [zip_with]. rewrite !peval_cons, IH by (cbn in H; lia). ring.
Qed.

Lemma peval_zip_Sub (p p' : list Element) (x : Element) :
  length p = length p' →
  peval (zip_with Sub p p') x = Sub (peval p x) (peval p' x).
Proof.
  revert p'. induction p as [|c p IH]; intros [|c' p'] H; try discriminate.
  - cbn. ring.
  - cbn [zip_with]. rewrite !peval_cons, IH by (cbn in H; lia). ring.
Qed.

Lemma peval_scale (a : Element) (p : list Element) (x : Element) :
  peval (map (Mul a) p) x = Mul a (peval p x).
Proof.
  induction p as [|c p IH]; [cbn; ring|].
  cbn [map]. rewrite !peval_cons, IH. ring.
Qed.

Lemma peval_replicate_Zero (n : nat) (x : Element) :
  peval (replicate n Zero) x = Zero.
Proof.
  induction n as [|n IH]; [reflexivity|].
  cbn [replicate]. rewrite peval_cons, IH. ring.
Qed.

(** Division by [X - a]. *)
Lemma peval_divide (c : Element) (p : list Element) (a : Element) :
  ∃ quo rem, length quo = length p
             ∧ ∀ x, peval (c :: p) x = Add (Mul (Sub x a) (peval quo x)) rem.
Proof.
  revert c. induction p as [|c' p IH]; intros c.
  - exists [], c. split; [reflexivity|]. intros x. cbn. ring.
  - destruct (IH c') as (quo & rem & Hlen & Hq).
    exists (rem :: quo), (Add c (Mul a rem)). split; [cbn; lia|].
    intros x. rewrite (peval_cons c), Hq, peval_cons. ring.
Qed.

(** A polynomial with [n] coefficients and [n] distinct roots vanishes
    everywhere. *)
Lemma peval_roots (n : nat) : ∀ (p rs : list Element),
  length p = n → NoDup rs → n ≤ length rs →
  (∀ r, r ∈ rs → peval p r = Zero) → ∀ x, peval p x = Zero.
Proof.
  induction n as [|n IH]; intros p rs Hp Hnd Hrs Hroots x.
  - destruct p; [reflexivity|discriminate].
  - destruct p as [|c p]; [discriminate|]. cbn [length] in Hp.
    destruct rs as [|r0 rs]; [cbn in Hrs; lia|].
    apply NoDup_cons in Hnd as [Hr0 Hnd].
    destruct (peval_divide c p r0) as (quo & rem & Hlen & Hq).
    assert (Hrem : rem = Zero).
    { pose proof (Hroots r0 ltac:(left)) as H. rewrite Hq in H.
      rewrite <- H. ring. }
    subst rem. rewrite Hq.
    rewrite (IH quo rs); [ring|lia|exact Hnd|cbn in Hrs; lia|].
    intros r Hr. pose proof (Hroots r ltac:(right; exact Hr)) as H. rewrite Hq in H.
    assert (H' : Mul (Sub r r0) (peval quo r) = Zero) by (rewrite <- H; ring).
    apply Mul_eq_Zero in H' as [H'|H']; [|exact H'].
    exfalso. apply Hr0. replace r0 with r; [exact Hr|].
    transitivity (Add (Sub r r0) r0); [ring|]. rewrite H'. ring.
Qed.

(** The fingerprint of [N] values is a monic polynomial of degree [N] in
    the challenge. *)
Lemma Fingerprint_poly (A : list Element) :
  ∃ c, length c = length A
       ∧ ∀ r, Fingerprint A r = Add (peval c r) (fpow r (length A)).
Proof.
  induction A as [|a A (c & Hlen & Hc)].
  - exists []. split; [reflexivity|]. intros r. cbn. ring.
  - exists (zip_with Add (zip_with Add (map (Mul a) c ++ [Zero]) (Zero :: c))
                     (replicate (length A) Zero ++ [a])).
    split.
    + rewrite !length_zip_with, !length_app, length_map, length_replicate.
      cbn [length]. lia.
    + intros r. rewrite Fingerprint_cons, Hc.
      assert (L1 : length (map (Mul a) c ++ [Zero]) = length (Zero :: c)).
      { rewrite length_app, length_map. cbn [length]. lia. }
      assert (L2 : length (zip_with Add (map (Mul a) c ++ [Zero]) (Zero :: c))
                   = length (replicate (length A) Zero ++ [a])).
      { rewrite length_zip_with, !length_app, length_map, length_replicate.
        cbn [length]. lia. }
      rewrite (peval_zip_Add _ _ r L2), (peval_zip_Add _ _ r L1).
      rewrite !peval_app, peval_scale, peval_cons, length_map, length_replicate.
      rewrite peval_replicate_Zero, !peval_cons. change (peval [] r) with Zero.
      cbn [length fpow]. rewrite Hlen. ring.
Qed.

Lemma Fingerprint_agree_everywhere (A B rs : list Element) :
  length A = length B → NoDup rs → length A ≤ length rs →
  (∀ r, r ∈ rs → Fingerprint A r = Fingerprint B r) →
  ∀ x, Fingerprint A x = Fingerprint B x.
Proof.
  intros Hlen Hnd Hrs Hagree x.
  destruct (Fingerprint_poly A) as (cA & HlA & HA).
  destruct (Fingerprint_poly B) as (cB & HlB & HB).
  assert (Hd : ∀ r, peval (zip_with Sub cA cB) r
                    = Sub (Fingerprint A r) (Fingerprint B r)).
  { intros r. rewrite peval_zip_Sub by lia. rewrite HA, HB, Hlen. ring. }
  assert (Hzero : peval (zip_with Sub cA cB) x = Zero).
  { apply (peval_roots (length A) _ rs); [|exact Hnd|exact Hrs|].
    - rewrite length_zip_with. lia.
    - intros r Hr. rewrite Hd, (Hagree r Hr). ring. }
  rewrite Hd in Hzero.
  transitivity (Add (Sub (Fingerprint A x) (Fingerprint B x)) (Fingerprint B x)); [ring|].
  rewrite Hzero. ring.
Qed.

Lemma Equal_false (x y : Element) : Equal x y = false ↔ x ≠ y.
Proof.
  rewrite <- Equal_eq. destruct (Equal x y); split; congruence.
Qed.

Lemma filter_ne_absent (x : Element) (rs : list Element) :
  x ∉ rs → filter (λ r, Equal r x = false) rs = rs.
Proof.
  induction rs as [|r rs IH]; [reflexivity|]. intros Hx.
  apply not_elem_of_cons in Hx as [Hne Hx].
  rewrite filter_cons, decide_True by (apply Equal_false; congruence).
  rewrite IH by exact Hx. reflexivity.
Qed.

Lemma filter_ne_length (x : Element) (rs : list Element) :
  NoDup rs → length rs ≤ S (length (filter (λ r, Equal r x = false) rs)).
Proof.
  intros Hnd. induction Hnd as [|r rs Hr Hnd IH]; [cbn; lia|].
  rewrite filter_cons. destruct (decide (Equal r x = false)) as [Hne|He].
  - cbn [length]. lia.
  - assert (r = x) as -> by (apply Equal_eq; destruct (Equal r x); congruence).
    rewrite filter_ne_absent by exact Hr. cbn [length]. lia.
Qed.

(** Sequences of one length whose fingerprints agree at as many distinct
    challenges as they have elements are permutations of each other. *)
Lemma Fingerprint_sound (A : list Element) : ∀ (B rs : list Element),
  length A = length B → NoDup rs → length A ≤ length rs →
  (∀ r, r ∈ rs → Fingerprint A r = Fingerprint B r) → A ≡ₚ B.
Proof.
  induction A as [|a A IH]; intros B rs Hlen Hnd Hrs Hagree.
  - destruct B; [reflexivity|discriminate].
  - pose proof (Fingerprint_agree_everywhere (a :: A) B rs Hlen Hnd Hrs Hagree) as Hall.
    assert (Ha : a ∈ B).
    { pose proof (Hall (Zmod.opp a)) as H. rewrite Fingerprint_cons in H.
      replace (Add a (Zmod.opp a)) with Zero in H by ring.
      replace (Mul Zero (Fingerprint A (Zmod.opp a))) with Zero in H by ring.
      symmetry in H. apply Fingerprint_zero in H as (b & Hb & E).
      replace a with b; [exact Hb|].
      transitivity (Sub (Add b (Zmod.opp a)) (Zmod.opp a)); [ring|]. rewrite E. ring. }
    apply elem_of_Permutation in Ha as [B' HB'].
    rewrite HB'. apply Permutation_cons; [reflexivity|].
    apply (IH B' (filter (λ r, Equal r (Zmod.opp a) = false) rs)).
    + rewrite HB' in Hlen. cbn [length] in Hlen. lia.
    + apply NoDup_filter. exact Hnd.
    + pose proof (filter_ne_length (Zmod.opp a) rs Hnd). cbn [length] in Hrs. lia.
    + intros r [Hne Hr]%list_elem_of_filter. apply Equal_false in Hne.
      pose proof (Hall r) as H.
      rewrite (Fingerprint_Permutation B (a :: B') r HB'), !Fingerprint_cons in H.
      apply (Mul_cancel_r (Add a r)).
      * intros E. apply Hne. transitivity (Sub (Add a r) a); [ring|]. rewrite E. ring.
      * rewrite (Mul_comm (Fingerprint A r)), (Mul_comm (Fingerprint B' r)). exact H.
Qed.

(** Soundness of [PolyEval]: the converse of its order-independence.  Two
    sequences of one length on which [PolyEval] agrees at as many distinct
    challenges as they have elements are permutations of each other. *)
Theorem PolyEval_sound (A B rs : list Element) :
  length A = length B → NoDup rs → length A ≤ length rs →
  (∀ r, r ∈ rs → PolyEval A r = PolyEval B r) → A ≡ₚ B.
Proof.
  intros Hlen Hnd Hrs Hagree. apply (Fingerprint_sound A B rs Hlen Hnd Hrs).
  intros r Hr. specialize (Hagree r Hr).
  destruct A as [|a A]; destruct B as [|b B]; try discriminate; [reflexivity|].
  rewrite !PolyEval_nonempty in Hagree by discriminate.
  apply (inj Some) in Hagree. exact Hagree.
Qed.

Lemma PolyEval_sound_witness :
  [NewElement 1; NewElement 2] ≡ₚ [NewElement 2; NewElement 1].
Proof.
  apply (PolyEval_sound _ _ [NewElement 5; NewElement 6]).
  - reflexivity.
  - constructor; [|constructor; [|constructor]].
    + intros H. apply list_elem_of_singleton in H. apply NewElement_inj in H; lia.
    + intros H. inversion H.
  - cbn [length]. lia.
  - intros r Hr. apply elem_of_cons in Hr as [->|Hr]; [vm_compute; reflexivity|].
    apply list_elem_of_singleton in Hr as ->. vm_compute. reflexivity.
Defined.

(** Soundness of the consistency check.  The clients having answered
    honestly and no dummy being zero: a sequence [flat] of the length of
    the clients' values that the server accepts, with the clients' dummies,
    at as many distinct challenges as it has elements, is a permutation of
    the clients' values. *)
Theorem ConsistencyCheck_sound (clients : list SumCmp.Client)
    (flat dummies rs : list Element) :
  Forall honest clients →
  length flat = length (concat (map SumCmp.splittedSecretVal clients)) →
  dummies ≡ₚ concat (map SumCmp.splittedSecretMask clients) →
  Forall (λ d, d ≠ Zero) dummies →
  NoDup rs → length flat ≤ length rs →
  (∀ r, r ∈ rs → accepts clients flat dummies r) →
  flat ≡ₚ concat (map SumCmp.splittedSecretVal clients).
Proof.
  intros Hh Hlen Hd Hnz Hnd Hrs Hacc.
  apply (Fingerprint_sound _ _ rs Hlen Hnd Hrs).
  intros r Hr. destruct (Hacc r Hr) as (pp & Hpp & Hc).
  rewrite (allProof_honest clients r Hh) in Hpp. injection Hpp as <-.
  unfold ConsistencyCheck, prodFromShuffler in Hc.
  destruct (PolyEval flat r) as [p|] eqn:Ep; [|discriminate].
  cbn [mbind option_bind] in Hc. apply (inj Some) in Hc. apply Equal_eq in Hc.
  assert (Hp : p = Fingerprint flat r).
  { destruct flat as [|v flat]; [discriminate|].
    rewrite PolyEval_nonempty in Ep by discriminate. congruence. }
  subst p.
  rewrite fold_left_Mul, prodFromClients_fprod, fprod_honestProd in Hc.
  rewrite <- (fprod_Permutation _ _ Hd) in Hc.
  apply Mul_cancel_r in Hc; [exact Hc|]. apply fprod_nonzero. exact Hnz.
Qed.

Lemma ConsistencyCheck_sound_witness :
  [NewElement 2; NewElement 1]
  ≡ₚ concat (map SumCmp.splittedSecretVal [Example.client]).
Proof.
  apply (ConsistencyCheck_sound [Example.client] [NewElement 2; NewElement 1]
           [NewElement 3] [NewElement 5; NewElement 6]).
  - constructor; [|constructor]. split; [discriminate|reflexivity].
  - reflexivity.
  - reflexivity.
  - constructor; [|constructor]. intros H. apply (NewElement_inj 3 0) in H; lia.
  - constructor; [|constructor; [|constructor]].
    + intros H. apply list_elem_of_singleton in H. apply NewElement_inj in H; lia.
    + intros H. inversion H.
  - cbn [length]. lia.
  - intros r Hr. eexists. split; [reflexivity|].
    apply elem_of_cons in Hr as [->|Hr]; [vm_compute; reflexivity|].
    apply list_elem_of_singleton in Hr as ->. vm_compute. reflexivity.
Defined.

(** ** The shuffles *)

(** [rand.Shuffle] with the swap of one slice never panics and returns a
    permutation of the slice, whatever the draws: no value is added,
    dropped or altered. *)
Theorem Shuffle_keeps_multiset {A} (rnd : nat → nat) (l : list A) :
  ∃ l', Shuffle rnd (length l) swapElems l = Some l'
        ∧ l' ≡ₚ l ∧ length l' = length l.
Proof.
  destruct (Shuffle_Permutation rnd l) as (l' & H & Hp).
  exists l'. split; [exact H|]. split; [exact Hp|]. rewrite Hp. reflexivity.
Qed.

(** The shuffle of the votes swaps [shuffledPairFirst] and
    [shuffledPairSecond] at the same positions: on slices of one length it
    never panics, and the votes, as pairs, are permuted; no vote is split,
    whatever the draws. *)
Theorem Shuffle_keeps_votes_paired (rnd : nat → nat) (first second : list Element) :
  length first = length second →
  ∃ first' second',
    Shuffle rnd (length first) Vote.swapPairs (first, second) = Some (first', second')
    ∧ length first' = length first ∧ length second' = length second
    ∧ zip first' second' ≡ₚ zip first second.
Proof. apply Shuffle_pairs. Qed.

Lemma Shuffle_keeps_votes_paired_witness :
  ∃ first' second',
    Shuffle Example.draws (length (map NewElement [1; 1; 0]%Z)) Vote.swapPairs
            (map NewElement [1; 1; 0]%Z, map NewElement [0; 2; 2]%Z)
    = Some (first', second')
    ∧ length first' = length (map NewElement [1; 1; 0]%Z)
    ∧ length second' = length (map NewElement [0; 2; 2]%Z)
    ∧ zip first' second' ≡ₚ zip (map NewElement [1; 1; 0]%Z) (map NewElement [0; 2; 2]%Z).
Proof. apply Shuffle_keeps_votes_paired. reflexivity. Defined.

(** ** Packing a vote *)

(** [first * CandidateNum + second] determines the vote: two votes on
    candidates below [CandidateNum] with the same packed value are the same
    vote. *)
Theorem pack_injective (C a b a' b' : nat) :
  (Z.of_nat C < 2 ^ 64)%Z → a < C → b < C → a' < C → b' < C →
  Vote.pack C (candidate a) (candidate b) = Vote.pack C (candidate a') (candidate b') →
  a = a' ∧ b = b'.
Proof.
  intros HC Ha Hb Ha' Hb' H.
  assert (Hp : ∀ x y, x < C → y < C →
            Zmod.to_Z (Vote.pack C (candidate x) (candidate y))
            = (Z.of_nat C * Z.of_nat x + Z.of_nat y)%Z).
  { intros x y Hx Hy. unfold Vote.pack, candidate, Add, Mul.
    rewrite Zmod.to_Z_add, Zmod.to_Z_mul, !to_Z_NewElement.
    rewrite !(Z.mod_small _ (2 ^ 64)) by lia.
    assert (Z.of_nat C * Z.of_nat x + Z.of_nat y < 2 ^ 128)%Z by nia.
    rewrite (Z.mod_small (Z.of_nat C * Z.of_nat x)) by (unfold q; nia).
    apply Z.mod_small. unfold q. nia. }
  apply (f_equal Zmod.to_Z) in H. rewrite !Hp in H by assumption.
  assert (Z.of_nat a = Z.of_nat a') by nia. split; [lia|nia].
Qed.

Lemma pack_injective_witness :
  Vote.pack 10 (candidate 3) (candidate 7) = Vote.pack 10 (candidate 3) (candidate 7) ∧
  3 = 3 ∧ 7 = 7.
Proof.
  split; [reflexivity|].
  apply (pack_injective 10 3 7 3 7); [lia|lia|lia|lia|lia|reflexivity].
Defined.

(** ** The tally *)

Lemma for_range_None {St} (I : St → Prop) (lo hi i : nat)
    (body : nat → St → option St) (s : St) :
  lo ≤ i < hi → I s →
  (∀ k s s', lo ≤ k < i → I s → body k s = Some s' → I s') →
  (∀ s, I s → body i s = None) →
  for_range lo hi body s = None.
Proof.
  intros Hi Hs Hstep Hnone. unfold for_range.
  replace (hi - lo) with ((i - lo) + S (hi - i - 1)) by lia.
  rewrite seq_app, fold_left_app. cbn [seq fold_left].
  replace (lo + (i - lo)) with i by lia.
  assert (Hpre : ∀ n lo' s, lo ≤ lo' → lo' + n ≤ i → I s →
            fold_left (λ acc k, acc ≫= body k) (seq lo' n) (Some s) = None
            ∨ ∃ s', fold_left (λ acc k, acc ≫= body k) (seq lo' n) (Some s) = Some s'
                    ∧ I s').
  { induction n as [|n IH]; intros lo' t Hlo Hle Ht.
    - right. exists t. split; [reflexivity|exact Ht].
    - cbn [seq fold_left mbind option_bind].
      destruct (body lo' t) as [t'|] eqn:E.
      + apply IH; [lia|lia|]. apply (Hstep lo' t t'); [lia|exact Ht|exact E].
      + left. apply fold_left_bind_None. }
  destruct (Hpre (i - lo) lo s ltac:(lia) ltac:(lia) Hs) as [->|(s' & -> & Hs')].
  - apply fold_left_bind_None.
  - cbn [mbind option_bind]. rewrite (Hnone s' Hs'). apply fold_left_bind_None.
Qed.

(** The server indexes the tally by the votes it is given: a vote on a
    candidate that is not below [CandidateNum] (its low 64 bits, as
    [Uint64] reads them) is an index out of range, and the tally panics. *)
Theorem tally_panics_out_of_range (C : nat) (first second : list Element)
    (i : nat) (f s : Element) :
  first !! i = Some f → second !! i = Some s →
  C ≤ Z.to_nat (Uint64 f) ∨ C ≤ Z.to_nat (Uint64 s) →
  Vote.tally C first second = None.
Proof.
  intros Hf Hs Hout. unfold Vote.tally.
  apply (for_range_None
           (λ cnt, length cnt = C ∧ Forall (λ row, length row = C) cnt) 0 _ i).
  - apply lookup_lt_Some in Hf. lia.
  - rewrite length_replicate. split; [reflexivity|].
    apply Forall_forall. intros row Hrow%elem_of_replicate.
    destruct Hrow as [-> _]. apply length_replicate.
  - intros k cnt cnt' _ [Hl Hrows] Hk. unfold Vote.tallyStep in Hk.
    destruct (first !! k) as [fk|]; [|discriminate].
    destruct (second !! k) as [sk|]; [|discriminate].
    cbn [mbind option_bind] in Hk.
    destruct (cnt !! Z.to_nat (Uint64 fk)) as [row|] eqn:Er; [|discriminate].
    cbn [mbind option_bind] in Hk.
    destruct (row !! Z.to_nat (Uint64 sk)) as [c|]; [|discriminate].
    cbn [mbind option_bind] in Hk.
    destruct (slice_set row _ _) as [row'|] eqn:E1; [|discriminate].
    cbn [mbind option_bind] in Hk.
    apply slice_set_inv in E1 as [_ ->]. apply slice_set_inv in Hk as [_ ->].
    rewrite length_insert. split; [exact Hl|].
    apply Forall_insert; [exact Hrows|]. rewrite length_insert.
    rewrite Forall_forall in Hrows. apply Hrows.
    apply list_elem_of_lookup. eexists. exact Er.
  - intros cnt [Hl Hrows]. unfold Vote.tallyStep. rewrite Hf, Hs.
    cbn [mbind option_bind].
    destruct (cnt !! Z.to_nat (Uint64 f)) as [row|] eqn:Er; [|reflexivity].
    cbn [mbind option_bind].
    destruct Hout as [Ha|Hb].
    + apply lookup_lt_Some in Er. lia.
    + assert (Hrow : length row = C).
      { rewrite Forall_forall in Hrows. apply Hrows.
        apply list_elem_of_lookup. eexists. exact Er. }
      rewrite (proj2 (lookup_ge_None row _)) by lia. reflexivity.
Qed.

Lemma tally_panics_out_of_range_witness :
  Vote.tally 3 (map NewElement [1; 3]%Z) (map NewElement [0; 2]%Z) = None.
Proof.
  apply (tally_panics_out_of_range 3 _ _ 1 (NewElement 3) (NewElement 2)).
  - reflexivity.
  - reflexivity.
  - left. vm_compute. lia.
Defined.

(** *** What the tally counts *)

Lemma pairList_elem_iff {A} (l : list A) (a b : A) :
  (a, b) ∈ pairList l ↔ ∃ i j, i < j ∧ l !! i = Some a ∧ l !! j = Some b.
Proof.
  induction l as [|x l IH].
  - split; [intros H; inversion H|]. intros (i & j & _ & H & _). discriminate.
  - rewrite pairList_cons, elem_of_app, IH. split.
    + intros [H|(i & j & Hij & Hi & Hj)].
      * rewrite map_fmap in H. apply list_elem_of_fmap in H as (y & [= -> ->] & Hy).
        apply list_elem_of_lookup in Hy as [j Hj].
        exists 0, (S j). split; [lia|]. split; [reflexivity|exact Hj].
      * exists (S i), (S j). split; [lia|]. split; assumption.
    + intros (i & j & Hij & Hi & Hj). destruct j as [|j]; [lia|].
      cbn in Hj. destruct i as [|i].
      * left. cbn in Hi. injection Hi as ->.
        rewrite map_fmap. apply list_elem_of_fmap. exists b. split; [reflexivity|].
        apply list_elem_of_lookup. eexists. exact Hj.
      * right. exists i, j. split; [lia|]. split; assumption.
Qed.

Lemma countPair_pairList (l : list nat) (a b : nat) :
  NoDup l →
  countPair a b (pairList l) = if decide ((a, b) ∈ pairList l) then 1 else 0.
Proof.
  intros Hnd. induction Hnd as [|x l Hx Hnd IH].
  - rewrite decide_False by (intros H; inversion H). reflexivity.
  - rewrite pairList_cons, countPair_app, countPair_row, IH by exact Hnd.
    destruct (decide (x = a ∧ b ∈ l)) as [[-> Hb]|Hn].
    + rewrite (decide_False (P := (a, b) ∈ pairList l))
        by (intros H%pairList_elem; tauto).
      rewrite decide_True; [reflexivity|].
      apply elem_of_app. left. rewrite map_fmap. apply list_elem_of_fmap.
      exists b. split; [reflexivity|exact Hb].
    + destruct (decide ((a, b) ∈ pairList l)) as [Hin|Hnin].
      * rewrite decide_True; [reflexivity|]. apply elem_of_app. right. exact Hin.
      * rewrite decide_False; [reflexivity|].
        intros [H|H]%elem_of_app; [|contradiction].
        rewrite map_fmap in H. apply list_elem_of_fmap in H as (y & [= -> ->] & Hy).
        apply Hn. split; [reflexivity|exact Hy].
Qed.

Lemma tallyOf_voters (rk : nat → list nat) (a b : nat) (l : list nat) :
  Forall (λ i, NoDup (rk i)) l →
  tallyOf (map rk l) a b
  = Z.of_nat (length (filter (λ i, (a, b) ∈ pairList (rk i)) l)).
Proof.
  intros H. unfold tallyOf. f_equal. induction H as [|i l Hi _ IH]; [reflexivity|].
  cbn [map concat]. rewrite countPair_app, IH, countPair_pairList by exact Hi.
  rewrite filter_cons. destruct (decide ((a, b) ∈ pairList (rk i))); reflexivity.
Qed.

(** In every run of [VoteGroth16] the tally is a [CandidateNum] by
    [CandidateNum] matrix whose entry [(a, b)] is the number of clients
    whose ranking places [a] before [b]; the diagonal is zero. *)
Theorem tally_counts_rankings {Proof Witness : Type} (MiMC : list Element → Element)
    (Prove : Vote.VoteCircuit.t → Proof * Witness) (Verify : Proof → Witness → bool)
    (C n Max D : nat) (rankRnd : nat → nat → nat) (dummyRnd : nat → nat → Element)
    (salt : nat → Element) (rndPairs rndDummies : nat → nat) (publicR : Element) :
  2 ≤ C → (Z.of_nat C ≤ 2 ^ 64)%Z → 1 ≤ n →
  (Z.of_nat (n * (C * (C - 1) / 2)) < 2 ^ 64)%Z →
  ∃ res,
    Vote.VoteGroth16 MiMC Prove Verify C n Max D rankRnd dummyRnd salt
                     rndPairs rndDummies publicR = Some res
    ∧ length (Vote.comparisonVoteCnt res) = C
    ∧ Forall (λ row, length row = C) (Vote.comparisonVoteCnt res)
    ∧ (∀ a b, a < C → b < C →
         ∃ voters,
           NoDup voters
           ∧ (∀ i, i ∈ voters ↔ i < n ∧ rankedAbove (rankingOf C (rankRnd i)) a b)
           ∧ tallyAt (Vote.comparisonVoteCnt res) a b = Z.of_nat (length voters))
    ∧ (∀ a, a < C → tallyAt (Vote.comparisonVoteCnt res) a a = 0%Z).
Proof.
  intros HC HC64 Hn HN.
  destruct (VoteGroth16_run MiMC Prove Verify C n Max D rankRnd dummyRnd salt
              rndPairs rndDummies publicR HC HC64 Hn HN)
    as (cl & res & _ & _ & Hres & _ & _ & _ & Hcnt & _).
  exists res. split; [exact Hres|]. rewrite Hcnt.
  assert (Hnd : Forall (λ i, NoDup (rankingOf C (rankRnd i))) (seq 0 n)).
  { apply Forall_forall. intros i _.
    destruct (rankingOf_Permutation C (rankRnd i)) as [_ Hp].
    rewrite Hp. apply NoDup_ListNoDup, seq_NoDup. }
  assert (Hcount : ∀ a b, a < C → b < C →
            ∃ voters, NoDup voters
              ∧ (∀ i, i ∈ voters ↔ i < n ∧ rankedAbove (rankingOf C (rankRnd i)) a b)
              ∧ tallyAt (matrixOf C (tallyOf (rankingsOf C n rankRnd))) a b
                = Z.of_nat (length voters)).
  { intros a b Ha Hb.
    exists (filter (λ i, (a, b) ∈ pairList (rankingOf C (rankRnd i))) (seq 0 n)).
    split; [apply NoDup_filter, NoDup_ListNoDup, seq_NoDup|]. split.
    - intros i. rewrite list_elem_of_filter, pairList_elem_iff.
      unfold rankedAbove. split.
      + intros [H Hi%list_elem_of_In%in_seq]. split; [lia|exact H].
      + intros [Hi H]. split; [exact H|]. apply list_elem_of_In, in_seq. lia.
    - rewrite tallyAt_matrixOf by assumption. unfold rankingsOf.
      apply (tallyOf_voters (λ i, rankingOf C (rankRnd i))). exact Hnd. }
  split_and!.
  - unfold matrixOf. rewrite length_map, length_seq. reflexivity.
  - unfold matrixOf. apply Forall_forall. intros row Hrow.
    apply list_elem_of_In, in_map_iff in Hrow as (a & <- & _).
    rewrite length_map, length_seq. reflexivity.
  - exact Hcount.
  - intros a Ha. destruct (Hcount a a Ha Ha) as (voters & _ & Hv & ->).
    destruct voters as [|i voters]; [reflexivity|exfalso].
    destruct (proj1 (Hv i) ltac:(left)) as [_ (x & y & Hxy & Hx & Hy)].
    destruct (rankingOf_Permutation C (rankRnd i)) as [_ Hp].
    assert (Hnd' : NoDup (rankingOf C (rankRnd i))).
    { rewrite Hp. apply NoDup_ListNoDup, seq_NoDup. }
    pose proof (NoDup_lookup _ _ _ _ Hnd' Hx Hy). lia.
Qed.

Lemma tally_counts_rankings_witness :
  ∃ res,
    Vote.VoteGroth16 Example.MiMC Example.Prove Example.Verify 3 2 1 2
                     Example.rankRnd Example.shares2 Example.shares
                     Example.draws Example.draws (NewElement 5) = Some res
    ∧ length (Vote.comparisonVoteCnt res) = 3
    ∧ Forall (λ row, length row = 3) (Vote.comparisonVoteCnt res)
    ∧ (∀ a b, a < 3 → b < 3 →
         ∃ voters,
           NoDup voters
           ∧ (∀ i, i ∈ voters
                   ↔ i < 2 ∧ rankedAbove (rankingOf 3 (Example.rankRnd i)) a b)
           ∧ tallyAt (Vote.comparisonVoteCnt res) a b = Z.of_nat (length voters))
    ∧ (∀ a, a < 3 → tallyAt (Vote.comparisonVoteCnt res) a a = 0%Z).
Proof. apply tally_counts_rankings; [lia|lia|lia|simpl; lia]. Defined.

(** ** What the verification loop does *)

Section VerificationReport.

Context {Proof Witness : Type}.
Variable Prove : Vote.VoteCircuit.t → Proof * Witness.
Variable Verify : Proof → Witness → bool.

(** The errors printed for the clients below [k]. *)
Lemma verifyAll_output (Max : nat) (cas : list (Vote.ClientState * Vote.VoteCircuit.t)) :
  ∃ out, Vote.verifyAll Verify Max (imap (Vote.submit Prove Max) cas)
         = Some (seq 0 (Max `min` length cas), out)
    ∧ ∀ e, e ∈ out ↔
        ∃ i ca, e = Vote.VerificationError i ∧ i < Max ∧ cas !! i = Some ca
                ∧ Verify (Prove ca.2).1 (Prove ca.2).2 = false.
Proof using Type.
  unfold Vote.verifyAll. rewrite length_imap.
  destruct (for_range_invariant
    (λ k st, st.1 = seq 0 (Max `min` k)
             ∧ ∀ e, e ∈ st.2 ↔
                 ∃ i ca, e = Vote.VerificationError i ∧ i < Max ∧ i < k
                         ∧ cas !! i = Some ca
                         ∧ Verify (Prove ca.2).1 (Prove ca.2).2 = false)
    0 (length cas)
    (Vote.verifyBody Verify Max (imap (Vote.submit Prove Max) cas)) ([], []))
    as ([ver out] & -> & Hv & Ho).
  - lia.
  - cbn [fst snd]. rewrite Nat.min_0_r. split; [reflexivity|].
    intros e. split; [intros H; inversion H|]. intros (i & ca & _ & _ & Hi & _). lia.
  - intros i [ver out] Hi [Hv Ho]. cbn [fst snd] in *. unfold Vote.verifyBody.
    destruct (decide (i < Max)) as [Hlt|Hge].
    + rewrite list_lookup_imap.
      destruct (lookup_lt_is_Some_2 cas i ltac:(lia)) as [ca Hca]. rewrite Hca.
      cbn [fmap option_fmap option_map mbind option_bind].
      unfold Vote.submit at 1 2. rewrite decide_True by exact Hlt.
      cbn [Vote.proof Vote.publicWitness mbind option_bind fst snd].
      eexists. split; [reflexivity|]. cbn [fst snd]. split.
      * rewrite Hv. replace (Max `min` i) with i by lia.
        replace (Max `min` S i) with (S i) by lia. rewrite seq_S. reflexivity.
      * intros e. destruct (Verify (Prove ca.2).1 (Prove ca.2).2) eqn:EV.
        -- rewrite Ho. split.
           ++ intros (k & ck & He & Hk1 & Hk2 & Hk3 & Hk4).
              exists k, ck. split_and!; try assumption. lia.
           ++ intros (k & ck & He & Hk1 & Hk2 & Hk3 & Hk4).
              exists k, ck. split_and!; try assumption.
              destruct (decide (k = i)) as [->|]; [|lia].
              rewrite Hca in Hk3. injection Hk3 as <-. congruence.
        -- rewrite elem_of_app, Ho, list_elem_of_singleton. split.
           ++ intros [(k & ck & He & Hk1 & Hk2 & Hk3 & Hk4)| ->].
              ** exists k, ck. split_and!; try assumption. lia.
              ** exists i, ca. split_and!; try assumption; [reflexivity|lia].
           ++ intros (k & ck & He & Hk1 & Hk2 & Hk3 & Hk4).
              destruct (decide (k = i)) as [->|].
              ** right. exact He.
              ** left. exists k, ck. split_and!; try assumption. lia.
    + eexists. split; [reflexivity|]. cbn [fst snd]. split.
      * rewrite Hv. f_equal. lia.
      * intros e. rewrite Ho. split.
        -- intros (k & ck & He & Hk1 & Hk2 & Hk3 & Hk4).
           exists k, ck. split_and!; try assumption. lia.
        -- intros (k & ck & He & Hk1 & Hk2 & Hk3 & Hk4).
           exists k, ck. split_and!; try assumption. lia.
  - cbn [fst snd] in *. exists out. rewrite Hv. split; [reflexivity|].
    intros e. rewrite Ho. split.
    + intros (k & ck & He & Hk1 & Hk2 & Hk3 & Hk4). exists k, ck. split_and!; assumption.
    + intros (k & ck & He & Hk1 & Hk3 & Hk4). exists k, ck. split_and!; try assumption.
      apply lookup_lt_Some in Hk3. exact Hk3.
Qed.

(** What a finished round has run through. *)
Lemma round_inv (C Max D : nat) (clients : list Vote.ClientState)
    (rndPairs rndDummies : nat → nat) (publicR : Element) (res : Vote.Result) :
  Vote.round Prove Verify C Max D clients rndPairs rndDummies publicR = Some res →
  ∃ cas ver outv w outw,
    mapM (λ c, Vote.GenAssignment C c publicR) clients = Some cas
    ∧ Vote.submissions res = imap (Vote.submit Prove Max) cas
    ∧ Vote.verifyAll Verify Max (Vote.submissions res) = Some (ver, outv)
    ∧ Vote.findSoleWinner C (Z.of_nat (length clients)) (Vote.comparisonVoteCnt res)
      = Some (w, outw)
    ∧ Vote.output res
      = (if Vote.productsEqual res then outv else outv ++ [Vote.ProductsNotEqual]) ++ outw.
Proof using Type.
  unfold Vote.round. intros H.
  repeat match type of H with
  | (match ?x with _ => _ end) = Some _ => destruct x eqn:?; try discriminate
  | (?x ≫= _) = Some _ => destruct x eqn:?; cbn [mbind option_bind] in H; try discriminate
  | (let '(_, _) := ?x in _) = Some _ => destruct x eqn:?
  end.
  injection H as <-.
  cbn [Vote.submissions Vote.output Vote.productsEqual Vote.comparisonVoteCnt].
  eexists _, _, _, _, _. split_and!; try eassumption; reflexivity.
Qed.

End VerificationReport.

(** A failed verification is only printed.  In every run of [VoteGroth16]
    an error is printed for client [i] exactly when [i] is below
    [MaxNumOfCheckProof] and the verifier rejects its proof; and whatever
    the verifier answers, the run ends with the same tally, the same winner
    and the same verdict on the products. *)
Theorem verification_only_reported {Proof Witness : Type}
    (MiMC : list Element → Element)
    (Prove : Vote.VoteCircuit.t → Proof * Witness)
    (Verify Verify' : Proof → Witness → bool)
    (C n Max D : nat) (rankRnd : nat → nat → nat) (dummyRnd : nat → nat → Element)
    (salt : nat → Element) (rndPairs rndDummies : nat → nat) (publicR : Element) :
  2 ≤ C → (Z.of_nat C ≤ 2 ^ 64)%Z → 1 ≤ n →
  (Z.of_nat (n * (C * (C - 1) / 2)) < 2 ^ 64)%Z →
  ∃ res res',
    Vote.VoteGroth16 MiMC Prove Verify C n Max D rankRnd dummyRnd salt
                     rndPairs rndDummies publicR = Some res
    ∧ Vote.VoteGroth16 MiMC Prove Verify' C n Max D rankRnd dummyRnd salt
                       rndPairs rndDummies publicR = Some res'
    ∧ (∀ i, (Vote.VerificationError i ∈ Vote.output res) ↔
            i < Max ∧ ∃ s p w, Vote.submissions res !! i = Some s
                               ∧ Vote.proof s = Some p ∧ Vote.publicWitness s = Some w
                               ∧ Verify p w = false)
    ∧ Vote.comparisonVoteCnt res = Vote.comparisonVoteCnt res'
    ∧ Vote.soleWinner res = Vote.soleWinner res'
    ∧ Vote.productsEqual res = Vote.productsEqual res'
    ∧ Vote.shufflerProd res = Vote.shufflerProd res'
    ∧ Vote.clientProd res = Vote.clientProd res'.
Proof.
  intros HC HC64 Hn HN.
  destruct (VoteGroth16_run MiMC Prove Verify C n Max D rankRnd dummyRnd salt
              rndPairs rndDummies publicR HC HC64 Hn HN)
    as (cl & res & Hcl & Hlen & Hres & Hsub & _ & Heq & Hcnt & Hw & _ & _ & _ & Hcp & Hsp).
  destruct (VoteGroth16_run MiMC Prove Verify' C n Max D rankRnd dummyRnd salt
              rndPairs rndDummies publicR HC HC64 Hn HN)
    as (cl' & res' & Hcl' & _ & Hres' & _ & _ & Heq' & Hcnt' & Hw' & _ & _ & _ & Hcp' & Hsp').
  rewrite Hcl in Hcl'. injection Hcl' as <-.
  exists res, res'. split; [exact Hres|]. split; [exact Hres'|].
  split; [|split_and!; congruence].
  unfold Vote.VoteGroth16 in Hres. rewrite Hcl in Hres. cbn [mbind option_bind] in Hres.
  destruct (round_inv Prove Verify C Max D cl rndPairs rndDummies publicR res Hres)
    as (cas & ver & outv & w & outw & Hcas & Hsub' & Hver & Hfind & Hout).
  rewrite Heq in Hout.
  destruct (verifyAll_output Prove Verify Max cas) as (out & Hver' & Hchar).
  rewrite Hsub' in Hver. rewrite Hver' in Hver. injection Hver as _ <-.
  rewrite Hcnt in Hfind.
  destruct (findSoleWinner_spec C (tallyOf (rankingsOf C n rankRnd))
              (Z.of_nat (length cl))) as (out0 & Hfind' & Hq & _).
  rewrite Hfind' in Hfind. injection Hfind as _ <-.
  assert (Hnot : ∀ i, Vote.VerificationError i ∉
            (if (winnerUpTo C (tallyOf (rankingsOf C n rankRnd)) C =? -1)%Z
             then out0 ++ [Vote.NoSoleWinner] else out0)).
  { intros i H.
    assert (H0 : Vote.VerificationError i ∈ out0).
    { destruct (_ =? _)%Z; [|exact H].
      apply elem_of_app in H as [H|H%list_elem_of_singleton]; [exact H|discriminate]. }
    unfold quiet in Hq. rewrite Forall_forall in Hq.
    destruct (Hq _ H0) as [E|(k & v & E)]; discriminate. }
  intros i. rewrite Hout, elem_of_app, Hchar, Hsub'. split.
  - intros [(k & ca & [= <-] & Hk & Hca & HV)|H]; [|destruct (Hnot i H)].
    split; [exact Hk|].
    exists (Vote.submit Prove Max i ca), (Prove ca.2).1, (Prove ca.2).2.
    rewrite list_lookup_imap, Hca. cbn [fmap option_fmap option_map].
    unfold Vote.submit. rewrite decide_True by exact Hk.
    split_and!; [reflexivity|reflexivity|reflexivity|exact HV].
  - intros (Hi & s & p & pw & Hs & Hp & Hpw & HV). left.
    apply submissions_lookup in Hs as (ca & Hca & Hlt & _).
    destruct (Hlt Hi) as [E1 E2]. rewrite E1 in Hp. rewrite E2 in Hpw.
    injection Hp as <-. injection Hpw as <-.
    exists i, ca. split_and!; [reflexivity|exact Hi|exact Hca|exact HV].
Qed.

Lemma verification_only_reported_witness :
  ∃ res res',
    Vote.VoteGroth16 Example.MiMC Example.Prove (λ _ _, false) 3 2 1 2
                     Example.rankRnd Example.shares2 Example.shares
                     Example.draws Example.draws (NewElement 5) = Some res
    ∧ Vote.VoteGroth16 Example.MiMC Example.Prove Example.Verify 3 2 1 2
                       Example.rankRnd Example.shares2 Example.shares
                       Example.draws Example.draws (NewElement 5) = Some res'
    ∧ (∀ i, (Vote.VerificationError i ∈ Vote.output res) ↔
            i < 1 ∧ ∃ s p w, Vote.submissions res !! i = Some s
                             ∧ Vote.proof s = Some p ∧ Vote.publicWitness s = Some w
                             ∧ (λ _ _ : unit, false) p w = false)
    ∧ Vote.comparisonVoteCnt res = Vote.comparisonVoteCnt res'
    ∧ Vote.soleWinner res = Vote.soleWinner res'
    ∧ Vote.productsEqual res = Vote.productsEqual res'
    ∧ Vote.shufflerProd res = Vote.shufflerProd res'
    ∧ Vote.clientProd res = Vote.clientProd res'.
Proof.
  apply (verification_only_reported Example.MiMC Example.Prove (λ _ _, false)
           Example.Verify); [lia|lia|lia|simpl; lia].
Defined.

(** ** The candidate loop *)

Lemma beatsAll_events (cnt : list (list Z)) (n : Z) (i : nat) (js : list nat) :
  ∀ out ok out',
  Vote.beatsAll cnt n i js out = Some (ok, out') →
  (∀ e, e ∈ out → e ∈ out')
  ∧ (∀ e, e ∈ out' → e ∈ out ∨ e = Vote.ComparisonNotCorrect).
Proof.
  induction js as [|j js IH]; intros out ok out' H; cbn [Vote.beatsAll] in H.
  - injection H as _ <-. split; auto.
  - destruct (decide (i = j)); [apply (IH _ _ _ H)|].
    destruct (cnt !! i) as [ri|]; [|discriminate]. cbn [mbind option_bind] in H.
    destruct (ri !! j) as [cij|]; [|discriminate]. cbn [mbind option_bind] in H.
    destruct (cnt !! j) as [rj|]; [|discriminate]. cbn [mbind option_bind] in H.
    destruct (rj !! i) as [cji|]; [|discriminate]. cbn [mbind option_bind] in H.
    destruct (cij <=? cji)%Z; [injection H as _ <-; split; auto|].
    apply IH in H as [H1 H2].
    destruct (_ =? _)%Z; [split; assumption|]. split.
    + intros e He. apply H1. apply elem_of_app. left. exact He.
    + intros e He. destruct (H2 e He) as [H|H]; [|right; exact H].
      apply elem_of_app in H as [H|H%list_elem_of_singleton]; [left|right]; assumption.
Qed.

Lemma matrixOf_tallyAt (C : nat) (cnt : list (list Z)) :
  length cnt = C → Forall (λ row, length row = C) cnt →
  cnt = matrixOf C (tallyAt cnt).
Proof.
  intros Hl Hrows. apply list_eq. intros a. unfold matrixOf.
  rewrite map_fmap, list_lookup_fmap.
  destruct (decide (a < C)) as [Ha|Ha].
  - rewrite lookup_seq_lt by exact Ha. cbn [fmap option_fmap option_map].
    destruct (lookup_lt_is_Some_2 cnt a ltac:(lia)) as [row Hrow].
    transitivity (Some row); [exact Hrow|]. change (0 + a) with a.
    f_equal. assert (Hlen : length row = C).
    { rewrite Forall_forall in Hrows. apply Hrows.
      apply list_elem_of_lookup. eexists. exact Hrow. }
    apply list_eq. intros b. rewrite map_fmap, list_lookup_fmap.
    destruct (decide (b < C)) as [Hb|Hb].
    + rewrite lookup_seq_lt by exact Hb. cbn [fmap option_fmap option_map].
      destruct (lookup_lt_is_Some_2 row b ltac:(lia)) as [c Hc].
      transitivity (Some c); [exact Hc|]. change (0 + b) with b.
      unfold tallyAt. rewrite Hrow. cbn [mbind option_bind]. rewrite Hc. reflexivity.
    + rewrite lookup_seq_ge by lia. apply lookup_ge_None. lia.
  - rewrite lookup_seq_ge by lia. apply lookup_ge_None. lia.
Qed.

Lemma winnerBody_events (C : nat) (g : nat → nat → Z) (n : Z) (i : nat)
    (w : Z) (out : list Vote.Output) :
  i < C →
  ∃ out', Vote.winnerBody C n (matrixOf C g) i (w, out)
          = Some (if okAt C g i then Z.of_nat i else w, out')
    ∧ (∀ k votes, Vote.SoleWinnerIs k votes ∈ out' ↔
         Vote.SoleWinnerIs k votes ∈ out
         ∨ (okAt C g i = true ∧ k = i ∧ votes = map (g i) (seq 0 C)))
    ∧ (Vote.NoSoleWinner ∈ out' ↔ Vote.NoSoleWinner ∈ out).
Proof.
  intros Hi. unfold Vote.winnerBody. cbn [snd fst].
  destruct (beatsAll_spec C g n i (seq 0 C) Hi) with (out := out)
    as (out1 & Hb & _).
  { apply Forall_forall. intros j Hj%list_elem_of_In%in_seq. lia. }
  rewrite Hb. apply beatsAll_events in Hb as [H1 H2].
  cbn [mbind option_bind]. fold (okAt C g i).
  assert (Hs : ∀ k votes, Vote.SoleWinnerIs k votes ∈ out1
                          ↔ Vote.SoleWinnerIs k votes ∈ out).
  { intros k votes. split; [|apply H1].
    intros H. destruct (H2 _ H) as [H'|H']; [exact H'|discriminate]. }
  assert (Hn : Vote.NoSoleWinner ∈ out1 ↔ Vote.NoSoleWinner ∈ out).
  { split; [|apply H1].
    intros H. destruct (H2 _ H) as [H'|H']; [exact H'|discriminate]. }
  destruct (okAt C g i).
  - rewrite (matrixOf_row C g i Hi). cbn [mbind option_bind].
    pose proof (mapM_lookup_id (map (g i) (seq 0 C))) as E.
    rewrite length_map, length_seq in E. rewrite E. clear E.
    cbn [mbind option_bind].
    eexists. split; [reflexivity|]. split.
    + intros k votes. rewrite elem_of_app, Hs, list_elem_of_singleton. split.
      * intros [H|[= -> ->]]; [left; exact H|right; auto].
      * intros [H|(_ & -> & ->)]; [left; exact H|right; reflexivity].
    + rewrite elem_of_app, Hn, list_elem_of_singleton. split; [|auto].
      intros [H|H]; [exact H|discriminate].
  - exists out1. split; [reflexivity|]. split; [|exact Hn].
    intros k votes. rewrite Hs. split; [auto|].
    intros [H|(H & _)]; [exact H|discriminate].
Qed.

(** On every [CandidateNum] by [CandidateNum] tally the candidate loop
    ends without a panic, and "The sole winner is i" is printed for at most
    one candidate: it is printed for [i], with row [i] of the tally,
    exactly when [i] beats every other candidate; [soleWinner] is then [i],
    and "There is no sole winner" is printed exactly when nothing was
    printed for any candidate. *)
Theorem sole_winner_printed_once (C : nat) (ClientNum : Z) (cnt : list (list Z)) :
  length cnt = C → Forall (λ row, length row = C) cnt →
  ∃ w out,
    Vote.findSoleWinner C ClientNum cnt = Some (w, out)
    ∧ (∀ i votes, (Vote.SoleWinnerIs i votes ∈ out) ↔
         i < C ∧ cnt !! i = Some votes
         ∧ ∀ j, j < C → j ≠ i → (tallyAt cnt i j > tallyAt cnt j i)%Z)
    ∧ (∀ i votes, Vote.SoleWinnerIs i votes ∈ out → w = Z.of_nat i)
    ∧ (∀ i votes i' votes',
         Vote.SoleWinnerIs i votes ∈ out → Vote.SoleWinnerIs i' votes' ∈ out →
         i = i' ∧ votes = votes')
    ∧ ((Vote.NoSoleWinner ∈ out) ↔ ∀ i votes, Vote.SoleWinnerIs i votes ∉ out).
Proof.
  intros Hl Hrows. pose proof (matrixOf_tallyAt C cnt Hl Hrows) as Em.
  replace (Vote.findSoleWinner C ClientNum cnt)
    with (Vote.findSoleWinner C ClientNum (matrixOf C (tallyAt cnt)))
    by (f_equal; symmetry; exact Em).
  set (g := tallyAt cnt) in *. unfold Vote.findSoleWinner.
  destruct (for_range_invariant
    (λ k st, st.1 = winnerUpTo C g k
             ∧ (∀ i votes, Vote.SoleWinnerIs i votes ∈ st.2 ↔
                  i < k ∧ okAt C g i = true ∧ votes = map (g i) (seq 0 C))
             ∧ Vote.NoSoleWinner ∉ st.2)
    0 C (Vote.winnerBody C ClientNum (matrixOf C g)) ((-1)%Z, []))
    as ([w out] & -> & Hw & Hs & Hn).
  - lia.
  - cbn [fst snd]. split; [reflexivity|]. split; [|apply not_elem_of_nil].
    intros i votes. split; [intros H; inversion H|]. intros [H _]. lia.
  - intros i [w out] Hi (Hw & Hs & Hn). cbn [fst snd] in *.
    destruct (winnerBody_events C g ClientNum i w out ltac:(lia))
      as (out' & -> & Hs' & Hn').
    eexists. split; [reflexivity|]. cbn [fst snd winnerUpTo]. rewrite Hw.
    split; [reflexivity|]. split; [|rewrite Hn'; exact Hn].
    intros k votes. rewrite Hs', Hs. split.
    + intros [(H1 & H2 & H3)|(H1 & -> & H3)]; (split; [lia|split; assumption]).
    + intros (H1 & H2 & H3). destruct (decide (k = i)) as [->|Hne].
      * right. auto.
      * left. split; [lia|]. split; assumption.
  - cbn [fst snd mbind option_bind] in *. subst w.
    assert (Hrow : ∀ i, i < C → cnt !! i = Some (map (g i) (seq 0 C))).
    { intros i Hi. transitivity (matrixOf C g !! i); [f_equal; exact Em|].
      apply matrixOf_row. exact Hi. }
    assert (Hs0 : ∀ i votes, Vote.SoleWinnerIs i votes ∈ out ↔
              i < C ∧ cnt !! i = Some votes
              ∧ ∀ j, j < C → j ≠ i → (g i j > g j i)%Z).
    { intros i votes. rewrite Hs, okAt_true. split.
      - intros (H1 & H2 & ->). split; [exact H1|]. split; [apply Hrow; exact H1|exact H2].
      - intros (H1 & H2 & H3). split; [exact H1|]. split; [exact H3|].
        rewrite (Hrow i H1) in H2. injection H2 as <-. reflexivity. }
    assert (Hwin : ∀ i votes, Vote.SoleWinnerIs i votes ∈ out →
              winnerUpTo C g C = Z.of_nat i).
    { intros i votes (H1 & H2 & _)%Hs. apply winnerUpTo_ok; [lia|exact H1|exact H2]. }
    eexists _, _. split; [reflexivity|]. split; [|split; [|split]].
    + intros i votes. destruct (Z.eqb_spec (winnerUpTo C g C) (-1)) as [E|E].
      * rewrite <- Hs0, elem_of_app, list_elem_of_singleton. split; [|auto].
        intros [H|H]; [exact H|discriminate].
      * apply Hs0.
    + intros i votes H. apply (Hwin i votes).
      destruct (_ =? _)%Z; [|exact H].
      apply elem_of_app in H as [H|H%list_elem_of_singleton]; [exact H|discriminate].
    + assert (Hin : ∀ i votes,
                Vote.SoleWinnerIs i votes
                ∈ (if (winnerUpTo C g C =? -1)%Z then out ++ [Vote.NoSoleWinner] else out)
                → Vote.SoleWinnerIs i votes ∈ out).
      { intros i votes H. destruct (_ =? _)%Z; [|exact H].
        apply elem_of_app in H as [H|H%list_elem_of_singleton]; [exact H|discriminate]. }
      intros i votes i' votes' H%Hin H'%Hin.
      pose proof (Hwin _ _ H) as E. pose proof (Hwin _ _ H') as E'.
      assert (i = i') by lia. subst i'. split; [reflexivity|].
      apply Hs in H as (_ & _ & ->). apply Hs in H' as (_ & _ & ->). reflexivity.
    + destruct (Z.eqb_spec (winnerUpTo C g C) (-1)) as [E|E].
      * split.
        -- intros _ i votes H.
           apply elem_of_app in H as [H|H%list_elem_of_singleton]; [|discriminate].
           pose proof (Hwin _ _ H). lia.
        -- intros _. apply elem_of_app. right. apply list_elem_of_singleton. reflexivity.
      * split; [intros H; contradiction|]. intros H. exfalso.
        destruct (winnerUpTo_range C g C) as [E'|(i & Hi & Ho & E')]; [contradiction|].
        apply (H i (map (g i) (seq 0 C))). apply Hs. auto.
Qed.

Lemma sole_winner_printed_once_witness :
  ∃ w out,
    Vote.findSoleWinner 3 2 [[0; 2; 2]; [0; 0; 1]; [0; 1; 0]]%Z = Some (w, out)
    ∧ (∀ i votes, (Vote.SoleWinnerIs i votes ∈ out) ↔
         i < 3 ∧ [[0; 2; 2]; [0; 0; 1]; [0; 1; 0]]%Z !! i = Some votes
         ∧ ∀ j, j < 3 → j ≠ i →
             (tallyAt [[0; 2; 2]; [0; 0; 1]; [0; 1; 0]] i j
              > tallyAt [[0; 2; 2]; [0; 0; 1]; [0; 1; 0]] j i)%Z)
    ∧ (∀ i votes, Vote.SoleWinnerIs i votes ∈ out → w = Z.of_nat i)
    ∧ (∀ i votes i' votes',
         Vote.SoleWinnerIs i votes ∈ out → Vote.SoleWinnerIs i' votes' ∈ out →
         i = i' ∧ votes = votes')
    ∧ ((Vote.NoSoleWinner ∈ out) ↔ ∀ i votes, Vote.SoleWinnerIs i votes ∉ out).
Proof.
  apply (sole_winner_printed_once 3 2 [[0; 2; 2]; [0; 0; 1]; [0; 1; 0]]%Z).
  - reflexivity.
  - repeat constructor.
Defined.

(** ** [VoteCircuit.Define] *)

Lemma base_decompose (C m k : nat) :
  k < base C m → ∃ i j, i < m ∧ j < C - i - 1 ∧ k = base C i + j.
Proof.
  induction m as [|m IH]; cbn [base]; [lia|]. intros Hk.
  destruct (decide (k < base C m)) as [Hlt|Hge].
  - destruct (IH Hlt) as (i & j & Hi & Hj & E). exists i, j. split; [lia|]. split; assumption.
  - exists m, (k - base C m). split; [lia|]. split; lia.
Qed.

Lemma base_row_bound (C i j : nat) :
  i < C → j < C - i - 1 → base C i + j < C * (C - 1) / 2.
Proof.
  intros Hi Hj. pose proof (base_mono C (S i) C ltac:(lia)) as Hm.
  cbn [base] in Hm. rewrite base_total in Hm. lia.
Qed.

Lemma forallb_take_S {A} (P : A → bool) (l : list A) (k : nat) (x : A) :
  l !! k = Some x → forallb P (take (S k) l) = forallb P (take k l) && P x.
Proof.
  intros H. rewrite (take_S_r _ _ _ H), forallb_app. cbn [forallb].
  rewrite andb_true_r. reflexivity.
Qed.

Section DefineLoops.

Variable C : nat.
Variable circuit : Vote.VoteCircuit.t.
Local Abbreviation sorted := (Vote.VoteCircuit.SortedCandidate circuit).
Local Abbreviation first := (Vote.VoteCircuit.PairFirstVar circuit).
Local Abbreviation second := (Vote.VoteCircuit.PairSecondVar circuit).
Local Abbreviation n := (C * (C - 1) / 2).
Hypothesis Hsorted : length sorted = C.
Hypothesis Hfirst : length first = n.
Hypothesis Hsecond : length second = n.

Lemma packedVotes_length : length (packedVotes C circuit) = n.
Proof using Hsorted Hfirst Hsecond.
  unfold packedVotes. rewrite length_zip_with. lia.
Qed.

Lemma pairStep_spec (i j : nat) :
  i < C → j < C - i - 1 →
  VoteDefine.pairStep C circuit i (base C i) j
    (pairsAgree circuit (base C i + j), processedUpTo C circuit (base C i + j))
  = Some (pairsAgree circuit (S (base C i + j)), processedUpTo C circuit (S (base C i + j))).
Proof using Hsorted Hfirst Hsecond.
  intros Hi Hj. pose proof (base_row_bound C i j Hi Hj) as Hb.
  set (k := base C i + j) in *.
  destruct (lookup_lt_is_Some_2 first k ltac:(lia)) as [f Hf].
  destruct (lookup_lt_is_Some_2 second k ltac:(lia)) as [s Hs].
  destruct (lookup_lt_is_Some_2 sorted i ltac:(lia)) as [x Hx].
  destruct (lookup_lt_is_Some_2 sorted (i + j + 1) ltac:(lia)) as [y Hy].
  unfold VoteDefine.pairStep. fold k.
  rewrite Hf, Hx, Hs, Hy. cbn [mbind option_bind].
  assert (Hp : packedVotes C circuit !! k = Some (packInCircuit C f s)).
  { unfold packedVotes. rewrite lookup_zip_with, Hf, Hs. reflexivity. }
  assert (Hset : slice_set (processedUpTo C circuit k) k
                   (Some (Add (Mul f (VoteDefine.constant C)) s))
                 = Some (processedUpTo C circuit (S k))).
  { unfold processedUpTo.
    assert (Hlen : length (map Some (take k (packedVotes C circuit))) = k).
    { rewrite length_map, length_take, packedVotes_length. lia. }
    pose proof (slice_set_next (map Some (take k (packedVotes C circuit)))
                  (C * (C - 1) / 2 - k) None
                  (Some (Add (Mul f (VoteDefine.constant C)) s)) ltac:(lia)) as E.
    rewrite Hlen in E. rewrite E. f_equal.
    rewrite (take_S_r _ _ _ Hp), map_app. cbn [map].
    replace (n - S k) with (n - k - 1) by lia. reflexivity. }
  rewrite Hset. cbn [mbind option_bind]. f_equal. f_equal.
  unfold pairsAgree.
  erewrite (forallb_take_S _ _ k (f, s, (x, y))).
  - rewrite andb_assoc. reflexivity.
  - rewrite !lookup_zip_with, Hf, Hs. cbn [mbind option_bind].
    unfold k. rewrite <- Hsorted.
    rewrite (pairList_lookup sorted i j x y Hx Hy). reflexivity.
Qed.

Lemma pairRow_spec (i : nat) :
  i < C →
  VoteDefine.pairRow C circuit i
    (pairsAgree circuit (base C i), processedUpTo C circuit (base C i), base C i)
  = Some (pairsAgree circuit (base C (S i)), processedUpTo C circuit (base C (S i)), base C (S i)).
Proof using Hsorted Hfirst Hsecond.
  intros Hi. unfold VoteDefine.pairRow.
  destruct (for_range_invariant
    (λ j st, st = (pairsAgree circuit (base C i + j), processedUpTo C circuit (base C i + j)))
    0 (C - i - 1) (VoteDefine.pairStep C circuit i (base C i))
    (pairsAgree circuit (base C i), processedUpTo C circuit (base C i)))
    as (st & -> & ->).
  - lia.
  - rewrite Nat.add_0_r. reflexivity.
  - intros j st Hj ->. eexists. split; [apply pairStep_spec; lia|].
    rewrite Nat.add_succ_r. reflexivity.
  - cbn [mbind option_bind base]. reflexivity.
Qed.

Lemma pairRows_spec :
  for_range 0 C (VoteDefine.pairRow C circuit) (true, replicate (length first) None, 0)
  = Some (pairsAgree circuit n, map Some (packedVotes C circuit), n).
Proof using Hsorted Hfirst Hsecond.
  destruct (for_range_invariant
    (λ i st, st = (pairsAgree circuit (base C i), processedUpTo C circuit (base C i), base C i))
    0 C (VoteDefine.pairRow C circuit) (true, replicate (length first) None, 0))
    as (st & -> & ->).
  - lia.
  - cbn [base]. unfold pairsAgree, processedUpTo. cbn [take forallb map app].
    rewrite Hfirst, Nat.sub_0_r. reflexivity.
  - intros i st Hi ->. eexists. split; [apply pairRow_spec; lia|reflexivity].
  - rewrite base_total. unfold processedUpTo.
    rewrite Nat.sub_diag, take_ge by (rewrite packedVotes_length; lia).
    cbn [replicate]. rewrite app_nil_r. reflexivity.
Qed.

Lemma mapM_id_Some {A} (l : list A) : mapM id (map Some l) = Some l.
Proof.
  apply mapM_Some. induction l as [|x l IH]; cbn [map]; constructor; [reflexivity|exact IH].
Qed.

(** [Define] in closed form, on an assignment of the lengths of the
    circuit. *)
Lemma Define_closed_form (mimc : list Element → Element) :
  2 ≤ C →
  VoteDefine.Define mimc C circuit
  = Some (Equal (Fingerprint (map VoteDefine.constant (seq 0 C))
                             (Vote.VoteCircuit.PublicR circuit))
                (Fingerprint sorted (Vote.VoteCircuit.PublicR circuit))
          && pairsAgree circuit n
          && Equal (Mul (Fingerprint (packedVotes C circuit)
                                     (Vote.VoteCircuit.PublicR circuit))
                        (Vote.VoteCircuit.PrivateMask circuit))
                   (Vote.VoteCircuit.PublicProd circuit)
          && Equal (Vote.VoteCircuit.PublicCommitment circuit)
                   (mimc (packedVotes C circuit
                          ++ [Vote.VoteCircuit.PrivateMask circuit;
                              Vote.VoteCircuit.PrivateSalt circuit]))).
Proof using Hsorted Hfirst Hsecond.
  intros HC. unfold VoteDefine.Define, VoteDefine.permClause.
  assert (Hn : 1 ≤ n).
  { apply Nat.div_le_lower_bound; [lia|]. nia. }
  change (PolyEvalInCircuit ?v ?r) with (PolyEval v r).
  rewrite (PolyEval_nonempty (map VoteDefine.constant (seq 0 C))).
  2:{ intros E. apply (f_equal length) in E. rewrite length_map, length_seq in E.
      cbn [length] in E. lia. }
  cbn [mbind option_bind].
  rewrite (PolyEval_nonempty sorted).
  2:{ intros E. rewrite E in Hsorted. cbn [length] in Hsorted. lia. }
  cbn [mbind option_bind]. rewrite pairRows_spec.
  cbn [mbind option_bind]. rewrite mapM_id_Some. cbn [mbind option_bind].
  rewrite (PolyEval_nonempty (packedVotes C circuit)).
  2:{ intros E. apply (f_equal length) in E. rewrite packedVotes_length in E.
      cbn [length] in E. lia. }
  cbn [mbind option_bind]. reflexivity.
Qed.

(** The pair assertions, read as equations. *)
Lemma pairsAgree_true :
  pairsAgree circuit n = true ↔
  ∀ i j, i < C → j < C - i - 1 →
    first !! (base C i + j) = sorted !! i
    ∧ second !! (base C i + j) = sorted !! (i + j + 1).
Proof using Hsorted Hfirst Hsecond.
  unfold pairsAgree.
  assert (Hlen : length (zip (zip first second) (pairList sorted)) = n).
  { rewrite !length_zip_with, pairList_length, Hsorted. lia. }
  rewrite take_ge by lia. rewrite forallb_forall. split.
  - intros H i j Hi Hj.
    pose proof (base_row_bound C i j Hi Hj) as Hb.
    destruct (lookup_lt_is_Some_2 first (base C i + j) ltac:(lia)) as [f Hf].
    destruct (lookup_lt_is_Some_2 second (base C i + j) ltac:(lia)) as [s Hs].
    destruct (lookup_lt_is_Some_2 sorted i ltac:(lia)) as [x Hx].
    destruct (lookup_lt_is_Some_2 sorted (i + j + 1) ltac:(lia)) as [y Hy].
    specialize (H (f, s, (x, y))). rewrite Hf, Hs, Hx, Hy.
    assert (Hin : In (f, s, (x, y)) (zip (zip first second) (pairList sorted))).
    { apply list_elem_of_In, list_elem_of_lookup. exists (base C i + j).
      rewrite !lookup_zip_with, Hf, Hs. cbn [mbind option_bind].
      rewrite <- Hsorted, (pairList_lookup sorted i j x y Hx Hy). reflexivity. }
    apply H in Hin. apply andb_prop in Hin as [H1%Equal_eq H2%Equal_eq].
    subst. split; reflexivity.
  - intros H [[f s] [x y]] Hin.
    apply list_elem_of_In, list_elem_of_lookup in Hin as [k Hk].
    assert (Hkn : k < n) by (apply lookup_lt_Some in Hk; lia).
    rewrite !lookup_zip_with in Hk.
    destruct (first !! k) as [f'|] eqn:Hf; [|discriminate].
    destruct (second !! k) as [s'|] eqn:Hs; [|discriminate].
    cbn [mbind option_bind] in Hk.
    destruct (pairList sorted !! k) as [[x' y']|] eqn:Hp; [|discriminate].
    cbn [mbind option_bind] in Hk. injection Hk as -> -> -> ->.
    destruct (base_decompose C C k) as (i & j & Hi & Hj & ->).
    { rewrite base_total. exact Hkn. }
    destruct (lookup_lt_is_Some_2 sorted i ltac:(lia)) as [x0 Hx].
    destruct (lookup_lt_is_Some_2 sorted (i + j + 1) ltac:(lia)) as [y0 Hy].
    rewrite <- Hsorted in Hp. rewrite (pairList_lookup sorted i j x0 y0 Hx Hy) in Hp.
    injection Hp as <- <-.
    destruct (H i j Hi Hj) as [E1 E2]. rewrite Hf, Hx in E1. rewrite Hs, Hy in E2.
    injection E1 as ->. injection E2 as ->. rewrite !Equal_refl. reflexivity.
Qed.

End DefineLoops.

Lemma Init_commitment (MiMC : list Element → Element) (C D : nat)
    (rankRnd : nat → nat) (dummyRnd : nat → Element) (salt : Element)
    (c : Vote.ClientState) :
  Vote.Init MiMC C D rankRnd dummyRnd salt = Some c →
  Vote.PublicCom c = MiMC (Vote.PrivateX c ++ [Vote.PrivateMask c; Vote.PrivateSalt c]).
Proof.
  unfold Vote.Init, Vote.initFrom. intros H.
  destruct (Shuffle _ _ _ _) as [sorted|]; [|discriminate].
  cbn [mbind option_bind] in H.
  destruct (Vote.genPairs C sorted) as [[first second]|]; [|discriminate].
  cbn [mbind option_bind] in H.
  destruct (Vote.packAll _ _ _ _) as [x|]; [|discriminate].
  cbn [mbind option_bind] in H. injection H as <-. reflexivity.
Qed.

Lemma constant_candidate (i : nat) :
  (Z.of_nat i < 2 ^ 64)%Z → VoteDefine.constant i = candidate i.
Proof.
  intros Hi. unfold VoteDefine.constant, candidate, NewElement.
  rewrite Z.mod_small by lia. reflexivity.
Qed.

Lemma packInCircuit_pack (C : nat) (f s : Element) :
  (Z.of_nat C < 2 ^ 64)%Z → packInCircuit C f s = Vote.pack C f s.
Proof.
  intros HC. unfold packInCircuit, Vote.pack. rewrite constant_candidate by exact HC.
  unfold candidate. ring.
Qed.

Lemma zip_with_fst_snd {A B C} (h : A → B → C) (l : list (A * B)) :
  zip_with h (map fst l) (map snd l) = map (λ p, h p.1 p.2) l.
Proof. induction l as [|[a b] l IH]; [reflexivity|]. cbn. rewrite IH. reflexivity. Qed.

(** What [VoteCircuit.Define] asserts.  On an assignment of the lengths of
    the circuit ([CandidateNum] candidates, [CandidateNum*(CandidateNum-1)/2]
    pairs) [Define] does not panic, and every assertion holds exactly when
    the fingerprint of [SortedCandidate] is the fingerprint of
    [0 .. CandidateNum-1], the pairs are the pairs of [SortedCandidate], row
    by row, [PublicProd] is the fingerprint of the packed pairs times
    [PrivateMask], and [PublicCommitment] is the hash of the packed pairs,
    the mask and the salt. *)
Theorem VoteCircuit_Define_meaning (mimc : list Element → Element) (C : nat)
    (circuit : Vote.VoteCircuit.t) :
  2 ≤ C →
  length (Vote.VoteCircuit.SortedCandidate circuit) = C →
  length (Vote.VoteCircuit.PairFirstVar circuit) = C * (C - 1) / 2 →
  length (Vote.VoteCircuit.PairSecondVar circuit) = C * (C - 1) / 2 →
  (∃ b, VoteDefine.Define mimc C circuit = Some b)
  ∧ ∃ p,
      PolyEvalInCircuit (packedVotes C circuit) (Vote.VoteCircuit.PublicR circuit) = Some p
      ∧ (VoteDefine.Define mimc C circuit = Some true ↔
         PolyEvalInCircuit (map VoteDefine.constant (seq 0 C))
                           (Vote.VoteCircuit.PublicR circuit)
         = PolyEvalInCircuit (Vote.VoteCircuit.SortedCandidate circuit)
                             (Vote.VoteCircuit.PublicR circuit)
         ∧ (∀ i j, i < C → j < C - i - 1 →
              Vote.VoteCircuit.PairFirstVar circuit !! (base C i + j)
              = Vote.VoteCircuit.SortedCandidate circuit !! i
              ∧ Vote.VoteCircuit.PairSecondVar circuit !! (base C i + j)
                = Vote.VoteCircuit.SortedCandidate circuit !! (i + j + 1))
         ∧ Vote.VoteCircuit.PublicProd circuit
           = Mul p (Vote.VoteCircuit.PrivateMask circuit)
         ∧ Vote.VoteCircuit.PublicCommitment circuit
           = mimc (packedVotes C circuit
                   ++ [Vote.VoteCircuit.PrivateMask circuit;
                       Vote.VoteCircuit.PrivateSalt circuit])).
Proof.
  intros HC Hs Hf Hse.
  rewrite (Define_closed_form C circuit Hs Hf Hse mimc HC).
  split; [eexists; reflexivity|].
  assert (Hn : 1 ≤ C * (C - 1) / 2).
  { apply Nat.div_le_lower_bound; [lia|]. nia. }
  change (PolyEvalInCircuit ?v ?r) with (PolyEval v r).
  rewrite (PolyEval_nonempty (packedVotes C circuit)).
  2:{ intros E. apply (f_equal length) in E.
      rewrite (packedVotes_length C circuit Hs Hf Hse) in E. cbn [length] in E. lia. }
  rewrite (PolyEval_nonempty (Vote.VoteCircuit.SortedCandidate circuit)).
  2:{ intros E. rewrite E in Hs. cbn [length] in Hs. lia. }
  rewrite (PolyEval_nonempty (map VoteDefine.constant (seq 0 C))).
  2:{ intros E. apply (f_equal length) in E. rewrite length_map, length_seq in E.
      cbn [length] in E. lia. }
  eexists. split; [reflexivity|].
  rewrite <- (pairsAgree_true C circuit Hs Hf Hse).
  split.
  - intros H. apply (inj Some) in H. rewrite !andb_true_iff, !Equal_eq in H.
    destruct H as [[[H1 H2] H3] H4].
    split_and!; [f_equal; exact H1|exact H2|auto|exact H4].
  - intros ([= H1] & H2 & H3 & H4). rewrite H1, H2, H3, H4, !Equal_refl. reflexivity.
Qed.

Lemma VoteCircuit_Define_meaning_witness :
  ∃ b, VoteDefine.Define Example.MiMC 2
         {| Vote.VoteCircuit.SortedCandidate := [NewElement 1; NewElement 0];
            Vote.VoteCircuit.PairFirstVar := [NewElement 1];
            Vote.VoteCircuit.PairSecondVar := [NewElement 0];
            Vote.VoteCircuit.PrivateMask := NewElement 3;
            Vote.VoteCircuit.PublicR := NewElement 5;
            Vote.VoteCircuit.PublicProd := NewElement 21;
            Vote.VoteCircuit.PublicCommitment := NewElement 14;
            Vote.VoteCircuit.PrivateSalt := NewElement 9 |} = Some b.
Proof.
  apply (VoteCircuit_Define_meaning Example.MiMC 2
    {| Vote.VoteCircuit.SortedCandidate := [NewElement 1; NewElement 0];
       Vote.VoteCircuit.PairFirstVar := [NewElement 1];
       Vote.VoteCircuit.PairSecondVar := [NewElement 0];
       Vote.VoteCircuit.PrivateMask := NewElement 3;
       Vote.VoteCircuit.PublicR := NewElement 5;
       Vote.VoteCircuit.PublicProd := NewElement 21;
       Vote.VoteCircuit.PublicCommitment := NewElement 14;
       Vote.VoteCircuit.PrivateSalt := NewElement 9 |});
    [lia|reflexivity|reflexivity|reflexivity].
Defined.

(** The circuit accepts every honest client: for every choice of the
    shuffle draws, the dummies, the salt and the challenge, with at least
    two candidates, the assignment that [GenAssignment] builds for a client
    set up by [Init] satisfies every assertion of [VoteCircuit.Define],
    provided the MiMC gadget computes the native hash. *)
Theorem VoteCircuit_accepts_honest_client (mimc MiMC : list Element → Element)
    (C D : nat) (rankRnd : nat → nat) (dummyRnd : nat → Element)
    (salt publicR : Element) :
  2 ≤ C → (Z.of_nat C < 2 ^ 64)%Z → (∀ l, mimc l = MiMC l) →
  ∃ c c' a,
    Vote.Init MiMC C D rankRnd dummyRnd salt = Some c
    ∧ Vote.GenAssignment C c publicR = Some (c', a)
    ∧ VoteDefine.Define mimc C a = Some true.
Proof.
  intros HC HC64 Hm.
  destruct (Init_honest MiMC C D rankRnd dummyRnd salt) as (c & Hc & Hwf & Hrk & Hp).
  pose proof (Init_commitment MiMC C D rankRnd dummyRnd salt c Hc) as Hcom.
  exists c, (withProd c publicR), (assignmentOf c publicR).
  split; [exact Hc|]. split; [apply (GenAssignment_wf C D); assumption|].
  destruct Hwf as (H1 & H2 & H3 & H4 & H5 & H6).
  assert (Hlen : length (pairList (Vote.SortedCandidate c)) = C * (C - 1) / 2).
  { rewrite pairList_length, H1. reflexivity. }
  assert (Hs : length (Vote.VoteCircuit.SortedCandidate (assignmentOf c publicR)) = C)
    by exact H1.
  assert (Hf : length (Vote.VoteCircuit.PairFirstVar (assignmentOf c publicR))
               = C * (C - 1) / 2).
  { cbn [assignmentOf Vote.VoteCircuit.PairFirstVar]. rewrite H2, length_map. exact Hlen. }
  assert (Hse : length (Vote.VoteCircuit.PairSecondVar (assignmentOf c publicR))
                = C * (C - 1) / 2).
  { cbn [assignmentOf Vote.VoteCircuit.PairSecondVar]. rewrite H3, length_map. exact Hlen. }
  rewrite (Define_closed_form C _ Hs Hf Hse mimc HC). f_equal.
  assert (Hpacked : packedVotes C (assignmentOf c publicR) = Vote.PrivateX c).
  { unfold packedVotes. cbn [assignmentOf Vote.VoteCircuit.PairFirstVar
                            Vote.VoteCircuit.PairSecondVar].
    rewrite H2, H3, H4, zip_with_fst_snd. apply map_ext. intros [f s].
    apply packInCircuit_pack. exact HC64. }
  assert (Hperm : Fingerprint (map VoteDefine.constant (seq 0 C)) publicR
                  = Fingerprint (Vote.SortedCandidate c) publicR).
  { rewrite Hrk. rewrite (map_ext_in VoteDefine.constant candidate).
    - apply Fingerprint_Permutation. apply Permutation_map. symmetry. exact Hp.
    - intros i Hi%in_seq. apply constant_candidate. lia. }
  assert (Hpairs : pairsAgree (assignmentOf c publicR) (C * (C - 1) / 2) = true).
  { apply (pairsAgree_true C _ Hs Hf Hse). intros i j Hi Hj.
    cbn [assignmentOf Vote.VoteCircuit.PairFirstVar Vote.VoteCircuit.PairSecondVar
         Vote.VoteCircuit.SortedCandidate].
    destruct (lookup_lt_is_Some_2 (Vote.SortedCandidate c) i ltac:(lia)) as [x Hx].
    destruct (lookup_lt_is_Some_2 (Vote.SortedCandidate c) (i + j + 1) ltac:(lia))
      as [y Hy].
    rewrite H2, H3, !map_fmap, !list_lookup_fmap, <- H1.
    rewrite (pairList_lookup _ i j x y Hx Hy), Hx, Hy. split; reflexivity. }
  rewrite Hpacked, Hpairs.
  cbn [assignmentOf Vote.VoteCircuit.PublicR Vote.VoteCircuit.SortedCandidate
       Vote.VoteCircuit.PrivateMask Vote.VoteCircuit.PublicProd
       Vote.VoteCircuit.PublicCommitment Vote.VoteCircuit.PrivateSalt].
  rewrite Hperm, Hm, <- Hcom, !Equal_refl. reflexivity.
Qed.

Lemma VoteCircuit_accepts_honest_client_witness :
  ∃ c c' a,
    Vote.Init Example.MiMC 3 2 (Example.rankRnd 1) Example.shares (NewElement 9) = Some c
    ∧ Vote.GenAssignment 3 c (NewElement 5) = Some (c', a)
    ∧ VoteDefine.Define Example.MiMC 3 a = Some true.
Proof.
  apply (VoteCircuit_accepts_honest_client Example.MiMC Example.MiMC);
    [lia|lia|reflexivity].
Defined.
